(** * NLMS echo cancellation: a shallow embedding and its properties

    The TypeScript sources compute on JavaScript numbers (IEEE-754 binary64)
    and store samples in [Float32Array]s.  The embedding is written once over
    an interface [Number] of the arithmetic the sources use, and read at two
    instances:

    - [IEEE.number]: Rocq's primitive binary64 floats, with [fround] the
      rounding to binary32 that every [Float32Array] store performs.  Every
      definition computes there, so concrete runs are replayed with
      [vm_compute];
    - [Ideal.number]: the real numbers, rounding-free, for the algebraic
      statements (sums, norms, bounds) that are meant up to rounding.

    Statements that only depend on the control flow are proved for every
    instance at once. *)

From Stdlib Require Import ZArith List Reals Lra Lia Floats.
From stdpp Require Import base tactics option list.
Import ListNotations.

Set Default Proof Using "Type".
#[local] Set Warnings "-inexact-float".

(** ** Numbers *)

Class Number (F : Type) := {
  (** an integer-valued number: a literal, an array length, a loop counter *)
  of_Z : Z -> F;
  (** the decimal literal [m / d], e.g. [0.95] is [ratio 95 100] *)
  ratio : Z -> positive -> F;
  (** what an out-of-range typed-array read yields once used as a number *)
  undefined : F;
  add : F -> F -> F;
  sub : F -> F -> F;
  mul : F -> F -> F;
  div : F -> F -> F;
  (** [Math.abs], [Math.sqrt], [Math.sign], [Math.round] *)
  abs : F -> F;
  sqrt : F -> F;
  sign : F -> F;
  round : F -> F;
  (** [x < y] and [x <= y]; [x > y] is [ltb y x] *)
  ltb : F -> F -> bool;
  leb : F -> F -> bool;
  (** the value a [Float32Array] element holds after [a[i] = x] *)
  fround : F -> F
}.

Declare Scope num_scope.
Delimit Scope num_scope with num.
Infix "+" := add : num_scope.
Infix "-" := sub : num_scope.
Infix "*" := mul : num_scope.
Infix "/" := div : num_scope.
Infix "<?" := ltb : num_scope.
Infix "<=?" := leb : num_scope.
Notation "x >? y" := (ltb y x) (at level 70, no associativity) : num_scope.

(** Typed arrays: a read outside the array is [undefined], a write outside
    the array is dropped; a write rounds to binary32. *)
Section TypedArray.
Context {F : Type} {N : Number F}.

Definition ta_get (a : list F) (i : Z) : F :=
  if (0 <=? i)%Z then default undefined (a !! Z.to_nat i) else undefined.

Definition ta_set (a : list F) (i : Z) (x : F) : list F :=
  if (0 <=? i)%Z then <[Z.to_nat i := fround x]> a else a.

(** [new Float32Array(n)] *)
Definition ta_new (n : Z) : list F := replicate (Z.to_nat n) (of_Z 0).


End TypedArray.

(** ** The IEEE-754 instance: what the sources run on *)
Module IEEE.
(** Rounding a binary64 to the nearest binary32 (ties to even), as
    [Math.fround] and every [Float32Array] store do. *)
Definition fround32 (x : float) : float :=
  match Prim2SF x with
  | S754_finite s m e => SF2Prim (binary_round 24 128 s m e)
  | _ => x
  end.

Definition of_Z64 (z : Z) : float :=
  SF2Prim (binary_normalize prec emax z 0 false).

(** Both operands are integers below 2^53 for the literals of this
    program, so the correctly rounded quotient is the literal's value. *)
Definition ratio64 (m : Z) (d : positive) : float :=
  PrimFloat.div (of_Z64 m) (of_Z64 (Zpos d)).

(** [Math.sign]: 1, -1, or the argument itself for zeros and NaN. *)
Definition sign64 (x : float) : float :=
  if PrimFloat.ltb 0 x then 1%float
  else if PrimFloat.ltb x 0 then (-1)%float
  else x.

(** [Math.round]: the integer nearest to [x], ties towards +infinity;
    computed exactly on the mantissa and exponent. *)
Definition round64 (x : float) : float :=
  match Prim2SF x with
  | S754_finite s m e =>
      let v := if s then Zneg m else Zpos m in
      let n := if (0 <=? e)%Z then (v * 2 ^ e)%Z
               else ((2 * v + 2 ^ (- e)) / 2 ^ (- e + 1))%Z in
      if (n =? 0)%Z then (if s then (-0)%float else 0%float) else of_Z64 n
  | _ => x
  end.

#[global] Instance number : Number float := {|
  of_Z := of_Z64;
  ratio := ratio64;
  undefined := nan;
  add := PrimFloat.add;
  sub := PrimFloat.sub;
  mul := PrimFloat.mul;
  div := PrimFloat.div;
  abs := PrimFloat.abs;
  sqrt := PrimFloat.sqrt;
  sign := sign64;
  round := round64;
  ltb := PrimFloat.ltb;
  leb := PrimFloat.leb;
  fround := fround32
|}.
End IEEE.

(** ** The ideal instance: real arithmetic without rounding *)
Module Ideal.
Definition Rltb (x y : R) : bool := if Rlt_dec x y then true else false.
Definition Rleb (x y : R) : bool := if Rle_dec x y then true else false.

Definition Rsign (x : R) : R :=
  if Rltb 0 x then 1%R else if Rltb x 0 then (-1)%R else x.

(** [Math.round x] is [floor (x + 1/2)]. *)
Definition Rround (x : R) : R := IZR (Int_part (x + / 2)).

(** There is no NaN among the reals and division is total: [undefined] is
    a placeholder, and the statements read at this instance keep every
    array access in range and every divisor away from zero. *)
#[global] Instance number : Number R := {|
  of_Z := IZR;
  ratio := fun m d => (IZR m / IZR (Zpos d))%R;
  undefined := 0%R;
  add := Rplus;
  sub := Rminus;
  mul := Rmult;
  div := Rdiv;
  abs := Rabs;
  sqrt := R_sqrt.sqrt;
  sign := Rsign;
  round := Rround;
  ltb := Rltb;
  leb := Rleb;
  fround := fun x => x
|}.

End Ideal.

(** ** 32-bit integer operators

    [a & b] converts both operands with ToInt32 (wrap-around modulo 2^32
    into the signed range) before the bitwise and. *)
Definition to_int32 (z : Z) : Z := ((z + 2 ^ 31) mod 2 ^ 32 - 2 ^ 31)%Z.

Definition js_and (a b : Z) : Z := Z.land (to_int32 a) (to_int32 b).

(** ** utils/circular-buffer: [CircularBuffer]

    Indices, sizes and delays are integer-valued numbers and are kept in
    [Z]; binary64 computes on them exactly while they stay below 2^53 in
    magnitude. *)
Module CircularBuffer.
Section Defs.
Context {F : Type} {N : Number F}.

Record t := {
  buffer : list F;
  writeIndex : Z;
  readIndex : Z;
  size : Z;
  mask : Z
}.

(** [while (power < n) power *= 2], unrolled at most [fuel] times. *)
Fixpoint nextPowerOfTwo_loop (fuel : nat) (power n : Z) : Z :=
  match fuel with
  | O => power
  | S k => if (power <? n)%Z then nextPowerOfTwo_loop k (power * 2)%Z n else power
  end.

(** [n] doublings always suffice to reach [n]. *)
Definition nextPowerOfTwo (n : Z) : Z := nextPowerOfTwo_loop (Z.to_nat n) 1 n.

Definition create (size0 : Z) : t :=
  let size := nextPowerOfTwo size0 in
  {| buffer := ta_new size; writeIndex := 0; readIndex := 0;
     size := size; mask := size - 1 |}.

Definition write (b : t) (sample : F) : t :=
  {| buffer := ta_set (buffer b) (writeIndex b) sample;
     writeIndex := js_and (writeIndex b + 1) (mask b);
     readIndex := readIndex b; size := size b; mask := mask b |}.

Definition writeBlock (b : t) (samples : list F) : t :=
  fold_left write samples b.

Definition read (b : t) (delay : Z) : F :=
  let index := js_and (writeIndex b - 1 - delay) (mask b) in
  ta_get (buffer b) index.

(** [readBlock] fills the caller's array in place; the filled array is
    returned. *)
Definition readBlock (b : t) (output : list F) (delay : Z) : list F :=
  fold_left (fun out i => ta_set out i (read b (delay + i)))
            (seqZ 0 (Z.of_nat (length output))) output.

Definition clear (b : t) : t :=
  {| buffer := replicate (length (buffer b)) (of_Z 0);
     writeIndex := 0; readIndex := 0; size := size b; mask := mask b |}.

Definition available (b : t) : Z := js_and (writeIndex b - readIndex b) (mask b).

(** Shape invariant of a constructed buffer: a power-of-two size within the
    int32 range of [&], the matching mask, and a write index inside. *)
Definition wf (b : t) : Prop :=
  exists p : Z, (0 <= p <= 30)%Z /\ size b = (2 ^ p)%Z /\
    mask b = (size b - 1)%Z /\
    Z.of_nat (length (buffer b)) = size b /\
    (0 <= writeIndex b < size b)%Z.
End Defs.
Arguments t F : clear implicits.
End CircularBuffer.

(** ** core/nlms-processor: [NLMSProcessor]

    The ERLE and timing metrics ([updateMetrics], [calculateERLE]) read the
    wall clock and feed no sample and no weight; they are left out. *)
Module NLMS.
Section Defs.
Context {F : Type} {N : Number F}.

Record Config := {
  filterLength : Z;
  stepSize : F;
  regularization : F;
  leakageFactor : F
}.

Definition defaultConfig : Config :=
  {| filterLength := 512; stepSize := ratio 1 10;
     regularization := ratio 1 1000000; leakageFactor := ratio 99999 100000 |}.

Record t := {
  weights : list F;
  delayLine : list F;
  powerEstimate : F;
  writeIndex : Z
}.

Definition initializeFilter (c : Config) : t :=
  {| weights := ta_new (filterLength c);
     delayLine := ta_new (filterLength c);
     powerEstimate := ratio 1 1000000;
     writeIndex := 0 |}.

(** [(this.writeIndex - i + filterLength) % filterLength]; [%] takes the
    sign of the dividend, as [Z.rem] does. *)
Definition delayIndex (c : Config) (s : t) (i : Z) : Z :=
  Z.rem (writeIndex s - i + filterLength c) (filterLength c).

Definition calculateFilterOutput (c : Config) (s : t) : F :=
  fold_left
    (fun output i =>
       (output + ta_get (weights s) i * ta_get (delayLine s) (delayIndex c s i))%num)
    (seqZ 0 (filterLength c)) (of_Z 0).

Definition updateWeights (c : Config) (s : t) (errorSignal : F) : t :=
  let currentSample := ta_get (delayLine s) (writeIndex s) in
  let powerEstimate' :=
    (ratio 95 100 * powerEstimate s + ratio 5 100 * currentSample * currentSample)%num in
  let normalizedStepSize :=
    (stepSize c / (powerEstimate' * of_Z (filterLength c) + regularization c))%num in
  let weights' :=
    fold_left
      (fun w i =>
         let refSample := ta_get (delayLine s) (delayIndex c s i) in
         ta_set w i (leakageFactor c * ta_get w i
                     + normalizedStepSize * errorSignal * refSample)%num)
      (seqZ 0 (filterLength c)) (weights s) in
  {| weights := weights'; delayLine := delayLine s;
     powerEstimate := powerEstimate'; writeIndex := writeIndex s |}.

(** The body of the loop of [process], for one reference sample and one
    microphone sample; it returns the error sample next to the new state. *)
Definition process_step (c : Config) (enableAdaptation : bool)
    (s : t) (referenceSample microphoneSample : F) : t * F :=
  let s1 :=
    {| weights := weights s;
       delayLine := ta_set (delayLine s) (writeIndex s) referenceSample;
       powerEstimate := powerEstimate s; writeIndex := writeIndex s |} in
  let estimatedEcho := calculateFilterOutput c s1 in
  let errorSignal := (microphoneSample - estimatedEcho)%num in
  let s2 := if enableAdaptation then updateWeights c s1 errorSignal else s1 in
  ({| weights := weights s2; delayLine := delayLine s2;
      powerEstimate := powerEstimate s2;
      writeIndex := Z.rem (writeIndex s2 + 1) (filterLength c) |},
   errorSignal).

Definition process (c : Config) (s : t)
    (referenceSignal microphoneSignal : list F) (enableAdaptation : bool)
    : t * list F :=
  let blockSize := Z.of_nat (length referenceSignal) in
  fold_left
    (fun '(s, output) i =>
       let '(s', errorSignal) :=
         process_step c enableAdaptation s
           (ta_get referenceSignal i) (ta_get microphoneSignal i) in
       (s', ta_set output i errorSignal))
    (seqZ 0 blockSize) (s, ta_new blockSize).

Definition reset (c : Config) (s : t) : t := initializeFilter c.

Definition getWeights (s : t) : list F := weights s.

(** [filterNorm] of [getMetrics]:
    [Math.sqrt(this.weights.reduce((sum, w) => sum + w * w, 0))]. *)
Definition filterNorm (s : t) : F :=
  sqrt (fold_left (fun sum w => (sum + w * w)%num) (weights s) (of_Z 0)).

(** A caller driving [process] block after block with one adaptation flag;
    each block is a pair (reference, microphone). *)
Definition processBlocks (c : Config) (s : t)
    (blocks : list (list F * list F)) (enableAdaptation : bool) : t :=
  fold_left (fun s b => fst (process c s (fst b) (snd b) enableAdaptation)) blocks s.

(** The reference vector x_n the two loops walk through: entry [i] is the
    delay-line sample [i] positions behind the write index. *)
Definition refVector (c : Config) (s : t) : list F :=
  (fun i => ta_get (delayLine s) (delayIndex c s i)) <$> seqZ 0 (filterLength c).

(** The state [process_step] works on once the reference sample is stored. *)
Definition store (s : t) (referenceSample : F) : t :=
  {| weights := weights s;
     delayLine := ta_set (delayLine s) (writeIndex s) referenceSample;
     powerEstimate := powerEstimate s; writeIndex := writeIndex s |}.

(** Shape invariant of a constructed processor. *)
Definition wf (c : Config) (s : t) : Prop :=
  (0 < filterLength c)%Z /\
  Z.of_nat (length (weights s)) = filterLength c /\
  Z.of_nat (length (delayLine s)) = filterLength c /\
  (0 <= writeIndex s < filterLength c)%Z.
End Defs.
Arguments Config F : clear implicits.
Arguments t F : clear implicits.
End NLMS.

(** ** core/double-talk-detector: [DoubleTalkDetector]

    [hangoverTime] and [hangoverCounter] are plain numbers in the source
    ([hangoverCounter--], [hangoverCounter <= 0]) and stay numbers here. *)
Module DTD.
Inductive TalkState := IDLE | SINGLE_TALK | DOUBLE_TALK | HOLD.

Section Defs.
Context {F : Type} {N : Number F}.

Record Config := {
  powerRatioThreshold : F;
  correlationThreshold : F;
  hangoverTime : F;
  windowSize : Z
}.

Definition defaultConfig : Config :=
  {| powerRatioThreshold := of_Z 2; correlationThreshold := ratio 6 10;
     hangoverTime := of_Z 2400; windowSize := 512 |}.

Record t := {
  state : TalkState;
  hangoverCounter : F;
  nearEndPower : F;
  farEndPower : F;
  crossPower : F;
  nearEndBuffer : list F;
  farEndBuffer : list F;
  bufferIndex : Z
}.

Definition create (c : Config) : t :=
  {| state := IDLE; hangoverCounter := of_Z 0;
     nearEndPower := ratio 1 10000000000;
     farEndPower := ratio 1 10000000000;
     crossPower := ratio 1 10000000000;
     nearEndBuffer := ta_new (windowSize c);
     farEndBuffer := ta_new (windowSize c);
     bufferIndex := 0 |}.

Definition updatePowerEstimates (d : t) (nearEnd farEnd : list F) : t :=
  let alpha := ratio 95 100 in
  let '(nearPower, farPower, crossPower0) :=
    fold_left
      (fun '(np, fp, cp) i =>
         (np + ta_get nearEnd i * ta_get nearEnd i,
          fp + ta_get farEnd i * ta_get farEnd i,
          cp + ta_get nearEnd i * ta_get farEnd i)%num)
      (seqZ 0 (Z.of_nat (length nearEnd))) (of_Z 0, of_Z 0, of_Z 0) in
  let nearPower := (nearPower / of_Z (Z.of_nat (length nearEnd)))%num in
  let farPower := (farPower / of_Z (Z.of_nat (length farEnd)))%num in
  let crossPower0 := (crossPower0 / of_Z (Z.of_nat (length nearEnd)))%num in
  {| state := state d; hangoverCounter := hangoverCounter d;
     nearEndPower := (alpha * nearEndPower d + (of_Z 1 - alpha) * nearPower)%num;
     farEndPower := (alpha * farEndPower d + (of_Z 1 - alpha) * farPower)%num;
     crossPower := (alpha * crossPower d + (of_Z 1 - alpha) * crossPower0)%num;
     nearEndBuffer := nearEndBuffer d; farEndBuffer := farEndBuffer d;
     bufferIndex := bufferIndex d |}.

Definition updateCorrelationBuffers (c : Config) (d : t) (nearEnd farEnd : list F) : t :=
  fold_left
    (fun d i =>
       {| state := state d; hangoverCounter := hangoverCounter d;
          nearEndPower := nearEndPower d; farEndPower := farEndPower d;
          crossPower := crossPower d;
          nearEndBuffer := ta_set (nearEndBuffer d) (bufferIndex d) (ta_get nearEnd i);
          farEndBuffer := ta_set (farEndBuffer d) (bufferIndex d) (ta_get farEnd i);
          bufferIndex := Z.rem (bufferIndex d + 1) (windowSize c) |})
    (seqZ 0 (Z.of_nat (length nearEnd))) d.

Definition calculateCorrelation (c : Config) (d : t) : F :=
  let w := of_Z (windowSize c) in
  let '(correlation, nearSum, farSum, nearSumSq, farSumSq) :=
    fold_left
      (fun '(co, ns, fs, nq, fq) i =>
         let nearSample := ta_get (nearEndBuffer d) i in
         let farSample := ta_get (farEndBuffer d) i in
         (co + nearSample * farSample, ns + nearSample, fs + farSample,
          nq + nearSample * nearSample, fq + farSample * farSample)%num)
      (seqZ 0 (windowSize c)) (of_Z 0, of_Z 0, of_Z 0, of_Z 0, of_Z 0) in
  let nearMean := (nearSum / w)%num in
  let farMean := (farSum / w)%num in
  let nearVar := (nearSumSq / w - nearMean * nearMean)%num in
  let farVar := (farSumSq / w - farMean * farMean)%num in
  let denominator := sqrt (nearVar * farVar)%num in
  if (denominator >? ratio 1 10000000000)%num
  then ((correlation / w - nearMean * farMean) / denominator)%num
  else of_Z 0.

Definition detectDoubleTalk (c : Config) (d : t) : bool :=
  let powerRatio := (nearEndPower d / (farEndPower d + ratio 1 10000000000))%num in
  let powerTest := (powerRatio >? powerRatioThreshold c)%num in
  let correlation := calculateCorrelation c d in
  let correlationTest := (abs correlation <? correlationThreshold c)%num in
  powerTest || correlationTest.

Definition set_state (d : t) (st : TalkState) (h : F) : t :=
  {| state := st; hangoverCounter := h;
     nearEndPower := nearEndPower d; farEndPower := farEndPower d;
     crossPower := crossPower d;
     nearEndBuffer := nearEndBuffer d; farEndBuffer := farEndBuffer d;
     bufferIndex := bufferIndex d |}.

Definition updateState (c : Config) (d : t) (isDoubleTalk : bool) : t :=
  match state d with
  | IDLE =>
      if (farEndPower d >? ratio 1 1000000)%num
      then set_state d (if isDoubleTalk then DOUBLE_TALK else SINGLE_TALK)
                     (hangoverCounter d)
      else d
  | SINGLE_TALK =>
      if isDoubleTalk then set_state d DOUBLE_TALK (hangoverTime c)
      else if (farEndPower d <? ratio 1 10000000)%num
           then set_state d IDLE (hangoverCounter d)
           else d
  | DOUBLE_TALK =>
      if negb isDoubleTalk then set_state d HOLD (hangoverTime c) else d
  | HOLD =>
      let h := (hangoverCounter d - of_Z 1)%num in
      if (h <=? of_Z 0)%num
      then set_state d
             (if (farEndPower d >? ratio 1 10000000)%num then SINGLE_TALK else IDLE) h
      else if isDoubleTalk then set_state d DOUBLE_TALK h
           else set_state d HOLD h
  end.

(** The third argument of [process], the error signal, is never read. *)
Definition process (c : Config) (d : t) (nearEndSignal farEndSignal : list F)
    : t * bool :=
  let d1 := updatePowerEstimates d nearEndSignal farEndSignal in
  let d2 := updateCorrelationBuffers c d1 nearEndSignal farEndSignal in
  let isDoubleTalk := detectDoubleTalk c d2 in
  let d3 := updateState c d2 isDoubleTalk in
  (d3, match state d3 with DOUBLE_TALK | HOLD => false | _ => true end).

Definition getState (d : t) : TalkState := state d.
End Defs.
Arguments Config F : clear implicits.
Arguments t F : clear implicits.
End DTD.

(** ** main: [EchoCancellationSystem.processBlock] *)
Module System.
Section Defs.
Context {F : Type} {N : Number F}.

Record Config := {
  nlmsConfig : NLMS.Config F;
  doubleTalkConfig : DTD.Config F
}.

Definition defaultConfig : Config :=
  {| nlmsConfig := NLMS.defaultConfig; doubleTalkConfig := DTD.defaultConfig |}.

Record t := {
  nlmsProcessor : NLMS.t F;
  doubleTalkDetector : DTD.t F
}.

Definition create (c : Config) : t :=
  {| nlmsProcessor := NLMS.initializeFilter (nlmsConfig c);
     doubleTalkDetector := DTD.create (doubleTalkConfig c) |}.

Definition processBlock (c : Config) (s : t)
    (microphoneData systemAudioData : list F) : t * list F :=
  let '(d', enableAdaptation) :=
    DTD.process (doubleTalkConfig c) (doubleTalkDetector s)
      microphoneData systemAudioData in
  let '(n', processedAudio) :=
    NLMS.process (nlmsConfig c) (nlmsProcessor s)
      systemAudioData microphoneData enableAdaptation in
  ({| nlmsProcessor := n'; doubleTalkDetector := d' |}, processedAudio).
End Defs.
Arguments Config F : clear implicits.
Arguments t F : clear implicits.
End System.

(** ** demo/real-time-processor: delay estimation and residual suppression *)
Module RealTimeProcessor.
Section Defs.
Context {F : Type} {N : Number F}.

(** [Math.min(480, Math.floor(mic.length / 2))] *)
Definition maxDelay (mic : list F) : Z :=
  Z.min 480 (Z.of_nat (length mic) / 2).

(** The inner loop of [estimateDelay] at one lag: it runs [i] from [delay]
    while [i < mic.length && i - delay < sys.length], and returns the sum
    and the number of terms. *)
Definition correlate (mic sys : list F) (delay : Z) : F * Z :=
  let stop := Z.min (Z.of_nat (length mic)) (Z.of_nat (length sys) + delay) in
  fold_left
    (fun '(correlation, count) i =>
       ((correlation + ta_get mic i * ta_get sys (i - delay))%num, (count + 1)%Z))
    (seqZ delay (stop - delay)) (of_Z 0, 0%Z).

(** The body of the outer loop: the running pair
    [(maxCorrelation, bestDelay)] after lag [delay]. *)
Definition estimate_step (mic sys : list F) (acc : F * Z) (delay : Z) : F * Z :=
  let '(maxCorrelation, bestDelay) := acc in
  let '(correlation, count) := correlate mic sys delay in
  if (0 <? count)%Z then
    let correlation := (correlation / of_Z count)%num in
    if (abs correlation >? abs maxCorrelation)%num
    then (correlation, delay)
    else (maxCorrelation, bestDelay)
  else (maxCorrelation, bestDelay).

Definition bestDelay (mic sys : list F) : Z :=
  snd (fold_left (estimate_step mic sys) (seqZ 0 (maxDelay mic)) (of_Z 0, 0%Z)).

(** [estimateDelay] updates the field [estimatedDelay] (first component)
    and returns its rounding (second component). *)
Definition estimateDelay (estimatedDelay : F) (mic sys : list F) : F * F :=
  let alpha := ratio 1 10 in
  let estimatedDelay' :=
    (estimatedDelay * (of_Z 1 - alpha) + of_Z (bestDelay mic sys) * alpha)%num in
  (estimatedDelay', round estimatedDelay').

Definition applyResidualSuppression (signal reference : list F) : list F :=
  let suppressionFactor := ratio 1 10 in
  fold_left
    (fun output i =>
       let refLevel := abs (ta_get reference i) in
       let suppression :=
         if (refLevel >? ratio 1 1000)%num then suppressionFactor else of_Z 0 in
       ta_set output i (ta_get signal i * (of_Z 1 - suppression))%num)
    (seqZ 0 (Z.of_nat (length signal))) (ta_new (Z.of_nat (length signal))).
End Defs.
End RealTimeProcessor.

(** ** The AudioWorklet processor: [EchoCancellationProcessor.processSample]

    The ERLE accumulators ([erleSum], [erleCount]) are monitoring only, and
    [microphoneBuffer] is written by [process] but never read; they are
    left out.  Everything that reaches the returned sample or the filter is
    kept. *)
Module Worklet.
Section Defs.
Context {F : Type} {N : Number F}.

Record t := {
  systemAudioBuffer : list F;
  bufferIndex : Z;
  filterLength : Z;
  adaptiveFilter : list F;
  stepSize : F;
  regularization : F;
  micPowerHistory : list F;
  echoPowerHistory : list F;
  powerIndex : Z;
  doubleTalkThreshold : F
}.

Definition create : t :=
  {| systemAudioBuffer := ta_new 8192; bufferIndex := 0;
     filterLength := 512; adaptiveFilter := ta_new 512;
     stepSize := ratio 1 10; regularization := ratio 1 1000000;
     micPowerHistory := ta_new 64; echoPowerHistory := ta_new 64;
     powerIndex := 0; doubleTalkThreshold := ratio 5 10 |}.

Definition referenceVector (s : t) : list F :=
  let len := Z.of_nat (length (systemAudioBuffer s)) in
  fold_left
    (fun v i => ta_set v i (ta_get (systemAudioBuffer s)
                              (Z.rem (bufferIndex s - i + len) len)))
    (seqZ 0 (filterLength s)) (ta_new (filterLength s)).

Definition estimatedEcho (s : t) (v : list F) : F :=
  fold_left (fun e i => (e + ta_get (adaptiveFilter s) i * ta_get v i)%num)
            (seqZ 0 (filterLength s)) (of_Z 0).

(** The two running sums share one loop over [micPowerHistory.length];
    each is then divided by its own array's length. *)
Definition averages (micHist echoHist : list F) : F * F :=
  let '(avgMicPower, avgEchoPower) :=
    fold_left
      (fun '(am, ae) i => ((am + ta_get micHist i)%num, (ae + ta_get echoHist i)%num))
      (seqZ 0 (Z.of_nat (length micHist))) (of_Z 0, of_Z 0) in
  ((avgMicPower / of_Z (Z.of_nat (length micHist)))%num,
   (avgEchoPower / of_Z (Z.of_nat (length echoHist)))%num).

(** Step 5, the NLMS update with leakage [0.9999]; each of the two
    assignments to [adaptiveFilter[i]] is a store. *)
Definition adapt (s : t) (v : list F) (errorSignal : F) : list F :=
  let refPower :=
    (fold_left (fun p i => (p + ta_get v i * ta_get v i)%num)
               (seqZ 0 (filterLength s)) (of_Z 0)
     + regularization s)%num in
  let normalizedStepSize := (stepSize s / refPower)%num in
  fold_left
    (fun w i =>
       let w1 := ta_set w i (ta_get w i + normalizedStepSize * errorSignal * ta_get v i)%num in
       ta_set w1 i (ta_get w1 i * ratio 9999 10000)%num)
    (seqZ 0 (filterLength s)) (adaptiveFilter s).

(** Step 7, the noise gate followed by the soft limiter. *)
Definition postProcess (errorSignal systemPower : F) : F :=
  let noiseFloor := ratio 1 1000 in
  let processedSignal :=
    if ((abs errorSignal <? noiseFloor)%num && (systemPower >? ratio 1 1000000)%num)%bool
    then (errorSignal * ratio 1 10)%num else errorSignal in
  let maxAmplitude := ratio 95 100 in
  if (abs processedSignal >? maxAmplitude)%num
  then (sign processedSignal * maxAmplitude)%num
  else processedSignal.

(** The double-talk decision of step 4, on the histories as updated by this
    sample. *)
Definition isDoubleTalk (s : t) (micHist echoHist : list F) (systemPower : F) : bool :=
  let '(avgMicPower, avgEchoPower) := averages micHist echoHist in
  (avgMicPower
   >? doubleTalkThreshold s
      * (avgEchoPower + systemPower + ratio 1 10000000000))%num.

Definition processSample (s : t) (micSample systemSample : F) : t * F :=
  let v := referenceVector s in
  let echo := estimatedEcho s v in
  let errorSignal := (micSample - echo)%num in
  let micPower := (micSample * micSample)%num in
  let echoPower := (echo * echo)%num in
  let systemPower := (systemSample * systemSample)%num in
  let micHist := ta_set (micPowerHistory s) (powerIndex s) micPower in
  let echoHist := ta_set (echoPowerHistory s) (powerIndex s) echoPower in
  let powerIndex' := Z.rem (powerIndex s + 1) (Z.of_nat (length (micPowerHistory s))) in
  let filter' :=
    if (negb (isDoubleTalk s micHist echoHist systemPower)
        && (systemPower >? ratio 1 1000000)%num)%bool
    then adapt s v errorSignal
    else adaptiveFilter s in
  ({| systemAudioBuffer := systemAudioBuffer s; bufferIndex := bufferIndex s;
      filterLength := filterLength s; adaptiveFilter := filter';
      stepSize := stepSize s; regularization := regularization s;
      micPowerHistory := micHist; echoPowerHistory := echoHist;
      powerIndex := powerIndex'; doubleTalkThreshold := doubleTalkThreshold s |},
   postProcess errorSignal systemPower).
End Defs.
Arguments t F : clear implicits.
End Worklet.

(** ** Vocabulary of the statements *)

(** The power [x^n] by repeated multiplication. *)
Fixpoint npow {F : Type} {N : Number F} (x : F) (n : nat) : F :=
  match n with
  | O => of_Z 1
  | S k => (x * npow x k)%num
  end.

(** [process] as a recursion over the samples of a block: the state after
    the block and the error samples as the output array holds them. *)
Fixpoint run {F : Type} {N : Number F} (c : NLMS.Config F) (a : bool)
    (s : NLMS.t F) (samples : list (F * F)) : NLMS.t F * list F :=
  match samples with
  | [] => (s, [])
  | rm :: rest =>
      let '(s', e) := NLMS.process_step c a s (fst rm) (snd rm) in
      let '(s'', es) := run c a s' rest in
      (s'', fround e :: es)
  end.

(** The samples [process] reads: one pair per reference sample. *)
Definition samples_of {F : Type} {N : Number F} (ref mic : list F) : list (F * F) :=
  (fun i => (ta_get ref i, ta_get mic i)) <$> seqZ 0 (Z.of_nat (length ref)).

(** Sums and inner products of real vectors. *)
Definition Rsum (l : list R) : R := foldr Rplus 0%R l.

Definition dot (w x : list R) : R := Rsum (zip_with Rmult w x).

(** An array of zeros. *)
Definition silent (a : list R) : Prop := Forall (fun x => x = 0%R) a.



(** Concrete inputs the statements are replayed on. *)

(** A two-tap processor in the middle of a run, in real arithmetic. *)
Definition two_tap_config : NLMS.Config R :=
  {| NLMS.filterLength := 2; NLMS.stepSize := (1 / 10)%R;
     NLMS.regularization := (1 / 1000000)%R;
     NLMS.leakageFactor := (99999 / 100000)%R |}.

Definition two_tap_state : NLMS.t R :=
  {| NLMS.weights := [1; 2]%R; NLMS.delayLine := [3; 4]%R;
     NLMS.powerEstimate := 1%R; NLMS.writeIndex := 1 |}.

(** A system around [two_tap_state] with a silent reference history. *)
Definition two_tap_system_config : System.Config R :=
  {| System.nlmsConfig := two_tap_config;
     System.doubleTalkConfig := DTD.defaultConfig |}.

Definition two_tap_silent_system : System.t R :=
  {| System.nlmsProcessor :=
       {| NLMS.weights := [1; 2]%R; NLMS.delayLine := [0; 0]%R;
          NLMS.powerEstimate := 1%R; NLMS.writeIndex := 1 |};
     System.doubleTalkDetector := DTD.create DTD.defaultConfig |}.

(** A processor that has adapted on one sample ([ref = mic = 1]) from the
    constructor's state, with the default configuration. *)
Definition adapted_once : NLMS.t float :=
  fst (NLMS.process NLMS.defaultConfig
         (NLMS.initializeFilter NLMS.defaultConfig) [1%float] [1%float] true).



(** 128-sample blocks: a far-end tone at amplitude 0.5, and a near-end
    signal four times as loud. *)
Definition far_block : list float := concat (replicate 64 [0.5; -0.5]%float).

Definition loud_near_block : list float := concat (replicate 64 [2; -2]%float).

(** One more block of pure echo (microphone equal to the reference) through
    the default detector. *)
Definition echo_block (d : DTD.t float) : DTD.t float :=
  fst (DTD.process DTD.defaultConfig d far_block far_block).

(** The default detector after one double-talk block: loud near end over
    the far-end tone. *)
Definition after_double_talk : DTD.t float :=
  fst (DTD.process DTD.defaultConfig (DTD.create DTD.defaultConfig)
         loud_near_block far_block).

(** ** Numbers as array offsets *)

(** [x & mask] applies ToInt32 to the number [x]: NaN and the infinities
    give 0, any other value is truncated towards zero and then wrapped into
    32 bits, which [js_and] does.  [truncate] is the truncation. *)
Class Truncate (F : Type) := truncate : F -> Z.

Definition truncate64 (x : float) : Z :=
  match Prim2SF x with
  | S754_finite s m e =>
      let a := if (0 <=? e)%Z then (Zpos m * 2 ^ e)%Z
               else (Zpos m / 2 ^ (- e))%Z in
      if s then (- a)%Z else a
  | _ => 0%Z
  end.

Definition Rtruncate (x : R) : Z :=
  if Ideal.Rltb x 0 then (- Int_part (- x))%Z else Int_part x.

#[global] Instance truncate_float : Truncate float := truncate64.

#[global] Instance truncate_real : Truncate R := Rtruncate.

(** ** The real-time processor as an object (real-time-processor.ts) *)

(** [RealTimeProcessor]: its fields, constructor and the private
    [processBlock], which threads the blocks through the two circular
    buffers, the delay estimator, the detector, the filter and the residual
    suppressor of the modules above.  The metrics and the time stamp of the
    returned block read the clock and [Math.log10] and are left out; the
    audio graph around [processBlock] is not part of the model. *)
Module Pipeline.
Section Defs.
Context {F : Type} {N : Number F} {T : Truncate F}.

Record Config := {
  blockSize : Z;
  nlmsConfig : NLMS.Config F;
  doubleTalkConfig : DTD.Config F
}.

Definition defaultConfig : Config :=
  {| blockSize := 128; nlmsConfig := NLMS.defaultConfig;
     doubleTalkConfig := DTD.defaultConfig |}.

Record t := {
  nlmsProcessor : NLMS.t F;
  doubleTalkDetector : DTD.t F;
  micBuffer : CircularBuffer.t F;
  sysBuffer : CircularBuffer.t F;
  outputBuffer : CircularBuffer.t F;
  estimatedDelay : F
}.

Definition create (c : Config) : t :=
  let bufferSize := (blockSize c * 4)%Z in
  {| nlmsProcessor := NLMS.initializeFilter (nlmsConfig c);
     doubleTalkDetector := DTD.create (doubleTalkConfig c);
     micBuffer := CircularBuffer.create bufferSize;
     sysBuffer := CircularBuffer.create bufferSize;
     outputBuffer := CircularBuffer.create bufferSize;
     estimatedDelay := of_Z 0 |}.

(** [CircularBuffer.read] with the delay as the number the caller passes:
    [(this.writeIndex - 1 - delay) & this.mask]. *)
Definition read (b : CircularBuffer.t F) (delay : F) : F :=
  let index :=
    js_and (truncate (of_Z (CircularBuffer.writeIndex b - 1) - delay)%num)
           (CircularBuffer.mask b) in
  ta_get (CircularBuffer.buffer b) index.

(** [CircularBuffer.readBlock]: [output[i] = this.read(delay + i)]. *)
Definition readBlock (b : CircularBuffer.t F) (output : list F) (delay : F)
    : list F :=
  fold_left (fun out i => ta_set out i (read b (delay + of_Z i)%num))
            (seqZ 0 (Z.of_nat (length output))) output.

(** The returned block: [cleanMicrophone] and [cleanSystemAudio]. *)
Definition processBlock (c : Config) (s : t) (micBlock sysBlock : list F)
    : t * (list F * list F) :=
  let micBuffer' := CircularBuffer.writeBlock (micBuffer s) micBlock in
  let sysBuffer' := CircularBuffer.writeBlock (sysBuffer s) sysBlock in
  (* this.estimatedDelay = this.estimateDelay(micBlock, sysBlock) *)
  let estimatedDelay' :=
    snd (RealTimeProcessor.estimateDelay (estimatedDelay s) micBlock sysBlock) in
  let alignedMic :=
    readBlock micBuffer' (ta_new (Z.of_nat (length micBlock))) (of_Z 0) in
  let alignedSys :=
    readBlock sysBuffer' (ta_new (Z.of_nat (length sysBlock))) estimatedDelay' in
  let '(detector', adaptationEnabled) :=
    DTD.process (doubleTalkConfig c) (doubleTalkDetector s) alignedMic alignedSys in
  let '(nlms', cleanMic) :=
    NLMS.process (nlmsConfig c) (nlmsProcessor s) alignedSys alignedMic
      adaptationEnabled in
  let finalCleanMic :=
    RealTimeProcessor.applyResidualSuppression cleanMic alignedSys in
  ({| nlmsProcessor := nlms'; doubleTalkDetector := detector';
      micBuffer := micBuffer'; sysBuffer := sysBuffer';
      outputBuffer := outputBuffer s; estimatedDelay := estimatedDelay' |},
   (finalCleanMic, alignedSys)).
End Defs.
Arguments Config F : clear implicits.
Arguments t F : clear implicits.
End Pipeline.

(** ** The worklet's block callback (audio-worklet-processor.js)

    [EchoCancellationProcessor] around [processSample]: the microphone
    history, the processing switch and the sample counter, the messages of
    the port, [reset] and [process].  The ERLE sums feed [Math.log10] and
    the replies posted on the port are not part of the model. *)
Module Processor.
Inductive Message := Start | Stop | GetMetrics | Reset.

Section Defs.
Context {F : Type} {N : Number F}.

Record t := {
  core : Worklet.t F;
  microphoneBuffer : list F;
  isProcessing : bool;
  processedSamples : Z
}.

Definition create : t :=
  {| core := Worklet.create; microphoneBuffer := ta_new 8192;
     isProcessing := false; processedSamples := 0 |}.

(** [a.fill(0)] *)
Definition fill0 (a : list F) : list F := replicate (length a) (of_Z 0).

Definition reset (s : t) : t :=
  {| core :=
       {| Worklet.systemAudioBuffer := fill0 (Worklet.systemAudioBuffer (core s));
          Worklet.bufferIndex := 0;
          Worklet.filterLength := Worklet.filterLength (core s);
          Worklet.adaptiveFilter := fill0 (Worklet.adaptiveFilter (core s));
          Worklet.stepSize := Worklet.stepSize (core s);
          Worklet.regularization := Worklet.regularization (core s);
          Worklet.micPowerHistory := fill0 (Worklet.micPowerHistory (core s));
          Worklet.echoPowerHistory := fill0 (Worklet.echoPowerHistory (core s));
          Worklet.powerIndex := 0;
          Worklet.doubleTalkThreshold := Worklet.doubleTalkThreshold (core s) |};
     microphoneBuffer := fill0 (microphoneBuffer s);
     isProcessing := isProcessing s; processedSamples := 0 |}.

Definition handleMessage (s : t) (data : Message) : t :=
  match data with
  | Start =>
      {| core := core s; microphoneBuffer := microphoneBuffer s;
         isProcessing := true; processedSamples := processedSamples s |}
  | Stop =>
      {| core := core s; microphoneBuffer := microphoneBuffer s;
         isProcessing := false; processedSamples := processedSamples s |}
  | GetMetrics => s
  | Reset => reset s
  end.

(** [target.set(source)]: a RangeError, [None], when the source is longer
    than the target. *)
Definition set (target source : list F) : option (list F) :=
  if (length target <? length source)%nat then None
  else Some ((fround <$> source) ++ drop (length source) target).

(** The body of the sample loop of [process]. *)
Definition process_sample (microphoneInput systemAudioInput : list F)
    (acc : t * list F) (i : Z) : t * list F :=
  let '(s, output) := acc in
  let micSample := ta_get microphoneInput i in
  let systemSample := ta_get systemAudioInput i in
  let microphoneBuffer' :=
    ta_set (microphoneBuffer s) (Worklet.bufferIndex (core s)) micSample in
  let stored :=
    {| Worklet.systemAudioBuffer :=
         ta_set (Worklet.systemAudioBuffer (core s))
                (Worklet.bufferIndex (core s)) systemSample;
       Worklet.bufferIndex := Worklet.bufferIndex (core s);
       Worklet.filterLength := Worklet.filterLength (core s);
       Worklet.adaptiveFilter := Worklet.adaptiveFilter (core s);
       Worklet.stepSize := Worklet.stepSize (core s);
       Worklet.regularization := Worklet.regularization (core s);
       Worklet.micPowerHistory := Worklet.micPowerHistory (core s);
       Worklet.echoPowerHistory := Worklet.echoPowerHistory (core s);
       Worklet.powerIndex := Worklet.powerIndex (core s);
       Worklet.doubleTalkThreshold := Worklet.doubleTalkThreshold (core s) |} in
  let '(w, cleanSample) := Worklet.processSample stored micSample systemSample in
  ({| core :=
        {| Worklet.systemAudioBuffer := Worklet.systemAudioBuffer w;
           Worklet.bufferIndex :=
             Z.rem (Worklet.bufferIndex w + 1)
                   (Z.of_nat (length microphoneBuffer'));
           Worklet.filterLength := Worklet.filterLength w;
           Worklet.adaptiveFilter := Worklet.adaptiveFilter w;
           Worklet.stepSize := Worklet.stepSize w;
           Worklet.regularization := Worklet.regularization w;
           Worklet.micPowerHistory := Worklet.micPowerHistory w;
           Worklet.echoPowerHistory := Worklet.echoPowerHistory w;
           Worklet.powerIndex := Worklet.powerIndex w;
           Worklet.doubleTalkThreshold := Worklet.doubleTalkThreshold w |};
      microphoneBuffer := microphoneBuffer';
      isProcessing := isProcessing s;
      processedSamples := processedSamples s |},
   ta_set output i cleanSample).

(** [process(inputs, outputs)]: [input] is [inputs[0]], the list of the
    channels of the first input when there is one, and [output] is
    [outputs[0][0]] when it exists.  The result is the processor and the
    output channel after the call, or [None] for the RangeError of [set]. *)
Definition process (s : t) (input : option (list (list F)))
    (output : option (list F)) : option (t * option (list F)) :=
  if negb (isProcessing s) then
    match input, output with
    | Some (microphoneInput :: _), Some out =>
        match set out microphoneInput with
        | Some out' => Some (s, Some out')
        | None => None
        end
    | _, _ => Some (s, output)
    end
  else
    match input with
    | Some (microphoneInput :: systemAudioInput :: _) =>
        match output with
        | None => Some (s, None)
        | Some out =>
            let blockSize := Z.of_nat (length microphoneInput) in
            let '(s', out') :=
              fold_left (process_sample microphoneInput systemAudioInput)
                        (seqZ 0 blockSize) (s, out) in
            Some ({| core := core s'; microphoneBuffer := microphoneBuffer s';
                     isProcessing := isProcessing s';
                     processedSamples := (processedSamples s' + blockSize)%Z |},
                  Some out')
        end
    | _ => Some (s, fill0 <$> output)
    end.
End Defs.
Arguments t F : clear implicits.
End Processor.

(** ** The player's offline run (AudioPlayer.processRecordedAudio) *)
Module AudioPlayer.
Section Defs.
Context {F : Type} {N : Number F}.

(** [a.slice(start, end)] for [0 <= start <= end]; both ends are clamped to
    the length of [a]. *)
Definition slice (a : list F) (start stop : Z) : list F :=
  take (Z.to_nat (stop - start)) (drop (Z.to_nat start) a).

(** [target.set(source, offset)].  Every call below passes a source that
    fits the target at that offset, so the RangeError case does not
    arise. *)
Definition set_at (target source : list F) (offset : Z) : list F :=
  fold_left (fun t i => ta_set t (offset + i) (ta_get source i))
            (seqZ 0 (Z.of_nat (length source))) target.

(** The body of the block loop: the echo canceller and the output array
    after block [blockIndex]. *)
Definition process_block (mixed_signal clean_system : list F)
    (acc : System.t F * list F) (blockIndex : Z) : System.t F * list F :=
  let '(echoCanceller, processedAudio) := acc in
  let blockSize := 128%Z in
  let startIdx := (blockIndex * blockSize)%Z in
  let endIdx := Z.min (startIdx + blockSize) (Z.of_nat (length mixed_signal)) in
  let currentBlockSize := (endIdx - startIdx)%Z in
  let micBlock := slice mixed_signal startIdx endIdx in
  let refBlock := slice clean_system startIdx endIdx in
  let micPadded := set_at (ta_new blockSize) micBlock 0 in
  let refPadded := set_at (ta_new blockSize) refBlock 0 in
  let '(echoCanceller', processedBlock) :=
    System.processBlock System.defaultConfig echoCanceller micPadded refPadded in
  (echoCanceller',
   set_at processedAudio (slice processedBlock 0 currentBlockSize) startIdx).

(** The processed signal of the returned comparison; its metrics use
    [Math.log10] and are not part of the model.  [numBlocks] is
    [Math.ceil(length / blockSize)]. *)
Definition processRecordedAudio (mixed_signal clean_system : list F) : list F :=
  let blockSize := 128%Z in
  let len := Z.of_nat (length mixed_signal) in
  let numBlocks := ((len + blockSize - 1) / blockSize)%Z in
  snd (fold_left (process_block mixed_signal clean_system)
                 (seqZ 0 numBlocks)
                 (System.create System.defaultConfig, ta_new len)).
End Defs.
End AudioPlayer.

(** A real-time processor over [two_tap_config], with blocks of two
    samples and buffers of eight. *)
Definition two_tap_pipeline_config : Pipeline.Config R :=
  {| Pipeline.blockSize := 2; Pipeline.nlmsConfig := two_tap_config;
     Pipeline.doubleTalkConfig := DTD.defaultConfig |}.

Definition two_tap_pipeline : Pipeline.t R :=
  Pipeline.create two_tap_pipeline_config.

(** A system that has heard no far end yet: the detector is idle with a
    far-end power estimate of at most 1e-6, and the filter is in shape with
    a silent delay line and a non-negative power estimate. *)
Definition near_end_ready (c : System.Config R) (s : System.t R) : Prop :=
  NLMS.wf (System.nlmsConfig c) (System.nlmsProcessor s)
  /\ silent (NLMS.delayLine (System.nlmsProcessor s))
  /\ (0 <= NLMS.powerEstimate (System.nlmsProcessor s))%R
  /\ DTD.state (System.doubleTalkDetector s) = DTD.IDLE
  /\ (0 <= DTD.farEndPower (System.doubleTalkDetector s) <= 1 / 1000000)%R.

(** A worklet processor whose arrays have the shape the constructor gives
    them: one filter coefficient per tap, a system-audio history at least as
    long as the filter with the buffer index inside, two power histories
    of one length with the power index inside, and a microphone history as
    long as the system-audio history; the regularization is positive. *)
Definition worklet_ready (w : Worklet.t R) : Prop :=
  Z.of_nat (length (Worklet.adaptiveFilter w)) = Worklet.filterLength w
  /\ (Worklet.filterLength w
      <= Z.of_nat (length (Worklet.systemAudioBuffer w)))%Z
  /\ (0 <= Worklet.bufferIndex w
      < Z.of_nat (length (Worklet.systemAudioBuffer w)))%Z
  /\ length (Worklet.echoPowerHistory w) = length (Worklet.micPowerHistory w)
  /\ (0 <= Worklet.powerIndex w
      < Z.of_nat (length (Worklet.micPowerHistory w)))%Z
  /\ (0 < Worklet.regularization w)%R.

Definition processor_ready (s : Processor.t R) : Prop :=
  worklet_ready (Processor.core s)
  /\ length (Processor.microphoneBuffer s)
     = length (Worklet.systemAudioBuffer (Processor.core s)).

(** * Properties *)

Arguments NLMS.process_step : simpl never.
Arguments NLMS.updateWeights : simpl never.
Arguments NLMS.calculateFilterOutput : simpl never.

(** ** Loops and typed arrays *)
Section Loops.
Context {F : Type} {N : Number F}.

(** The rule for a counted loop [for (i = m; i < m + n; i++)]: an invariant
    indexed by the number of iterations done. *)
Lemma for_loop_from_ind {A : Type} (P : nat -> A -> Prop) (f : A -> Z -> A)
    (a : A) (m : Z) (n : nat) :
  P 0%nat a ->
  (forall k x, (k < n)%nat -> P k x -> P (S k) (f x (m + Z.of_nat k)%Z)) ->
  P n (fold_left f (seqZ m (Z.of_nat n)) a).
Proof.
  intros H0 Hstep. induction n as [|n IH].
  - exact H0.
  - rewrite seqZ_S, fold_left_app. simpl.
    apply Hstep; [lia|]. apply IH. intros k x Hk. apply Hstep. lia.
Qed.

Lemma for_loop_ind {A : Type} (P : nat -> A -> Prop) (f : A -> Z -> A) (a : A) (n : nat) :
  P 0%nat a ->
  (forall k x, (k < n)%nat -> P k x -> P (S k) (f x (Z.of_nat k))) ->
  P n (fold_left f (seqZ 0 (Z.of_nat n)) a).
Proof.
  intros H0 Hstep. apply for_loop_from_ind; [done|].
  intros k x Hk HP. rewrite Z.add_0_l. by apply Hstep.
Qed.

Lemma fold_left_inv {A B : Type} (P : A -> Prop) (f : A -> B -> A) (l : list B) (a : A) :
  P a -> (forall x b, P x -> P (f x b)) -> P (fold_left f l a).
Proof.
  intros Ha Hf. revert a Ha. induction l as [|b l IH]; simpl; auto.
Qed.

Lemma length_ta_set (a : list F) i x : length (ta_set a i x) = length a.
Proof. unfold ta_set. destruct (0 <=? i)%Z; [apply length_insert | done]. Qed.

Lemma length_ta_new n : length (ta_new (F:=F) n) = Z.to_nat n.
Proof. apply length_replicate. Qed.

Lemma ta_get_nat (a : list F) (k : nat) :
  ta_get a (Z.of_nat k) = default undefined (a !! k).
Proof.
  unfold ta_get. destruct (Z.leb_spec 0 (Z.of_nat k)); [|lia].
  by rewrite Nat2Z.id.
Qed.

Lemma ta_set_nat (a : list F) (k : nat) x :
  ta_set a (Z.of_nat k) x = <[k := fround x]> a.
Proof.
  unfold ta_set. destruct (Z.leb_spec 0 (Z.of_nat k)); [|lia].
  by rewrite Nat2Z.id.
Qed.

Lemma ta_get_set_eq (a : list F) i x :
  (0 <= i < Z.of_nat (length a))%Z -> ta_get (ta_set a i x) i = fround x.
Proof.
  intros [H0 H1]. unfold ta_get, ta_set.
  destruct (Z.leb_spec 0 i); [|lia].
  rewrite list_lookup_insert_eq; [done | lia].
Qed.

Lemma ta_get_set_ne (a : list F) i j x :
  i <> j -> ta_get (ta_set a i x) j = ta_get a j.
Proof.
  intros Hne. unfold ta_get, ta_set.
  destruct (Z.leb_spec 0 i); [|done]. destruct (Z.leb_spec 0 j); [|done].
  rewrite list_lookup_insert_ne; [done | lia].
Qed.

(** A loop that rewrites element [i] of an array from its index and its
    old value: the state after the first [n] iterations. *)
Lemma update_loop_prefix (g : Z -> F -> F) (w : list F) (n : nat) :
  (n <= length w)%nat ->
  let r := fold_left (fun w i => ta_set w i (g i (ta_get w i)))
                     (seqZ 0 (Z.of_nat n)) w in
  length r = length w /\
  forall j, r !! j = if decide (j < n)%nat
                     then (fun x => fround (g (Z.of_nat j) x)) <$> (w !! j)
                     else w !! j.
Proof.
  intros Hn r. subst r.
  set (P := fun (k : nat) (a : list F) =>
              length a = length w /\
              forall j, a !! j = if decide (j < k)%nat
                                 then (fun x => fround (g (Z.of_nat j) x)) <$> (w !! j)
                                 else w !! j).
  apply (for_loop_ind P); subst P; simpl.
  - split; [done|]. intros j. destruct (decide (j < 0)%nat); [lia|done].
  - intros k a Hk [Hlen Hj]. rewrite ta_set_nat, ta_get_nat.
    split; [by rewrite length_insert|].
    intros j. destruct (decide (j = k)) as [->|Hne].
    + rewrite list_lookup_insert_eq by lia.
      destruct (decide (k < S k)%nat); [|lia].
      rewrite Hj. destruct (decide (k < k)%nat); [lia|].
      destruct (lookup_lt_is_Some_2 w k) as [x Hx]; [lia|]. by rewrite Hx.
    + rewrite list_lookup_insert_ne by done. rewrite Hj.
      destruct (decide (j < k)%nat), (decide (j < S k)%nat); try done; lia.
Qed.

(** The whole loop, over every index of the array. *)
Lemma update_loop (g : Z -> F -> F) (w : list F) :
  fold_left (fun w i => ta_set w i (g i (ta_get w i)))
            (seqZ 0 (Z.of_nat (length w))) w
  = imap (fun i x => fround (g (Z.of_nat i) x)) w.
Proof.
  destruct (update_loop_prefix g w (length w)) as [Hlen Hj]; [done|].
  apply list_eq. intros j. rewrite Hj, list_lookup_imap.
  destruct (decide (j < length w)%nat) as [|Hge]; [done|].
  rewrite (lookup_ge_None_2 w j) by lia. done.
Qed.

(** The same loop when the new value ignores the old one. *)
Lemma fill_loop (g : Z -> F) (out : list F) :
  fold_left (fun o i => ta_set o i (g i)) (seqZ 0 (Z.of_nat (length out))) out
  = (fun i => fround (g i)) <$> seqZ 0 (Z.of_nat (length out)).
Proof.
  rewrite (update_loop (fun i _ => g i) out).
  apply list_eq. intros j. rewrite list_lookup_imap, list_lookup_fmap.
  destruct (decide (j < length out)%nat) as [Hlt|Hge].
  - rewrite lookup_seqZ_lt by lia.
    destruct (lookup_lt_is_Some_2 out j) as [x Hx]; [lia|]. by rewrite Hx.
  - rewrite lookup_seqZ_ge by lia. by rewrite lookup_ge_None_2 by lia.
Qed.
End Loops.

(** ** The delay line *)
Section DelayLine.
Context {F : Type} {N : Number F}.
Import CircularBuffer.

Lemma to_int32_id z : (- 2 ^ 31 <= z < 2 ^ 31)%Z -> to_int32 z = z.
Proof.
  intros Hz. unfold to_int32.
  rewrite Z.mod_small; lia.
Qed.

(** Under [wf], [x & mask] is [x mod size], also for a negative [x]. *)
Lemma js_and_mask p x :
  (0 <= p <= 30)%Z -> (- 2 ^ 31 <= x < 2 ^ 31)%Z ->
  js_and x (2 ^ p - 1) = (x mod 2 ^ p)%Z.
Proof.
  intros Hp Hx. unfold js_and.
  assert (2 ^ p <= 2 ^ 30)%Z by (apply Z.pow_le_mono_r; lia).
  assert (0 < 2 ^ p)%Z by (apply Z.pow_pos_nonneg; lia).
  rewrite (to_int32_id x) by done.
  rewrite (to_int32_id (2 ^ p - 1)) by lia.
  replace (2 ^ p - 1)%Z with (Z.ones p) by (rewrite Z.ones_equiv; lia).
  apply Z.land_ones. lia.
Qed.

Lemma nextPowerOfTwo_loop_spec fuel k n :
  (0 <= k)%Z -> (n <= 2 ^ k + Z.of_nat fuel)%Z ->
  exists p, (k <= p)%Z /\ nextPowerOfTwo_loop fuel (2 ^ k) n = (2 ^ p)%Z /\
            (n <= 2 ^ p)%Z /\ ((2 ^ p < 2 * n)%Z \/ p = k).
Proof.
  revert k. induction fuel as [|fuel IH]; intros k Hk Hn; simpl.
  - exists k. repeat split; lia.
  - destruct (Z.ltb_spec (2 ^ k) n) as [Hlt|Hge].
    + assert (2 ^ (k + 1) = 2 ^ k * 2)%Z as Hp by (rewrite Z.pow_add_r; lia).
      rewrite <- Hp.
      assert (0 < 2 ^ k)%Z by (apply Z.pow_pos_nonneg; lia).
      destruct (IH (k + 1)%Z) as (p & Hkp & Heq & Hle & Hor); [lia|lia|].
      exists p. repeat split; try lia.
      destruct Hor as [?| ->]; left; lia.
    + exists k. repeat split; lia.
Qed.

(** The constructor's loop terminates within its fuel and yields the least
    power of two that is at least [n]. *)
Lemma nextPowerOfTwo_spec n :
  exists p, (0 <= p)%Z /\ nextPowerOfTwo n = (2 ^ p)%Z /\ (n <= 2 ^ p)%Z /\
            ((2 ^ p < 2 * n)%Z \/ p = 0%Z).
Proof.
  unfold nextPowerOfTwo.
  destruct (nextPowerOfTwo_loop_spec (Z.to_nat n) 0 n) as (p & ? & ? & ? & ?);
    [lia | simpl; lia |].
  exists p. auto.
Qed.

Lemma wf_create (size0 : Z) :
  (size0 <= 2 ^ 30)%Z -> wf (create (F:=F) size0).
Proof.
  intros Hs. unfold create.
  destruct (nextPowerOfTwo_spec size0) as (p & Hp & Heq & Hle & Hor).
  rewrite Heq. exists p. simpl.
  assert (0 < 2 ^ p)%Z by (apply Z.pow_pos_nonneg; lia).
  assert (p <= 30)%Z.
  { destruct Hor as [Hlt| ->]; [|lia].
    destruct (Z.le_gt_cases p 30) as [|Hgt]; [done|].
    assert (2 ^ 31 <= 2 ^ p)%Z by (apply Z.pow_le_mono_r; lia).
    assert (2 ^ 31 = 2 * 2 ^ 30)%Z by done. lia. }
  repeat split; try lia.
  rewrite length_ta_new. lia.
Qed.

Lemma wf_write (b : t F) x : wf b -> wf (write b x).
Proof.
  intros (p & Hp & Hsz & Hmask & Hlen & Hwi). exists p.
  assert (2 ^ p <= 2 ^ 30)%Z by (apply Z.pow_le_mono_r; lia).
  assert (0 < 2 ^ p)%Z by (apply Z.pow_pos_nonneg; lia).
  unfold write; simpl. rewrite length_ta_set.
  assert (js_and (writeIndex b + 1) (mask b) = ((writeIndex b + 1) mod 2 ^ p)%Z) as ->
    by (rewrite Hmask, Hsz; apply js_and_mask; lia).
  pose proof (Z.mod_pos_bound (writeIndex b + 1) (2 ^ p)).
  repeat split; try done; lia.
Qed.

Lemma wf_writeBlock (b : t F) xs : wf b -> wf (writeBlock b xs).
Proof.
  intros Hb. unfold writeBlock. apply fold_left_inv; [done|].
  intros; by apply wf_write.
Qed.

Lemma js_and_wf (b : t F) x :
  wf b -> (- 2 ^ 31 <= x < 2 ^ 31)%Z ->
  js_and x (mask b) = (x mod size b)%Z /\
  (0 <= x mod size b < size b)%Z /\ (size b <= 2 ^ 30)%Z.
Proof.
  intros (p & Hp & Hsz & Hmask & Hlen & Hwi) Hx.
  assert (2 ^ p <= 2 ^ 30)%Z by (apply Z.pow_le_mono_r; lia).
  rewrite Hmask, Hsz. split; [by apply js_and_mask|].
  split; [apply Z.mod_pos_bound|]; lia.
Qed.

(** The sample just written is at delay 0. *)
Lemma read_write_0 (b : t F) x : wf b -> read (write b x) 0 = fround x.
Proof.
  intros Hb. pose proof Hb as (p & Hp & Hsz & Hmask & Hlen & Hwi).
  assert (2 ^ p <= 2 ^ 30)%Z by (apply Z.pow_le_mono_r; lia).
  unfold read, write; simpl.
  destruct (js_and_wf b (writeIndex b + 1)) as (-> & Hm & _); [done|lia|].
  destruct (js_and_wf b ((writeIndex b + 1) mod size b - 1 - 0)) as (-> & _ & _);
    [done|lia|].
  replace ((writeIndex b + 1) mod size b - 1 - 0)%Z
    with ((writeIndex b + 1) mod size b - 1)%Z by lia.
  rewrite Zminus_mod_idemp_l.
  replace (writeIndex b + 1 - 1)%Z with (writeIndex b) by lia.
  rewrite Z.mod_small by lia.
  apply ta_get_set_eq. lia.
Qed.

(** Every older sample moves one position back. *)
Lemma read_write_S (b : t F) x j :
  wf b -> (0 <= j)%Z -> (j + 1 < size b)%Z ->
  read (write b x) (j + 1) = read b j.
Proof.
  intros Hb Hj Hj1. pose proof Hb as (p & Hp & Hsz & Hmask & Hlen & Hwi).
  assert (2 ^ p <= 2 ^ 30)%Z by (apply Z.pow_le_mono_r; lia).
  unfold read, write; simpl.
  destruct (js_and_wf b (writeIndex b + 1)) as (-> & Hm & _); [done|lia|].
  destruct (js_and_wf b ((writeIndex b + 1) mod size b - 1 - (j + 1)))
    as (-> & _ & _); [done|lia|].
  destruct (js_and_wf b (writeIndex b - 1 - j)) as (-> & Hr & _); [done|lia|].
  assert (((writeIndex b + 1) mod size b - 1 - (j + 1)) mod size b
          = (writeIndex b - 1 - j) mod size b)%Z as ->.
  { replace ((writeIndex b + 1) mod size b - 1 - (j + 1))%Z
      with ((writeIndex b + 1) mod size b - (j + 2))%Z by lia.
    rewrite Zminus_mod_idemp_l. f_equal. lia. }
  apply ta_get_set_ne.
  intros Heq.
  destruct (Z.le_gt_cases (j + 1) (writeIndex b)).
  - rewrite (Z.mod_small (writeIndex b - 1 - j)) in Heq by lia. lia.
  - replace (writeIndex b - 1 - j)%Z
      with ((writeIndex b - 1 - j + size b) + (-1) * size b)%Z in Heq by lia.
    rewrite Z.mod_add in Heq by lia.
    rewrite Z.mod_small in Heq by lia. lia.
Qed.

Lemma writeBlock_app (b : t F) xs ys :
  writeBlock b (xs ++ ys) = writeBlock (writeBlock b xs) ys.
Proof. apply fold_left_app. Qed.

(** Samples written before a block are found behind it. *)
Lemma read_writeBlock_old (b : t F) xs (j : nat) :
  wf b -> (length xs <= j)%nat -> (Z.of_nat j < size b)%Z ->
  read (writeBlock b xs) (Z.of_nat j) = read b (Z.of_nat (j - length xs)).
Proof.
  revert b j. induction xs as [|x xs IH]; intros b j Hb Hlen Hj; simpl in *.
  - by rewrite Nat.sub_0_r.
  - change (fold_left write xs (write b x)) with (writeBlock (write b x) xs).
    rewrite IH; [|by apply wf_write|lia|done].
    replace (Z.of_nat (j - length xs)) with (Z.of_nat (j - S (length xs)) + 1)%Z by lia.
    apply read_write_S; [done|lia|lia].
Qed.

(** The [j]-th most recent sample of a block is at delay [j]. *)
Lemma read_writeBlock (b : t F) xs (j : nat) x :
  wf b -> (Z.of_nat j < size b)%Z -> rev xs !! j = Some x ->
  read (writeBlock b xs) (Z.of_nat j) = fround x.
Proof.
  revert b j. induction xs as [|y xs IH]; intros b j Hb Hj Hx; simpl in *.
  - done.
  - change (fold_left write xs (write b y)) with (writeBlock (write b y) xs).
    destruct (decide (j < length xs)%nat) as [Hlt|Hge].
    + rewrite lookup_app_l in Hx by (rewrite length_rev; lia).
      apply IH; [by apply wf_write|done|done].
    + rewrite lookup_app_r in Hx by (rewrite length_rev; lia).
      rewrite length_rev in Hx.
      destruct (j - length xs)%nat as [|k] eqn:Hk; [|done].
      simpl in Hx. injection Hx as <-.
      rewrite read_writeBlock_old; [|by apply wf_write|lia|done].
      rewrite Hk. simpl. apply read_write_0. done.
Qed.

Lemma length_readBlock (b : t F) out k : length (readBlock b out k) = length out.
Proof.
  unfold readBlock. apply fold_left_inv; [done|].
  intros a i Ha. by rewrite length_ta_set.
Qed.

Lemma readBlock_reads (b : t F) out k :
  readBlock b out k
  = (fun i => fround (read b (k + i))) <$> seqZ 0 (Z.of_nat (length out)).
Proof. unfold readBlock. apply (fill_loop (fun i => read b (k + i))). Qed.
End DelayLine.

Section DelayLineRoundTrip.
Context {F : Type} {N : Number F}.
Import CircularBuffer.

End DelayLineRoundTrip.


(** ** The NLMS filter: what depends on the control flow only *)
Section NlmsControl.
Context {F : Type} {N : Number F}.
Import NLMS.

Lemma process_step_store c a (s : t F) r m :
  process_step c a s r m
  = let s1 := store s r in
    let e := (m - calculateFilterOutput c s1)%num in
    let s2 := if a then updateWeights c s1 e else s1 in
    ({| weights := weights s2; delayLine := delayLine s2;
        powerEstimate := powerEstimate s2;
        writeIndex := Z.rem (writeIndex s2 + 1) (filterLength c) |}, e).
Proof. reflexivity. Qed.

(** A sample processed with the flag off leaves weights and power estimate
    alone. *)
Lemma process_step_frozen c (s : t F) r m :
  weights (fst (process_step c false s r m)) = weights s /\
  powerEstimate (fst (process_step c false s r m)) = powerEstimate s.
Proof. done. Qed.

(** The loop of [process] as a loop over the state alone. *)
Lemma process_state_inv (P : t F -> Prop) c (s : t F) ref mic a :
  P s -> (forall s r m, P s -> P (fst (process_step c a s r m))) ->
  P (fst (process c s ref mic a)).
Proof.
  intros Hs Hstep. unfold process.
  apply (fold_left_inv (fun acc : t F * list F => P (fst acc))); [done|].
  intros [s' out] i Hs'. simpl in *.
  specialize (Hstep s' (ta_get ref i) (ta_get mic i) Hs').
  destruct (process_step c a s' (ta_get ref i) (ta_get mic i)). done.
Qed.

Lemma process_frozen c (s : t F) ref mic :
  weights (fst (process c s ref mic false)) = weights s.
Proof.
  apply (process_state_inv (fun s' => weights s' = weights s)); [done|].
  intros s' r m Hs'. by rewrite (proj1 (process_step_frozen c s' r m)).
Qed.

Lemma processBlocks_frozen c (s : t F) blocks :
  weights (processBlocks c s blocks false) = weights s.
Proof.
  unfold processBlocks.
  apply (fold_left_inv (fun s' : t F => weights s' = weights s)); [done|].
  intros s' b Hs'. by rewrite process_frozen.
Qed.

(** C1 (adaptation gate), as the code has it.  In [NLMSProcessor.process]
    the weights are updated on a sample exactly when the caller's flag is
    true: with the flag off the weights are left untouched, sample by
    sample and over a whole block, and with the flag on [updateWeights] is
    applied whatever the far-end power of the sample is.  The far-end power
    test [systemPower > 1e-6] exists only in the AudioWorklet
    [processSample], where it is joined to that processor's own
    double-talk test rather than to a caller's flag. *)
Theorem adaptation_gate c (s : t F) r m ref mic (w : Worklet.t F) micSample systemSample :
  weights (fst (process_step c false s r m)) = weights s
  /\ weights (fst (process c s ref mic false)) = weights s
  /\ weights (fst (process_step c true s r m))
     = weights (updateWeights c (store s r)
                  (m - calculateFilterOutput c (store s r))%num)
  /\ Worklet.adaptiveFilter (fst (Worklet.processSample w micSample systemSample))
     = let systemPower := (systemSample * systemSample)%num in
       let echo := Worklet.estimatedEcho w (Worklet.referenceVector w) in
       let micHist := ta_set (Worklet.micPowerHistory w) (Worklet.powerIndex w)
                        (micSample * micSample)%num in
       let echoHist := ta_set (Worklet.echoPowerHistory w) (Worklet.powerIndex w)
                         (echo * echo)%num in
       if (negb (Worklet.isDoubleTalk w micHist echoHist systemPower)
           && (systemPower >? ratio 1 1000000)%num)%bool
       then Worklet.adapt w (Worklet.referenceVector w) (micSample - echo)%num
       else Worklet.adaptiveFilter w.
Proof.
  split; [apply process_step_frozen|].
  split; [apply process_frozen|].
  split; reflexivity.
Qed.

(** C4 (leakage with adaptation off), as the code has it.  Blocks processed
    with adaptation disabled leave the weight vector exactly as it was, so
    its norm is unchanged: the leakage factor is applied inside
    [updateWeights] only, that is on adapting samples. *)
Theorem frozen_blocks_keep_weights c (s : t F) (blocks : list (list F * list F)) :
  weights (processBlocks c s blocks false) = weights s
  /\ filterNorm (processBlocks c s blocks false) = filterNorm s.
Proof.
  pose proof (processBlocks_frozen c s blocks) as H.
  split; [done|]. unfold filterNorm. by rewrite H.
Qed.
End NlmsControl.

(** ** Replaying runs on IEEE-754 numbers *)

(** Two floats that differ under [=?] are different. *)
Lemma float_neq (x y : float) : PrimFloat.eqb x y = false -> PrimFloat.eqb x x = true -> x <> y.
Proof. intros Hxy Hxx ->. congruence. Qed.

Section IeeeRuns.
Open Scope float_scope.

(** C1 as stated fails: a silent reference sample (far-end power 0, not
    above 1e-6) processed with the flag on still changes the weights. *)
Lemma adaptation_gate_counterexample :
  let st := fst (NLMS.process_step NLMS.defaultConfig true adapted_once 0 0) in
  ((0 * 0 >? ratio 1 1000000)%num = false)
  /\ NLMS.weights st <> NLMS.weights adapted_once.
Proof.
  split; [vm_compute; reflexivity|].
  intros H. apply (f_equal (fun l => hd 0 l)) in H. revert H.
  apply float_neq; vm_compute; reflexivity.
Qed.

(** C4 as stated fails: one block of one sample with adaptation off keeps
    the norm, which is then above [norm * leakage^(1*1)]. *)
Lemma frozen_blocks_counterexample :
  let c := NLMS.defaultConfig in
  let st := NLMS.processBlocks c adapted_once [([0], [0])] false in
  (NLMS.filterNorm st
   <=? NLMS.filterNorm adapted_once * npow (NLMS.leakageFactor c) (1 * 1))%num
  = false.
Proof. vm_compute. reflexivity. Qed.
End IeeeRuns.

(** ** [process] block by block and sample by sample *)
Section NlmsRun.
Context {F : Type} {N : Number F}.
Import NLMS.

Lemma run_cons c a (s : t F) rm rest :
  run c a s (rm :: rest)
  = let '(s', e) := process_step c a s (fst rm) (snd rm) in
    let '(s'', es) := run c a s' rest in
    (s'', fround e :: es).
Proof. reflexivity. Qed.

Lemma run_app c a (s : t F) l1 l2 :
  run c a s (l1 ++ l2)
  = let '(s1, es1) := run c a s l1 in
    let '(s2, es2) := run c a s1 l2 in
    (s2, es1 ++ es2).
Proof.
  revert s. induction l1 as [|rm l1 IH]; intros s.
  - change ([] ++ l2) with l2. change (run c a s []) with (s, @nil F).
    cbv beta iota. by destruct (run c a s l2).
  - change ((rm :: l1) ++ l2) with (rm :: (l1 ++ l2)). rewrite !run_cons.
    destruct (process_step c a s (fst rm) (snd rm)) as [s' e].
    rewrite IH. destruct (run c a s' l1) as [s1 es1].
    by destruct (run c a s1 l2).
Qed.

Lemma length_run c a (s : t F) l : length (snd (run c a s l)) = length l.
Proof.
  revert s. induction l as [|rm l IH]; intros s; [done|].
  rewrite run_cons.
  destruct (process_step c a s (fst rm) (snd rm)) as [s' e].
  specialize (IH s'). destruct (run c a s' l). simpl in *. by rewrite IH.
Qed.

(** The loop of [process] computes [run] on the samples it reads. *)
Lemma process_run c (s : t F) ref mic a :
  process c s ref mic a = run c a s (samples_of ref mic).
Proof.
  unfold process, samples_of.
  set (n := length ref).
  set (body := fun '(s, output) i =>
     let '(s', errorSignal) :=
       process_step c a s (ta_get ref i) (ta_get mic i) in
     (s', ta_set output i errorSignal)).
  set (sample := fun i => (ta_get ref i, ta_get mic i)).
  set (P := fun (k : nat) (acc : t F * list F) =>
     (k <= n)%nat ->
     acc = (fst (run c a s (sample <$> seqZ 0 (Z.of_nat k))),
            snd (run c a s (sample <$> seqZ 0 (Z.of_nat k)))
              ++ replicate (n - k) (of_Z 0))).
  assert (P n (fold_left body (seqZ 0 (Z.of_nat n)) (s, ta_new (Z.of_nat n)))) as HP.
  { apply (for_loop_ind P); subst P; simpl.
    - intros _. unfold ta_new. by rewrite Nat2Z.id, Nat.sub_0_r.
    - intros k [sk outk] Hk IH Hk'. rewrite IH by lia. clear IH.
      subst body. cbv beta iota.
      rewrite seqZ_S, fmap_app, run_app.
      pose proof (length_run c a s (sample <$> seqZ 0 (Z.of_nat k))) as Hlen.
      rewrite length_fmap, length_seqZ, Nat2Z.id in Hlen.
      destruct (run c a s (sample <$> seqZ 0 (Z.of_nat k))) as [s1 es1].
      cbn [fst snd] in *. change (sample <$> [(0 + Z.of_nat k)%Z])
        with [sample (0 + Z.of_nat k)%Z]. rewrite run_cons.
      rewrite Z.add_0_l. subst sample. cbn [fst snd].
      destruct (process_step c a s1 (ta_get ref (Z.of_nat k)) (ta_get mic (Z.of_nat k)))
        as [s2 e]. change (run c a s2 []) with (s2, @nil F). cbn [fst snd].
      f_equal.
      rewrite ta_set_nat.
      replace (n - k)%nat with (S (n - S k)) by lia. simpl.
      rewrite insert_app_r_alt by lia.
      rewrite Hlen, Nat.sub_diag. simpl. by rewrite <- app_assoc. }
  subst P. simpl in HP. rewrite HP by lia.
  rewrite Nat.sub_diag. simpl. rewrite app_nil_r.
  by destruct (run c a s (sample <$> seqZ 0 (Z.of_nat n))).
Qed.

(** With as many microphone samples as reference samples, the samples read
    are the two blocks zipped. *)
Lemma samples_of_zip (ref mic : list F) :
  length mic = length ref -> samples_of ref mic = zip ref mic.
Proof.
  intros Hlen. unfold samples_of. apply list_eq. intros j.
  rewrite list_lookup_fmap.
  destruct (decide (j < length ref)%nat) as [Hj|Hj].
  - rewrite lookup_seqZ_lt by lia. simpl. rewrite Z.add_0_l, !ta_get_nat.
    destruct (lookup_lt_is_Some_2 ref j) as [x Hx]; [lia|].
    destruct (lookup_lt_is_Some_2 mic j) as [y Hy]; [lia|].
    rewrite Hx, Hy. simpl. symmetry. apply lookup_zip_with_Some.
    by exists x, y.
  - rewrite lookup_seqZ_ge by lia. simpl. symmetry.
    apply lookup_ge_None_2. rewrite length_zip_with. lia.
Qed.
End NlmsRun.

(** ** The reference vector and the two loops over it *)
Section NlmsVectors.
Context {F : Type} {N : Number F}.
Import NLMS.

Lemma length_refVector c (s : t F) :
  length (refVector c s) = Z.to_nat (filterLength c).
Proof. unfold refVector. by rewrite length_fmap, length_seqZ. Qed.

Lemma wf_store c (s : t F) r : wf c s -> wf c (store s r).
Proof.
  intros (HL & Hw & Hd & Hi). unfold wf, store; simpl.
  rewrite length_ta_set. done.
Qed.

Lemma delayIndex_0 c (s : t F) :
  (0 < filterLength c)%Z -> (0 <= writeIndex s < filterLength c)%Z ->
  delayIndex c s 0 = writeIndex s.
Proof.
  intros HL Hi. unfold delayIndex.
  rewrite Z.rem_mod_nonneg by lia.
  replace (writeIndex s - 0 + filterLength c)%Z
    with (writeIndex s + 1 * filterLength c)%Z by lia.
  rewrite Z.mod_add by lia. apply Z.mod_small. lia.
Qed.

(** x_n[0] is the reference sample of the current step. *)
Lemma refVector_head c (s : t F) r :
  wf c s -> refVector c (store s r) !! 0%nat = Some (fround r).
Proof.
  intros (HL & Hw & Hd & Hi). unfold refVector.
  rewrite list_lookup_fmap, lookup_seqZ_lt by lia. simpl.
  rewrite delayIndex_0 by done. simpl.
  f_equal. apply ta_get_set_eq. lia.
Qed.

(** The convolution loop pairs weight [i] with entry [i] of the reference
    vector, from index 0 upwards. *)
Lemma calculateFilterOutput_zip c (s : t F) :
  Z.of_nat (length (weights s)) = filterLength c ->
  calculateFilterOutput c s
  = fold_left (fun acc wx => (acc + fst wx * snd wx)%num)
              (zip (weights s) (refVector c s)) (of_Z 0).
Proof.
  intros Hw. unfold calculateFilterOutput, refVector.
  rewrite <- Hw.
  set (g := fun i => ta_get (delayLine s) (delayIndex c s i)).
  set (n := length (weights s)).
  set (P := fun (k : nat) (acc : F) =>
     (k <= n)%nat ->
     acc = fold_left (fun acc wx => (acc + fst wx * snd wx)%num)
             (zip (take k (weights s)) (g <$> seqZ 0 (Z.of_nat k))) (of_Z 0)).
  assert (P n (fold_left
                 (fun output i => (output + ta_get (weights s) i * g i)%num)
                 (seqZ 0 (Z.of_nat n)) (of_Z 0))) as HP.
  { apply (for_loop_ind P); subst P; simpl.
    - done.
    - intros k acc Hk IH Hk'. rewrite IH by lia. clear IH.
      destruct (lookup_lt_is_Some_2 (weights s) k) as [x Hx]; [done|].
      rewrite (take_S_r _ _ _ Hx), seqZ_S, fmap_app.
      rewrite zip_with_app by (rewrite length_take, length_fmap, length_seqZ; lia).
      rewrite fold_left_app. simpl. rewrite ta_get_nat, Hx. done. }
  subst P. simpl in HP. specialize (HP (Nat.le_refl n)). subst n.
  rewrite firstn_all in HP. exact HP.
Qed.

(** The update loop rewrites weight [i] from its old value and entry [i] of
    the reference vector. *)
Lemma updateWeights_zip c (s : t F) e :
  Z.of_nat (length (weights s)) = filterLength c ->
  let p := (ratio 95 100 * powerEstimate s
            + ratio 5 100 * ta_get (delayLine s) (writeIndex s)
              * ta_get (delayLine s) (writeIndex s))%num in
  let mu := (stepSize c / (p * of_Z (filterLength c) + regularization c))%num in
  weights (updateWeights c s e)
  = zip_with (fun w x => fround (leakageFactor c * w + mu * e * x)%num)
             (weights s) (refVector c s)
  /\ powerEstimate (updateWeights c s e) = p
  /\ delayLine (updateWeights c s e) = delayLine s
  /\ writeIndex (updateWeights c s e) = writeIndex s.
Proof.
  intros Hw p mu. repeat split.
  unfold updateWeights. cbn [weights]. fold p. fold mu.
  rewrite <- Hw.
  rewrite (update_loop
             (fun i w => (leakageFactor c * w
                          + mu * e * ta_get (delayLine s) (delayIndex c s i))%num)).
  apply list_eq. intros j. unfold refVector.
  rewrite list_lookup_imap, lookup_zip_with, list_lookup_fmap.
  destruct (weights s !! j) as [w|] eqn:Hj; simpl; [|done].
  apply lookup_lt_Some in Hj.
  rewrite lookup_seqZ_lt by lia. simpl. by rewrite Z.add_0_l.
Qed.

(** The shape invariant holds after construction and along every run. *)
Lemma wf_initializeFilter (c : Config F) :
  (0 < filterLength c)%Z -> wf c (initializeFilter c).
Proof.
  intros HL. unfold wf, initializeFilter. cbn [weights delayLine writeIndex].
  rewrite !length_ta_new. lia.
Qed.

Lemma wf_process_step c a (s : t F) r m :
  wf c s -> wf c (fst (process_step c a s r m)).
Proof.
  intros Hwf. pose proof (wf_store c s r Hwf) as (HL & Hw & Hd & Hi).
  rewrite process_step_store. cbv zeta. cbn [fst]. unfold wf.
  cbn [weights delayLine writeIndex].
  assert (0 <= Z.rem (writeIndex (store s r) + 1) (filterLength c) < filterLength c)%Z
    as Hrem.
  { rewrite Z.rem_mod_nonneg by lia. apply Z.mod_pos_bound. lia. }
  destruct a; [|done].
  destruct (updateWeights_zip c (store s r)
              (m - calculateFilterOutput c (store s r))%num Hw)
    as (-> & _ & -> & ->).
  rewrite length_zip_with, length_refVector. repeat split; try done; lia.
Qed.

Lemma wf_process c (s : t F) ref mic a :
  wf c s -> wf c (fst (process c s ref mic a)).
Proof.
  intros Hwf. apply (process_state_inv (wf c)); [done|].
  intros s' r m Hs'. by apply wf_process_step.
Qed.
End NlmsVectors.

(** ** The reference vector is the window of the latest reference samples *)
Section Window.
Context {F : Type} {N : Number F}.
Import NLMS.

Lemma process_step_line c a (s : t F) r m :
  delayLine (fst (process_step c a s r m)) = delayLine (store s r)
  /\ writeIndex (fst (process_step c a s r m))
     = Z.rem (writeIndex s + 1) (filterLength c).
Proof. rewrite process_step_store. cbv zeta. cbn [fst]. by destruct a. Qed.

(** After a step, entry [i + 1] of the next reference vector is entry [i]
    of the current one: the samples move one place back, and the oldest
    one drops out. *)
Lemma refVector_shift c a (s : t F) r m r' (i : nat) :
  wf c s -> (Z.of_nat i + 1 < filterLength c)%Z ->
  refVector c (store (fst (process_step c a s r m)) r') !! S i
  = refVector c (store s r) !! i.
Proof.
  intros (HL & Hw & Hd & Hi) Hlt.
  destruct (process_step_line c a s r m) as [Hdl Hwi].
  set (s' := fst (process_step c a s r m)) in *. clearbody s'.
  unfold refVector. rewrite !list_lookup_fmap, !lookup_seqZ_lt by lia.
  cbn [fmap option_fmap option_map]. f_equal.
  unfold store, delayIndex. cbn [delayLine writeIndex].
  rewrite Hdl, Hwi. unfold store. cbn [delayLine].
  set (L := filterLength c) in *.
  rewrite (Z.rem_mod_nonneg (writeIndex s + 1) L) by lia.
  pose proof (Z.mod_pos_bound (writeIndex s + 1) L HL) as Hb.
  rewrite !Z.rem_mod_nonneg by lia.
  assert (((writeIndex s + 1) mod L - (0 + Z.of_nat (S i)) + L) mod L
          = (writeIndex s - (0 + Z.of_nat i) + L) mod L)%Z as Hidx.
  { rewrite <- Z.add_sub_swap, <- Z.add_sub_assoc, Zplus_mod_idemp_l.
    f_equal. lia. }
  rewrite Hidx.
  apply ta_get_set_ne.
  intros Heq.
  assert (((writeIndex s + 1) - (writeIndex s - (0 + Z.of_nat i) + L)) mod L = 0)%Z
    as H0.
  { rewrite Zminus_mod, Heq, Z.sub_diag. apply Z.mod_0_l. lia. }
  replace (writeIndex s + 1 - (writeIndex s - (0 + Z.of_nat i) + L))%Z
    with ((Z.of_nat i + 1) + (-1) * L)%Z in H0 by lia.
  rewrite Z.mod_add in H0 by lia.
  rewrite Z.mod_small in H0 by lia. lia.
Qed.
End Window.

(** Reading the arithmetic of [Number] at the real instance, and nothing
    else. *)
Ltac ideal :=
  cbn [of_Z ratio undefined add sub mul div abs sqrt sign round ltb leb fround
       Ideal.number] in *.

(** ** The NLMS step in real arithmetic *)
Section NlmsIdeal.
Import NLMS.

Lemma Rsum_cons a l : Rsum (a :: l) = (a + Rsum l)%R.
Proof. reflexivity. Qed.


(** A running sum started at [a] adds [a] to the sum of the terms. *)
Lemma fold_left_dot (l : list (R * R)) (a : R) :
  fold_left (fun acc wx => (acc + fst wx * snd wx)%num) l a
  = (a + Rsum ((fun wx => fst wx * snd wx)%R <$> l))%R.
Proof.
  revert a. induction l as [|[w x] l IH]; intros a.
  - unfold Rsum; simpl. lra.
  - rewrite fmap_cons, Rsum_cons. cbn [fold_left]. rewrite IH. ideal.
    cbn [fst snd]. lra.
Qed.

Lemma products_zip (ws xs : list R) :
  (fun wx : R * R => (fst wx * snd wx)%R) <$> zip ws xs = zip_with Rmult ws xs.
Proof.
  revert xs. induction ws as [|w ws IH]; intros [|x xs]; try done.
  change (zip (w :: ws) (x :: xs)) with ((w, x) :: zip ws xs).
  rewrite fmap_cons, IH. done.
Qed.

Lemma calculateFilterOutput_dot (c : Config R) (s : t R) :
  Z.of_nat (length (weights s)) = filterLength c ->
  calculateFilterOutput c s = dot (weights s) (refVector c s).
Proof.
  intros Hw. rewrite calculateFilterOutput_zip by done.
  rewrite fold_left_dot, products_zip. unfold dot. ideal. lra.
Qed.

End NlmsIdeal.

(** ** The double-talk detector's hangover *)
Section Hangover.
Context {F : Type} {N : Number F}.
Import DTD.

Lemma updatePowerEstimates_state (d : t F) near far :
  state (updatePowerEstimates d near far) = state d /\
  hangoverCounter (updatePowerEstimates d near far) = hangoverCounter d.
Proof.
  unfold updatePowerEstimates.
  destruct (fold_left _ _ _) as [[np fp] cp]. done.
Qed.

Lemma updateCorrelationBuffers_state c (d : t F) near far :
  state (updateCorrelationBuffers c d near far) = state d /\
  hangoverCounter (updateCorrelationBuffers c d near far) = hangoverCounter d.
Proof.
  unfold updateCorrelationBuffers.
  apply (fold_left_inv
           (fun d' : t F => state d' = state d
                            /\ hangoverCounter d' = hangoverCounter d)); [done|].
  intros d' i [Hs Hh]. done.
Qed.

(** While in HOLD, a block takes exactly one off the hangover counter,
    whatever its length and whatever the detector decides. *)
Lemma process_hold_decrement c (d : t F) near far :
  state d = HOLD ->
  hangoverCounter (fst (process c d near far))
  = (hangoverCounter d - of_Z 1)%num.
Proof.
  intros Hd. unfold process. cbn [fst].
  set (d2 := updateCorrelationBuffers c (updatePowerEstimates d near far) near far).
  assert (state d2 = HOLD /\ hangoverCounter d2 = hangoverCounter d) as [Hs Hh].
  { subst d2.
    destruct (updateCorrelationBuffers_state c (updatePowerEstimates d near far) near far)
      as [-> ->].
    destruct (updatePowerEstimates_state d near far) as [-> ->]. done. }
  unfold updateState. rewrite Hs, Hh.
  destruct (hangoverCounter d - of_Z 1 <=? of_Z 0)%num; [done|].
  by destruct (detectDoubleTalk c d2).
Qed.

(** HOLD is left only once the decremented counter is at most zero. *)
Lemma process_hold_stays c (d : t F) near far :
  state d = HOLD ->
  (hangoverCounter d - of_Z 1 <=? of_Z 0)%num = false ->
  state (fst (process c d near far)) = HOLD
  \/ state (fst (process c d near far)) = DOUBLE_TALK.
Proof.
  intros Hd Hh0. unfold process. cbn [fst].
  set (d2 := updateCorrelationBuffers c (updatePowerEstimates d near far) near far).
  assert (state d2 = HOLD /\ hangoverCounter d2 = hangoverCounter d) as [Hs Hh].
  { subst d2.
    destruct (updateCorrelationBuffers_state c (updatePowerEstimates d near far) near far)
      as [-> ->].
    destruct (updatePowerEstimates_state d near far) as [-> ->]. done. }
  unfold updateState. rewrite Hs, Hh, Hh0.
  destruct (detectDoubleTalk c d2); [by right | by left].
Qed.
End Hangover.

Section HangoverRun.
Open Scope float_scope.

(** C3, replayed on the default detector with 128-sample blocks.  One
    double-talk block, then blocks of pure echo: the detector leaves
    DOUBLE_TALK for HOLD at the 11th of them with the counter at 2400, the
    next block takes it to 2399, and 20 blocks (2560 samples) after entering
    HOLD the state is still HOLD with the counter at 2380.  From there the
    state machine needs the remaining 2380 blocks to leave HOLD, so HOLD
    lasts 2400 blocks, not 2400 samples. *)
Theorem hangover_counts_blocks :
  let d10 := Nat.iter 10 echo_block after_double_talk in
  let d11 := echo_block d10 in
  let d12 := echo_block d11 in
  let d31 := Nat.iter 19 echo_block d12 in
  let quiet d := DTD.updateState DTD.defaultConfig d false in
  DTD.state d10 = DTD.DOUBLE_TALK
  /\ DTD.state d11 = DTD.HOLD
  /\ DTD.hangoverCounter d11 = 2400
  /\ DTD.hangoverCounter d12 = 2399
  /\ DTD.state d31 = DTD.HOLD
  /\ DTD.hangoverCounter d31 = 2380
  /\ DTD.state (Nat.iter 2379 quiet d31) = DTD.HOLD
  /\ DTD.state (Nat.iter 2380 quiet d31) = DTD.SINGLE_TALK.
Proof. vm_compute. repeat split. Qed.
End HangoverRun.

(** ** Non-finite samples *)
Section RunOutputs.
Context {F : Type} {N : Number F}.
Import NLMS.

(** Output sample [i] is the microphone sample [i] minus an echo
    estimate, stored in the output array: nothing else happens to it. *)
Lemma run_output_at c a (s : t F) samples (i : nat) r m :
  samples !! i = Some (r, m) ->
  exists y, snd (run c a s samples) !! i = Some (fround (m - y)%num).
Proof.
  revert s i. induction samples as [|rm rest IH]; intros s i Hi; [done|].
  rewrite run_cons.
  assert (snd (process_step c a s rm.1 rm.2)
          = (rm.2 - calculateFilterOutput c (store s rm.1))%num) as He
    by reflexivity.
  destruct (process_step c a s rm.1 rm.2) as [s' e]. cbn [snd] in He. subst e.
  destruct i as [|i]; simpl in Hi.
  - injection Hi as ->.
    destruct (run c a s' rest) as [s'' es]. simpl. eauto.
  - destruct (IH s' i Hi) as [y Hy].
    destruct (run c a s' rest) as [s'' es]. simpl in *. eauto.
Qed.

Lemma samples_of_lookup (ref mic : list F) (i : nat) :
  (i < length ref)%nat ->
  samples_of ref mic !! i = Some (ta_get ref (Z.of_nat i), ta_get mic (Z.of_nat i)).
Proof.
  intros Hi. unfold samples_of.
  rewrite list_lookup_fmap, lookup_seqZ_lt by lia. simpl. by rewrite Z.add_0_l.
Qed.
End RunOutputs.

(** ** Runs of the adaptive filter, sample by sample *)
Section NlmsRunFacts.
Context {F : Type} {N : Number F}.
Import NLMS.

Lemma run_cons_fst c a (s : t F) rm rest :
  fst (run c a s (rm :: rest))
  = fst (run c a (fst (process_step c a s (fst rm) (snd rm))) rest).
Proof.
  rewrite run_cons. destruct (process_step c a s (fst rm) (snd rm)) as [s1 e].
  cbn [fst]. by destruct (run c a s1 rest).
Qed.

Lemma run_snoc_fst c a (s : t F) l rm :
  fst (run c a s (l ++ [rm]))
  = fst (process_step c a (fst (run c a s l)) (fst rm) (snd rm)).
Proof.
  rewrite run_app. destruct (run c a s l) as [s1 es1]. cbn [fst].
  rewrite run_cons. destruct (process_step c a s1 (fst rm) (snd rm)) as [s2 e].
  done.
Qed.

Lemma wf_run c a (s : t F) l : wf c s -> wf c (fst (run c a s l)).
Proof.
  revert s. induction l as [|rm l IH]; intros s Hs; [done|].
  rewrite run_cons_fst. by apply IH, wf_process_step.
Qed.

Lemma run_writeIndex c a (s : t F) l :
  wf c s ->
  writeIndex (fst (run c a s l))
  = ((writeIndex s + Z.of_nat (length l)) mod filterLength c)%Z.
Proof.
  revert s. induction l as [|rm l IH]; intros s Hs.
  - destruct Hs as (HL & _ & _ & Hwi). cbn [run fst length].
    rewrite Z.add_0_r, Z.mod_small by lia. done.
  - rewrite run_cons_fst, IH by by apply wf_process_step.
    destruct (process_step_line c a s (fst rm) (snd rm)) as [_ ->].
    destruct Hs as (HL & _ & _ & Hwi).
    rewrite Z.rem_mod_nonneg by lia.
    rewrite Zplus_mod_idemp_l. f_equal. simpl length. lia.
Qed.

Lemma length_samples_of (ref mic : list F) :
  length (samples_of ref mic) = length ref.
Proof.
  unfold samples_of. rewrite length_fmap, length_seqZ. lia.
Qed.

Lemma fst_samples_of (ref mic : list F) : fst <$> samples_of ref mic = ref.
Proof.
  apply list_eq. intros i. rewrite list_lookup_fmap.
  destruct (decide (i < length ref)%nat) as [Hi|Hi].
  - rewrite samples_of_lookup by done. cbn [fmap option_fmap option_map fst].
    rewrite ta_get_nat. destruct (lookup_lt_is_Some_2 ref i Hi) as [x Hx].
    by rewrite Hx.
  - rewrite (proj2 (lookup_ge_None ref i)) by lia.
    rewrite (proj2 (lookup_ge_None (samples_of ref mic) i)); [done|].
    rewrite length_samples_of. lia.
Qed.

(** After a run, the samples behind the newest one are the reference
    samples of the run, newest first. *)
Lemma run_history c a (s : t F) l r' (i : nat) x :
  wf c s -> (Z.of_nat i + 1 < filterLength c)%Z ->
  rev (fst <$> l) !! i = Some x ->
  refVector c (store (fst (run c a s l)) r') !! S i = Some (fround x).
Proof.
  intros Hs. revert r' i x.
  induction l as [|rm l IH] using rev_ind; intros r' i x Hi Hx; [done|].
  rewrite fmap_app, rev_app_distr in Hx. cbn [fmap list_fmap rev app] in Hx.
  rewrite run_snoc_fst.
  rewrite refVector_shift by (by apply wf_run || done).
  destruct i as [|i].
  - rewrite refVector_head by by apply wf_run. simpl in Hx. congruence.
  - simpl in Hx. apply IH; [lia|done].
Qed.

(** The prefix of a block is read as the prefix of its samples. *)
Lemma take_samples_of (ref mic : list F) (i : nat) :
  (i <= length ref)%nat ->
  samples_of (take i ref) (take i mic) = take i (samples_of ref mic).
Proof.
  intros Hi. apply list_eq. intros j.
  destruct (decide (j < i)%nat) as [Hj|Hj].
  - rewrite lookup_take_lt by done.
    rewrite !samples_of_lookup by (rewrite ?length_take; lia).
    by rewrite !ta_get_nat, !lookup_take_lt by done.
  - rewrite lookup_take_ge by lia. apply lookup_ge_None.
    rewrite length_samples_of, length_take. lia.
Qed.

(** Sample [i] of a run: what is emitted there, and the state it leaves, are
    those of the loop body on the state the first [i] samples led to. *)
Lemma run_step_at c a (s : t F) l (i : nat) rm :
  l !! i = Some rm ->
  let s_i := fst (run c a s (take i l)) in
  snd (run c a s l) !! i
  = Some (fround (snd (process_step c a s_i (fst rm) (snd rm))))
  /\ fst (run c a s (take (S i) l))
     = fst (process_step c a s_i (fst rm) (snd rm)).
Proof.
  revert s i. induction l as [|rm0 l IH]; intros s [|i] Hi; try done.
  - simpl in Hi. injection Hi as ->. cbv zeta.
    change (take 0 (rm :: l)) with (@nil (F * F)).
    change (take 1 (rm :: l)) with [rm].
    change (run c a s []) with (s, @nil F). cbn [fst].
    rewrite !run_cons.
    destruct (process_step c a s (fst rm) (snd rm)) as [s1 e].
    change (run c a s1 []) with (s1, @nil F).
    by destruct (run c a s1 l).
  - simpl in Hi. cbv zeta.
    change (take (S i) (rm0 :: l)) with (rm0 :: take i l).
    change (take (S (S i)) (rm0 :: l)) with (rm0 :: take (S i) l).
    rewrite !run_cons_fst. rewrite run_cons.
    destruct (IH (fst (process_step c a s (fst rm0) (snd rm0))) i Hi)
      as [H1 H2].
    destruct (process_step c a s (fst rm0) (snd rm0)) as [s1 e]. cbn [fst] in *.
    destruct (run c a s1 l) as [s2 es]. cbn [fst snd] in *.
    by split.
Qed.
End NlmsRunFacts.

(** ** The adapting sample step of [process] *)
Section NlmsAdaptingStep.
Import NLMS.

(** The loop body on one adapting sample, in real arithmetic. *)
Lemma adapting_step_ideal (c : Config R) (s : t R) (r m : R) :
  wf c s ->
  let x := refVector c (store s r) in
  let p' := ((1 - 5 / 100) * powerEstimate s + 5 / 100 * (r * r))%R in
  let mu' := (stepSize c / (p' * IZR (filterLength c) + regularization c))%R in
  let e := (m - dot (weights s) x)%R in
  snd (process_step c true s r m) = e
  /\ powerEstimate (fst (process_step c true s r m)) = p'
  /\ weights (fst (process_step c true s r m))
     = zip_with (fun w xi => (leakageFactor c * w + mu' * e * xi)%R) (weights s) x.
Proof.
  intros Hwf x p' mu' e.
  pose proof Hwf as (HL & Hw & Hd & Hi).
  assert (ta_get (delayLine (store s r)) (writeIndex (store s r)) = r) as Hcur.
  { unfold store. cbn [delayLine writeIndex]. rewrite ta_get_set_eq by lia. done. }
  assert (calculateFilterOutput c (store s r) = dot (weights s) x) as Hdot
    by (by rewrite calculateFilterOutput_dot).
  pose proof (updateWeights_zip c (store s r) e Hw) as Hup. cbv zeta in Hup.
  rewrite Hcur in Hup. ideal.
  change (weights (store s r)) with (weights s) in Hup.
  change (powerEstimate (store s r)) with (powerEstimate s) in Hup.
  destruct Hup as (Hws & Hp & _ & _).
  assert ((95 / 100 * powerEstimate s + 5 / 100 * r * r)%R = p') as Hpp
    by (subst p'; lra).
  rewrite Hpp in Hws, Hp.
  rewrite process_step_store. cbv zeta. ideal. rewrite Hdot. fold e.
  cbn [fst snd weights powerEstimate].
  split; [done|]. split; [exact Hp | exact Hws].
Qed.

(** The power estimate never becomes negative. *)
Lemma run_power_nonneg (c : Config R) (s : t R) l :
  wf c s -> (0 <= powerEstimate s)%R ->
  (0 <= powerEstimate (fst (run c true s l)))%R.
Proof.
  revert s. induction l as [|rm l IH]; intros s Hwf Hp; [done|].
  rewrite run_cons_fst. apply IH; [by apply wf_process_step|].
  destruct (adapting_step_ideal c s (fst rm) (snd rm) Hwf) as (_ & -> & _).
  pose proof (Rle_0_sqr (fst rm)) as Hsq. unfold Rsqr in Hsq. lra.
Qed.

(** C2 (the adapting sample step).  For a processor in shape with a
    non-negative power estimate and a positive regularization, sample [i]
    of a block that [process] runs with adaptation enabled, with reference
    sample [r] and microphone sample [m], behaves as follows.  Let [s_i] be
    the processor after the first [i] samples and x the reference vector
    once [r] is stored: x[0] = r and x[j+1] is the reference sample [j + 1]
    places before sample [i] of the block.  The divisor p' * L + delta is
    positive; output sample [i] of [process] is
    e = m - sum_k w[k] * x[k]; the power estimate becomes
    p' = (1 - beta) * p + beta * x[0]^2 with beta = 0.05; and every weight
    becomes leakage * w[k] + mu~ * e * x[k] with
    mu~ = mu / (p' * L + delta), for all k in [0, L).  The processor after
    [i + 1] samples is in shape with a non-negative power estimate again.
    In real arithmetic. *)
Theorem nlms_adapting_step (c : Config R) (s : t R) (ref mic : list R)
    (i : nat) (r m : R) :
  wf c s -> (0 <= powerEstimate s)%R -> (0 < regularization c)%R ->
  ref !! i = Some r -> mic !! i = Some m ->
  let s_i := fst (process c s (take i ref) (take i mic) true) in
  let s' := fst (process c s (take (S i) ref) (take (S i) mic) true) in
  let x := refVector c (store s_i r) in
  let beta := (5 / 100)%R in
  let p' := ((1 - beta) * powerEstimate s_i + beta * (r * r))%R in
  let mu' := (stepSize c / (p' * IZR (filterLength c) + regularization c))%R in
  let e := (m - dot (weights s_i) x)%R in
  x !! 0%nat = Some r
  /\ (forall (j : nat) y, (Z.of_nat j + 1 < filterLength c)%Z ->
        rev (take i ref) !! j = Some y -> x !! S j = Some y)
  /\ Z.of_nat (length x) = filterLength c
  /\ (0 < p' * IZR (filterLength c) + regularization c)%R
  /\ snd (process c s ref mic true) !! i = Some e
  /\ s' = fst (process_step c true s_i r m)
  /\ powerEstimate s' = p'
  /\ weights s'
     = zip_with (fun w xk => (leakageFactor c * w + mu' * e * xk)%R)
         (weights s_i) x
  /\ wf c s' /\ (0 <= powerEstimate s')%R.
Proof.
  intros Hwf Hp Hreg Hr Hm s_i s' x beta p' mu' e.
  assert (i < length ref)%nat as Hi by (by eapply lookup_lt_Some).
  assert (samples_of ref mic !! i = Some (r, m)) as Hs.
  { rewrite samples_of_lookup by done. by rewrite !ta_get_nat, Hr, Hm. }
  assert (s_i = fst (run c true s (take i (samples_of ref mic)))) as Hsi.
  { subst s_i. by rewrite process_run, take_samples_of by lia. }
  assert (s' = fst (run c true s (take (S i) (samples_of ref mic)))) as Hs'.
  { subst s'. by rewrite process_run, take_samples_of by lia. }
  assert (wf c s_i) as Hwfi by (rewrite Hsi; by apply wf_run).
  assert (0 <= powerEstimate s_i)%R as Hpi
    by (rewrite Hsi; by apply run_power_nonneg).
  destruct (run_step_at c true s (samples_of ref mic) i (r, m) Hs)
    as [Hout Hnext].
  cbv zeta in Hout, Hnext. cbn [fst snd] in Hout, Hnext.
  rewrite <- Hsi in Hout, Hnext. rewrite <- Hs' in Hnext.
  destruct (adapting_step_ideal c s_i r m Hwfi) as (He & Hpe & Hws).
  assert (0 <= p')%R as Hp'.
  { subst p' beta. pose proof (Rle_0_sqr r) as Hsq. unfold Rsqr in Hsq. lra. }
  assert (0 < IZR (filterLength c))%R as HL.
  { apply IZR_lt. by destruct Hwf. }
  split; [exact (refVector_head c s_i r Hwfi)|]. split.
  { intros j y Hj Hy. subst x. rewrite Hsi.
    rewrite (run_history c true s (take i (samples_of ref mic)) r j y Hwf Hj);
      [done|].
    by rewrite fmap_take, fst_samples_of. }
  split; [subst x; rewrite length_refVector; destruct Hwf; lia|].
  split; [pose proof (Rmult_le_pos _ _ Hp' (Rlt_le _ _ HL)); lra|].
  split; [rewrite process_run, Hout, He; done|].
  split; [exact Hnext|].
  rewrite Hnext. split; [exact Hpe|]. split; [exact Hws|].
  split; [by apply wf_process_step|]. rewrite Hpe. exact Hp'.
Qed.
End NlmsAdaptingStep.

(** A one-sample block through [two_tap_state], reference 5 and
    microphone 7: x = (5, 3), so the emitted error is
    7 - (1*5 + 2*3) = -4. *)
Lemma nlms_adapting_step_witness :
  snd (NLMS.process two_tap_config two_tap_state [5]%R [7]%R true) !! 0%nat
  = Some (-4)%R.
Proof.
  assert (NLMS.wf two_tap_config two_tap_state) as Hwf.
  { unfold NLMS.wf. simpl. lia. }
  destruct (nlms_adapting_step two_tap_config two_tap_state [5]%R [7]%R
              0 5%R 7%R Hwf) as (_ & _ & _ & _ & He & _).
  - simpl. lra.
  - simpl. lra.
  - reflexivity.
  - reflexivity.
  - rewrite He. f_equal.
    change (fst (NLMS.process two_tap_config two_tap_state
                   (take 0 [5%R]) (take 0 [7%R]) true))
      with two_tap_state.
    unfold dot, Rsum. simpl.
    unfold NLMS.delayIndex, NLMS.store, ta_get, ta_set. simpl. lra.
Defined.

Section NonFinite.
Open Scope float_scope.

Lemma sub_nan_l (y : float) : nan - y = nan.
Proof. apply Prim2SF_inj. rewrite sub_spec. reflexivity. Qed.

(** C5 (non-finite input), as the code has it.  [processBlock] has no
    finiteness test: the adaptation flag handed to the filter is the
    detector's decision, and a NaN microphone sample comes out as a NaN
    output sample at the same index. *)
Theorem non_finite_input_propagates (c : System.Config float) (s : System.t float)
    (mic ref : list float) (i : nat) :
  (i < length ref)%nat -> mic !! i = Some nan ->
  let adapt :=
    snd (DTD.process (System.doubleTalkConfig c) (System.doubleTalkDetector s) mic ref) in
  snd (System.processBlock c s mic ref)
  = snd (NLMS.process (System.nlmsConfig c) (System.nlmsProcessor s) ref mic adapt)
  /\ snd (System.processBlock c s mic ref) !! i = Some nan.
Proof.
  intros Hi Hnan adapt.
  assert (snd (System.processBlock c s mic ref)
          = snd (NLMS.process (System.nlmsConfig c) (System.nlmsProcessor s)
                   ref mic adapt)) as Heq.
  { unfold System.processBlock. subst adapt.
    destruct (DTD.process _ _ mic ref) as [d' a]. cbn [snd].
    by destruct (NLMS.process _ _ ref mic a). }
  split; [exact Heq|]. rewrite Heq, process_run.
  destruct (run_output_at (System.nlmsConfig c) adapt (System.nlmsProcessor s)
              (samples_of ref mic) i (ta_get ref (Z.of_nat i)) nan) as [y Hy].
  { rewrite samples_of_lookup by done. rewrite (ta_get_nat mic), Hnan. done. }
  rewrite Hy. cbn [sub fround IEEE.number]. by rewrite sub_nan_l.
Qed.

(** A NaN at index 1 of a three-sample block. *)
Lemma non_finite_input_propagates_witness :
  snd (System.processBlock System.defaultConfig
         (System.create System.defaultConfig) [0.5; nan; 0.25] [0.5; 0.5; 0.5])
    !! 1%nat = Some nan.
Proof.
  refine (proj2 (non_finite_input_propagates System.defaultConfig
                   (System.create System.defaultConfig)
                   [0.5; nan; 0.25] [0.5; 0.5; 0.5] 1 _ _)).
  - simpl. lia.
  - reflexivity.
Defined.

(** C5 as stated fails: on a fresh default system, a NaN microphone sample
    over a silent reference is not zeroed, adaptation stays enabled for the
    block, and every weight becomes NaN. *)
Lemma non_finite_input_counterexample :
  let c := System.defaultConfig in
  let s := System.create c in
  let res := System.processBlock c s [nan] [0] in
  snd res = [nan]
  /\ snd (DTD.process (System.doubleTalkConfig c) (System.doubleTalkDetector s)
            [nan] [0]) = true
  /\ NLMS.weights (System.nlmsProcessor (fst res)) = replicate 512 nan.
Proof. vm_compute. repeat split. Qed.
End NonFinite.

(** ** The residual suppressor *)
Section Residual.
Import RealTimeProcessor.

(** C9 (residual suppressor).  The output has one sample per input sample:
    sample [i] is e_i * (1 - 0.1) when the reference sample at [i] exceeds
    1e-3 in magnitude, and e_i itself otherwise. *)
Theorem residual_suppression (signal reference : list R) :
  applyResidualSuppression signal reference
  = imap (fun i e =>
            if (abs (ta_get reference (Z.of_nat i)) >? ratio 1 1000)%num
            then (e * (1 - 1 / 10))%R else e)
         signal.
Proof.
  unfold applyResidualSuppression.
  set (g := fun i : Z =>
     (ta_get signal i
      * (of_Z 1 - (if (abs (ta_get reference i) >? ratio 1 1000)%num
                   then ratio 1 10 else of_Z 0)))%num).
  pose proof (fill_loop g (ta_new (Z.of_nat (length signal)))) as Hloop.
  rewrite length_ta_new, Nat2Z.id in Hloop.
  subst g. cbv beta in Hloop. rewrite Hloop. clear Hloop.
  apply list_eq. intros j.
  rewrite list_lookup_fmap, list_lookup_imap.
  destruct (signal !! j) as [e|] eqn:Hj.
  - apply lookup_lt_Some in Hj as Hlt.
    rewrite lookup_seqZ_lt by lia. simpl. rewrite Z.add_0_l, ta_get_nat, Hj.
    simpl. f_equal.
    destruct (Ideal.Rltb (1 / 1000) (Rabs (ta_get reference (Z.of_nat j)))); lra.
  - apply lookup_ge_None in Hj.
    rewrite lookup_seqZ_ge by lia. done.
Qed.
End Residual.

(** ** The worklet's soft limiter *)
Section Limiter.

Lemma Rltb_true x y : Ideal.Rltb x y = true <-> (x < y)%R.
Proof. unfold Ideal.Rltb. destruct (Rlt_dec x y); split; intros; try done. Qed.

Lemma Rltb_false x y : Ideal.Rltb x y = false <-> (y <= x)%R.
Proof.
  unfold Ideal.Rltb. destruct (Rlt_dec x y); split; intros; try done; lra.
Qed.

(** A float above 0.95 in magnitude is positive or negative: it is no NaN
    and no zero. *)
Lemma above_limit_signed (x : float) :
  PrimFloat.ltb (ratio 95 100) (PrimFloat.abs x) = true ->
  PrimFloat.ltb 0 x = true \/ PrimFloat.ltb x 0 = true.
Proof.
  rewrite !ltb_spec, abs_spec.
  destruct (Prim2SF x) as [s|s| |s m e]; intros H.
  - vm_compute in H. destruct s; discriminate.
  - destruct s; [right|left]; reflexivity.
  - vm_compute in H. discriminate.
  - destruct s; [right|left]; reflexivity.
Qed.

Lemma postProcess_limited_ideal (errorSignal systemPower : R) :
  (Rabs (Worklet.postProcess errorSignal systemPower) <= 95 / 100)%R.
Proof.
  unfold Worklet.postProcess.
  match goal with
  | |- context [if ?b then ?t else errorSignal] =>
      set (x := if b then t else errorSignal)
  end. clearbody x. ideal.
  destruct (Ideal.Rltb (95 / 100) (Rabs x)) eqn:Hx.
  - apply Rltb_true in Hx. unfold Ideal.Rsign.
    destruct (Ideal.Rltb 0 x) eqn:H1.
    + rewrite Rmult_1_l, Rabs_pos_eq; lra.
    + destruct (Ideal.Rltb x 0) eqn:H2.
      * replace (-1 * (95 / 100))%R with (- (95 / 100))%R by lra.
        rewrite Rabs_Ropp, Rabs_pos_eq; lra.
      * apply Rltb_false in H1, H2. assert (x = 0%R) as -> by lra.
        rewrite Rabs_R0 in Hx. lra.
  - by apply Rltb_false in Hx.
Qed.

Lemma is_nan_spec (x : float) :
  PrimFloat.is_nan x
  = match Prim2SF x with S754_nan => true | _ => false end.
Proof.
  unfold PrimFloat.is_nan. rewrite FloatAxioms.eqb_spec.
  unfold SFeqb, SFcompare.
  destruct (Prim2SF x) as [sg|sg| |sg m e]; try done.
  - by destruct sg.
  - rewrite Z.compare_refl, Pos.compare_cont_refl. by destruct sg.
Qed.

(** A float that is no NaN and not above 0.95 in magnitude is at most 0.95
    in magnitude. *)
Lemma within_limit (x : float) :
  PrimFloat.is_nan x = false ->
  PrimFloat.ltb (ratio 95 100) (PrimFloat.abs x) = false ->
  PrimFloat.leb (PrimFloat.abs x) (ratio 95 100) = true.
Proof.
  rewrite is_nan_spec, ltb_spec, leb_spec, abs_spec.
  set (limit := Prim2SF (ratio 95 100)). vm_compute in limit. subst limit.
  destruct (Prim2SF x) as [sg|sg| |sg m e]; try done.
  intros _. cbn [SFabs]. unfold SFltb, SFleb, SFcompare.
  rewrite (Z.compare_antisym e), (ZC4 m).
  destruct (e ?= _)%Z; cbn [CompOpp]; try done.
  by destruct (Pos.compare_cont Eq _ m).
Qed.

(** C10 (soft limiter), as the code has it.  The sample [processSample]
    returns is the post-processed error signal.  With g the signal after
    the noise gate: when the test |g| > 0.95 is true, g is positive or
    negative and the returned sample is sign(g) * 0.95, that is 0.95 or
    -0.95; when the test is false the returned sample is g itself.  So the
    returned sample is at most 0.95 in magnitude whenever g is not NaN, and
    it is NaN when g is NaN: there is no guard against NaN.  On binary64,
    and in real arithmetic, where the bound holds always. *)
Theorem worklet_output_limited :
  (forall (s : Worklet.t float) (micSample systemSample : float),
     snd (Worklet.processSample s micSample systemSample)
     = Worklet.postProcess
         (micSample - Worklet.estimatedEcho s (Worklet.referenceVector s))%num
         (systemSample * systemSample)%num)
  /\ (forall errorSignal systemPower : float,
        let g :=
          if ((abs errorSignal <? ratio 1 1000)%num
              && (systemPower >? ratio 1 1000000)%num)%bool
          then (errorSignal * ratio 1 10)%num else errorSignal in
        let out := Worklet.postProcess errorSignal systemPower in
        ((abs g >? ratio 95 100)%num = true ->
           out = (sign g * ratio 95 100)%num
           /\ ((sign g = of_Z 1 /\ (of_Z 0 <? g)%num = true
                /\ out = ratio 95 100)
               \/ (sign g = of_Z (-1) /\ (g <? of_Z 0)%num = true
                   /\ out = (of_Z 0 - ratio 95 100)%num)))
        /\ ((abs g >? ratio 95 100)%num = false -> out = g)
        /\ (PrimFloat.is_nan g = false ->
            (abs out <=? ratio 95 100)%num = true)
        /\ (PrimFloat.is_nan g = true -> PrimFloat.is_nan out = true))
  /\ (forall errorSignal systemPower : R,
        let g :=
          if ((abs errorSignal <? ratio 1 1000)%num
              && (systemPower >? ratio 1 1000000)%num)%bool
          then (errorSignal * ratio 1 10)%num else errorSignal in
        let out := Worklet.postProcess errorSignal systemPower in
        ((95 / 100 < Rabs g)%R ->
           out = (sign g * (95 / 100))%R
           /\ ((0 < g /\ out = 95 / 100)%R \/ (g < 0 /\ out = - (95 / 100))%R))
        /\ ((Rabs g <= 95 / 100)%R -> out = g)
        /\ (Rabs out <= 95 / 100)%R).
Proof.
  split; [reflexivity|]. split.
  - intros errorSignal systemPower g out.
    assert (out = if (abs g >? ratio 95 100)%num
                  then (sign g * ratio 95 100)%num else g) as Hout
      by reflexivity.
    clearbody out g. cbn [abs ltb leb mul sub sign of_Z IEEE.number] in *.
    assert (PrimFloat.ltb (ratio 95 100) (PrimFloat.abs g) = true ->
            out = PrimFloat.mul (IEEE.sign64 g) (ratio 95 100)
            /\ ((IEEE.sign64 g = IEEE.of_Z64 1
                 /\ PrimFloat.ltb (IEEE.of_Z64 0) g = true
                 /\ out = ratio 95 100)
                \/ (IEEE.sign64 g = IEEE.of_Z64 (-1)
                    /\ PrimFloat.ltb g (IEEE.of_Z64 0) = true
                    /\ out = PrimFloat.sub (IEEE.of_Z64 0) (ratio 95 100))))
      as Hfire.
    { intros Hx. rewrite Hx in Hout. split; [exact Hout|].
      change (IEEE.of_Z64 0) with 0%float. rewrite Hout. unfold IEEE.sign64.
      destruct (PrimFloat.ltb 0 g) eqn:Hpos.
      - left. repeat split; vm_compute; reflexivity.
      - right. destruct (above_limit_signed g Hx) as [H|H]; [congruence|].
        rewrite H. repeat split; vm_compute; reflexivity. }
    split; [exact Hfire|]. split; [intros Hx; by rewrite Hx in Hout|]. split.
    + intros Hnan.
      destruct (PrimFloat.ltb (ratio 95 100) (PrimFloat.abs g)) eqn:Hx.
      * destruct (Hfire eq_refl) as [_ [(_ & _ & ->)|(_ & _ & ->)]];
          vm_compute; reflexivity.
      * subst out. by apply within_limit.
    + intros Hnan.
      destruct (PrimFloat.ltb (ratio 95 100) (PrimFloat.abs g)) eqn:Hx;
        [|by subst out].
      destruct (above_limit_signed g Hx) as [H|H];
        rewrite is_nan_spec in Hnan; rewrite ltb_spec in H;
        destruct (Prim2SF g); try done; by destruct (Prim2SF 0).
  - intros errorSignal systemPower g out.
    assert (out = if (abs g >? ratio 95 100)%num
                  then (sign g * ratio 95 100)%num else g) as Hout
      by reflexivity.
    pose proof (postProcess_limited_ideal errorSignal systemPower) as Hlim.
    fold out in Hlim. clearbody out g. ideal.
    split; [|split; [|exact Hlim]].
    + intros Hlt. pose proof (proj2 (Rltb_true _ _) Hlt) as Hx.
      rewrite Hx in Hout.
      split; [exact Hout|]. rewrite Hout. unfold Ideal.Rsign.
      destruct (Ideal.Rltb 0 g) eqn:H1.
      * apply Rltb_true in H1. left. split; [done|lra].
      * destruct (Ideal.Rltb g 0) eqn:H2.
        -- apply Rltb_true in H2. right. split; [done|lra].
        -- apply Rltb_false in H1, H2. assert (g = 0%R) as Hg by lra.
           rewrite Hg, Rabs_R0 in Hlt. lra.
    + intros Hx. assert (Ideal.Rltb (95 / 100) (Rabs g) = false) as Hf
        by (by apply Rltb_false).
      by rewrite Hf in Hout.
Qed.

(** C10 as stated fails: on the processor as constructed, a NaN microphone
    sample gives a NaN post-gate signal, and the returned sample is NaN,
    which is not within [-0.95, 0.95]. *)
Lemma worklet_output_counterexample :
  let out := snd (Worklet.processSample Worklet.create nan 0%float) in
  PrimFloat.is_nan out = true
  /\ (abs out <=? ratio 95 100)%num = false.
Proof. vm_compute. split; reflexivity. Qed.
End Limiter.

(** ** Silence in real arithmetic *)
Section Silence.
Import NLMS.

Lemma ta_get_silent (a : list R) i : silent a -> ta_get a i = 0%R.
Proof.
  intros Ha. unfold ta_get. destruct (0 <=? i)%Z; [|done].
  destruct (a !! Z.to_nat i) as [x|] eqn:Hx; [|done]. simpl.
  unfold silent in Ha. rewrite Forall_lookup in Ha. by apply (Ha _ _ Hx).
Qed.

Lemma silent_store (s : t R) : silent (delayLine s) -> silent (delayLine (store s 0%R)).
Proof.
  intros Hs. unfold store, ta_set. cbn [delayLine].
  destruct (0 <=? writeIndex s)%Z; [|done].
  by apply Forall_insert.
Qed.

Lemma refVector_silent c (s : t R) :
  silent (delayLine s) -> refVector c s = replicate (Z.to_nat (filterLength c)) 0%R.
Proof.
  intros Hs. unfold refVector. apply list_eq. intros j.
  rewrite list_lookup_fmap.
  destruct (decide (j < Z.to_nat (filterLength c))%nat) as [Hj|Hj].
  - rewrite lookup_seqZ_lt by lia. simpl. rewrite ta_get_silent by done.
    by rewrite lookup_replicate_2.
  - rewrite lookup_seqZ_ge by lia. simpl. symmetry.
    apply lookup_replicate_None. lia.
Qed.

Lemma dot_zero (w : list R) n : dot w (replicate n 0%R) = 0%R.
Proof.
  revert n. induction w as [|x w IH]; intros [|n]; try done.
  change (dot (x :: w) (replicate (S n) 0%R))
    with (x * 0 + dot w (replicate n 0%R))%R.
  rewrite IH. lra.
Qed.

Lemma leak_only (k mu : R) (w : list R) n :
  length w = n ->
  zip_with (fun w x => (k * w + mu * 0 * x)%R) w (replicate n 0%R)
  = (fun w => (k * w)%R) <$> w.
Proof.
  revert n. induction w as [|x w IH]; intros [|n] Hn; try done.
  simpl in *. rewrite IH by lia. f_equal. lra.
Qed.

(** One silent sample through a processor whose delay line is silent. *)
Lemma process_step_silent c a (s : t R) :
  Z.of_nat (length (weights s)) = filterLength c ->
  silent (delayLine s) ->
  let s' := fst (process_step c a s 0%R 0%R) in
  snd (process_step c a s 0%R 0%R) = 0%R
  /\ silent (delayLine s')
  /\ weights s' = (if a then (fun w => (leakageFactor c * w)%R) <$> weights s
                   else weights s).
Proof.
  intros Hw Hs s'. subst s'.
  pose proof (silent_store s Hs) as Hs1.
  assert (calculateFilterOutput c (store s 0%R) = 0%R) as Hout.
  { rewrite calculateFilterOutput_dot by done.
    rewrite refVector_silent by done. apply dot_zero. }
  rewrite process_step_store. cbv zeta. rewrite Hout. ideal.
  replace (0 - 0)%R with 0%R by lra. cbn [fst snd delayLine weights].
  split; [done|]. destruct a; [|done].
  pose proof (updateWeights_zip c (store s 0%R) 0%R Hw) as Hup. cbv zeta in Hup.
  destruct Hup as (Hws & _ & Hdl & _). ideal.
  rewrite Hdl. split; [done|]. rewrite Hws.
  rewrite refVector_silent by done.
  apply leak_only. change (weights (store s 0%R)) with (weights s). lia.
Qed.

(** [n] silent samples: silence out, and the weights leak [n] times when
    adapting. *)
Lemma run_silent c a (s : t R) (n : nat) :
  Z.of_nat (length (weights s)) = filterLength c ->
  silent (delayLine s) ->
  snd (run c a s (replicate n (0%R, 0%R))) = replicate n 0%R
  /\ weights (fst (run c a s (replicate n (0%R, 0%R))))
     = (if a then (fun w => (leakageFactor c ^ n * w)%R) <$> weights s
        else weights s).
Proof.
  revert s. induction n as [|n IH]; intros s Hw Hs.
  - change (run c a s (replicate 0 (0%R, 0%R))) with (s, @nil R). cbn [fst snd].
    split; [done|]. destruct a; [|done].
    rewrite <- (list_fmap_id (weights s)) at 1.
    apply list_fmap_ext. intros _ w _. simpl. lra.
  - change (replicate (S n) (0%R, 0%R)) with ((0%R, 0%R) :: replicate n (0%R, 0%R)).
    rewrite run_cons. cbn [fst snd].
    destruct (process_step_silent c a s Hw Hs) as (He & Hs' & Hw').
    destruct (process_step c a s 0%R 0%R) as [s' e]. cbn [fst snd] in *. subst e.
    assert (Z.of_nat (length (weights s')) = filterLength c) as Hlen.
    { rewrite Hw'. destruct a; [rewrite length_fmap|]; done. }
    destruct (IH s' Hlen Hs') as (Hout & Hws).
    destruct (run c a s' (replicate n (0%R, 0%R))) as [s'' es].
    cbn [fst snd] in *. ideal. split; [by rewrite Hout|].
    rewrite Hws, Hw'. destruct a; [|done].
    rewrite <- list_fmap_compose. apply list_fmap_ext. intros _ w _. simpl. lra.
Qed.

(** C8 (silence in, silence out), as the code has it.  In real
    arithmetic, for a filter in shape (weights and delay line of the filter
    length, write index in range) with a non-negative power estimate and a
    positive regularization, whose reference delay line holds only zeros:
    an all-zero block of any length [n] gives an all-zero output block.
    [processBlock] hands the filter the detector's decision; processed
    with adaptation disabled the block leaves the weights exactly
    unchanged, and processed with adaptation enabled it multiplies every
    weight by leakage^n (so an all-zero weight vector stays unchanged). *)
Theorem silence_in_silence_out (c : System.Config R) (s : System.t R) (n : nat) :
  wf (System.nlmsConfig c) (System.nlmsProcessor s) ->
  silent (delayLine (System.nlmsProcessor s)) ->
  (0 <= powerEstimate (System.nlmsProcessor s))%R ->
  (0 < regularization (System.nlmsConfig c))%R ->
  let zeros := replicate n 0%R in
  let adapt :=
    snd (DTD.process (System.doubleTalkConfig c) (System.doubleTalkDetector s)
           zeros zeros) in
  let res := System.processBlock c s zeros zeros in
  snd res = zeros
  /\ System.nlmsProcessor (fst res)
     = fst (process (System.nlmsConfig c) (System.nlmsProcessor s)
              zeros zeros adapt)
  /\ forall a : bool,
       snd (process (System.nlmsConfig c) (System.nlmsProcessor s)
              zeros zeros a) = zeros
       /\ weights (fst (process (System.nlmsConfig c) (System.nlmsProcessor s)
                          zeros zeros a))
          = (if a
             then (fun w => (leakageFactor (System.nlmsConfig c) ^ n * w)%R)
                    <$> weights (System.nlmsProcessor s)
             else weights (System.nlmsProcessor s)).
Proof.
  intros Hwf Hs _ _ zeros adapt res.
  assert (Z.of_nat (length (weights (System.nlmsProcessor s)))
          = filterLength (System.nlmsConfig c)) as Hw
    by (by destruct Hwf as (_ & ? & _)).
  assert (zip zeros zeros = replicate n (0%R, 0%R)) as Hzip.
  { subst zeros. clear. induction n as [|n IH]; [done|]. simpl. by rewrite <- IH. }
  assert (forall a : bool,
            snd (process (System.nlmsConfig c) (System.nlmsProcessor s)
                   zeros zeros a) = zeros
            /\ weights (fst (process (System.nlmsConfig c)
                               (System.nlmsProcessor s) zeros zeros a))
               = (if a
                  then (fun w => (leakageFactor (System.nlmsConfig c) ^ n * w)%R)
                         <$> weights (System.nlmsProcessor s)
                  else weights (System.nlmsProcessor s))) as Hall.
  { intros a. rewrite process_run, samples_of_zip, Hzip by done.
    exact (run_silent (System.nlmsConfig c) a (System.nlmsProcessor s) n Hw Hs). }
  subst res adapt. unfold System.processBlock.
  destruct (DTD.process _ _ zeros zeros) as [d' a]. cbn [snd].
  destruct (Hall a) as [Hout _].
  destruct (process _ _ zeros zeros a) as [s' es]. cbn [fst snd] in *.
  split; [exact Hout|]. split; [done|]. exact Hall.
Qed.
End Silence.

(** Two silent samples through [two_tap_silent_system]. *)
Lemma silence_in_silence_out_witness :
  snd (System.processBlock two_tap_system_config two_tap_silent_system
         [0; 0]%R [0; 0]%R) = [0; 0]%R.
Proof.
  refine (proj1 (silence_in_silence_out two_tap_system_config
                   two_tap_silent_system 2 _ _ _ _)).
  - unfold NLMS.wf. simpl. lia.
  - repeat constructor.
  - simpl. lra.
  - simpl. lra.
Defined.

Section SilenceRun.
Open Scope float_scope.

(** C8 as stated fails: a default system that has heard two samples
    (microphone 1, 1.5 over reference 1, 1) answers an all-zero block with a
    non-zero output sample, and its weights move. *)
Lemma silence_counterexample :
  let c := System.defaultConfig in
  let s := fst (System.processBlock c (System.create c) [1; 1.5] [1; 1]) in
  let res := System.processBlock c s [0] [0] in
  snd res <> [0]
  /\ NLMS.weights (System.nlmsProcessor (fst res))
     <> NLMS.weights (System.nlmsProcessor s).
Proof.
  split; intros H; apply (f_equal (fun l => hd 0 l)) in H; revert H;
    apply float_neq; vm_compute; reflexivity.
Qed.
End SilenceRun.

(** ** The delay estimator in real arithmetic *)
Section DelayEstimator.
Import RealTimeProcessor.




End DelayEstimator.


Section DelayRun.
Open Scope float_scope.

End DelayRun.

(** * Further properties of the code *)

(** ** The circular buffer: construction, clearing, wrap-around *)
Section RingFacts.
Context {F : Type} {N : Number F}.
Import CircularBuffer.

(** [x & mask] is [x mod size] for every integer [x]: the ToInt32
    wrap-around is by a multiple of the size. *)
Lemma js_and_mask_any p x :
  (0 <= p <= 30)%Z -> js_and x (2 ^ p - 1) = (x mod 2 ^ p)%Z.
Proof.
  intros Hp. unfold js_and.
  assert (2 ^ p <= 2 ^ 30)%Z by (apply Z.pow_le_mono_r; lia).
  assert (0 < 2 ^ p)%Z by (apply Z.pow_pos_nonneg; lia).
  rewrite (to_int32_id (2 ^ p - 1)) by lia.
  replace (2 ^ p - 1)%Z with (Z.ones p) by (rewrite Z.ones_equiv; lia).
  rewrite Z.land_ones by lia. unfold to_int32.
  assert (2 ^ 31 = 2 ^ (31 - p) * 2 ^ p)%Z as H31
    by (rewrite <- Z.pow_add_r by lia; f_equal; lia).
  assert (2 ^ 32 = 2 ^ (32 - p) * 2 ^ p)%Z as H32
    by (rewrite <- Z.pow_add_r by lia; f_equal; lia).
  rewrite Zminus_mod.
  rewrite Z.mod_mod_divide by (exists (2 ^ (32 - p))%Z; exact H32).
  rewrite <- Zminus_mod. f_equal. lia.
Qed.

Lemma read_index (b : t F) d :
  wf b ->
  read b d = ta_get (buffer b) ((writeIndex b - 1 - d) mod size b)%Z.
Proof.
  intros (p & Hp & Hsz & Hmask & _). unfold read. cbv zeta.
  by rewrite Hmask, Hsz, js_and_mask_any.
Qed.

Lemma writeIndex_write (b : t F) x :
  wf b -> writeIndex (write b x) = ((writeIndex b + 1) mod size b)%Z.
Proof.
  intros (p & Hp & Hsz & Hmask & _). unfold write. cbn [writeIndex].
  by rewrite Hmask, Hsz, js_and_mask_any.
Qed.

Lemma writeBlock_fields (b : t F) xs :
  wf b ->
  writeIndex (writeBlock b xs)
    = ((writeIndex b + Z.of_nat (length xs)) mod size b)%Z
  /\ readIndex (writeBlock b xs) = readIndex b
  /\ size (writeBlock b xs) = size b
  /\ mask (writeBlock b xs) = mask b.
Proof.
  revert b. induction xs as [|x xs IH]; intros b Hb.
  - simpl. destruct Hb as (p & Hp & Hsz & Hmask & Hlen & Hwi).
    rewrite Z.add_0_r, Z.mod_small by lia. done.
  - change (writeBlock b (x :: xs)) with (writeBlock (write b x) xs).
    destruct (IH (write b x) (wf_write b x Hb)) as (-> & -> & -> & ->).
    rewrite writeIndex_write by done. cbn [size readIndex mask write].
    repeat split; try done.
    rewrite Zplus_mod_idemp_l. f_equal. simpl length. lia.
Qed.

Lemma read_zero_filled (b : t F) d :
  wf b -> Forall (fun x => x = of_Z 0) (buffer b) -> read b d = of_Z 0.
Proof.
  intros Hb Hz. rewrite read_index by done.
  destruct Hb as (p & Hp & Hsz & Hmask & Hlen & Hwi).
  assert (0 < size b)%Z by (rewrite Hsz; apply Z.pow_pos_nonneg; lia).
  pose proof (Z.mod_pos_bound (writeIndex b - 1 - d) (size b) ltac:(lia)) as Hi.
  set (i := ((writeIndex b - 1 - d) mod size b)%Z) in *.
  rewrite <- (Z2Nat.id i) by lia. rewrite ta_get_nat.
  destruct (buffer b !! Z.to_nat i) as [x|] eqn:Hx.
  - simpl. rewrite Forall_lookup in Hz. by apply (Hz _ _ Hx).
  - apply lookup_ge_None in Hx. lia.
Qed.

(** X1 (CircularBuffer constructor and [nextPowerOfTwo]): the capacity of a
    new buffer is the least power of two that is at least the requested
    size, and 1 when the request is 0 or negative; the mask is the capacity
    minus one, the storage is zero-filled and has one slot per unit of
    capacity, both indices start at 0, nothing is available, and (for a
    capacity within the int32 range of [&]) every read returns 0. *)
Theorem constructor_capacity (n : Z) :
  let b := create (F:=F) n in
  (exists p, (0 <= p)%Z /\ size b = (2 ^ p)%Z
             /\ (n <= 2 ^ p)%Z /\ (0 < p -> 2 ^ (p - 1) < n)%Z)
  /\ (n <= 1 -> size b = 1)%Z
  /\ mask b = (size b - 1)%Z
  /\ buffer b = replicate (Z.to_nat (size b)) (of_Z 0)
  /\ writeIndex b = 0%Z /\ readIndex b = 0%Z
  /\ available b = 0%Z
  /\ ((n <= 2 ^ 30)%Z -> forall d, read b d = of_Z 0).
Proof.
  cbv zeta.
  destruct (nextPowerOfTwo_spec n) as (p & Hp & Heq & Hle & Hor).
  assert (size (create (F:=F) n) = (2 ^ p)%Z) as Hsz by exact Heq.
  assert (0 < 2 ^ p)%Z by (apply Z.pow_pos_nonneg; lia).
  split; [|split; [|repeat split]].
  - exists p. repeat split; try done.
    intros Hpos. destruct Hor as [Hlt | ->]; [|lia].
    replace (2 ^ p)%Z with (2 * 2 ^ (p - 1))%Z in Hlt; [lia|].
    rewrite <- Z.pow_succ_r by lia. f_equal. lia.
  - intros Hn. rewrite Hsz. destruct Hor as [Hlt | ->]; [|done].
    assert (2 ^ p < 2)%Z by lia.
    destruct (decide (p = 0%Z)) as [->|]; [done|].
    assert (2 ^ 1 <= 2 ^ p)%Z by (apply Z.pow_le_mono_r; lia). lia.
  - intros Hn d. apply read_zero_filled; [by apply wf_create|].
    apply Forall_replicate. done.
Qed.

(** X2 (CircularBuffer.read): the read offset is taken modulo the capacity.
    For an integer offset of magnitude at most 2^52, negative or beyond the
    capacity, the difference [writeIndex - 1 - offset] is below 2^53 in
    magnitude, so the subtraction is exact on binary64, and the read never
    fails: it returns the slot of the offset reduced modulo the capacity.
    Two such offsets that differ by a multiple of the capacity read the
    same slot. *)
Theorem read_offset_wraps (b : t F) (d k : Z) :
  wf b ->
  (Z.abs d <= 2 ^ 52)%Z ->
  (Z.abs (d + k * size b) <= 2 ^ 52)%Z ->
  (Z.abs (writeIndex b - 1 - d) < 2 ^ 53)%Z
  /\ (Z.abs (writeIndex b - 1 - (d + k * size b)) < 2 ^ 53)%Z
  /\ read b (d + k * size b) = read b d
  /\ read b d = ta_get (buffer b) ((writeIndex b - 1 - d) mod size b)%Z.
Proof.
  intros Hb Hd Hdk.
  assert (0 <= writeIndex b < 2 ^ 30 + 1)%Z as Hwi.
  { destruct Hb as (p & Hp & Hsz & _ & _ & Hw).
    assert (2 ^ p <= 2 ^ 30)%Z by (apply Z.pow_le_mono_r; lia). lia. }
  split; [lia|]. split; [lia|]. split; [|by apply read_index].
  rewrite !read_index by done. f_equal.
  replace (writeIndex b - 1 - (d + k * size b))%Z
    with (writeIndex b - 1 - d + (- k) * size b)%Z by lia.
  apply Z_mod_plus_full.
Qed.

(** X3 (CircularBuffer.available with write / writeBlock): every written
    sample raises [available()] by one modulo the capacity, and nothing
    lowers it, since no method advances the read index: after a whole
    capacity of writes it reports the value it had before them. *)
Theorem available_counts_writes (b : t F) (xs : list F) :
  wf b ->
  available (writeBlock b xs)
    = ((available b + Z.of_nat (length xs)) mod size b)%Z
  /\ (Z.of_nat (length xs) = size b ->
      available (writeBlock b xs) = available b).
Proof.
  intros Hb.
  destruct (writeBlock_fields b xs Hb) as (Hwi & Hri & Hsz & Hmask).
  assert (forall c : t F, wf c ->
            available c = ((writeIndex c - readIndex c) mod size c)%Z) as Hav.
  { intros c (p & Hp & Hs & Hm & _). unfold available.
    by rewrite Hm, Hs, js_and_mask_any. }
  assert (available (writeBlock b xs)
          = ((available b + Z.of_nat (length xs)) mod size b)%Z) as Heq.
  { rewrite (Hav _ (wf_writeBlock b xs Hb)), (Hav b Hb), Hwi, Hri, Hsz.
    rewrite Zminus_mod_idemp_l, Zplus_mod_idemp_l. f_equal. lia. }
  split; [exact Heq|]. intros Hfull. rewrite Heq, Hfull.
  destruct Hb as (p & Hp & Hs & Hm & Hlen & Hw).
  assert (0 < size b)%Z by (rewrite Hs; apply Z.pow_pos_nonneg; lia).
  rewrite <- (Z.mul_1_l (size b)) at 1. rewrite Z_mod_plus_full.
  unfold available. rewrite Hm, Hs, js_and_mask_any by done.
  rewrite Z.mod_mod; [done|]. rewrite <- Hs. lia.
Qed.

(** X4 (CircularBuffer.clear): clearing keeps the capacity and the shape
    invariant, leaves nothing available, and makes every read return 0
    whatever was written before. *)
Theorem clear_empties (b : t F) :
  wf b ->
  wf (clear b) /\ size (clear b) = size b
  /\ available (clear b) = 0%Z
  /\ forall d, read (clear b) d = of_Z 0.
Proof.
  intros Hb.
  assert (wf (clear b)) as Hc.
  { destruct Hb as (p & Hp & Hs & Hm & Hlen & Hw). exists p.
    assert (0 < 2 ^ p)%Z by (apply Z.pow_pos_nonneg; lia).
    unfold clear; cbn [size mask buffer writeIndex].
    rewrite length_replicate. repeat split; try done; lia. }
  repeat split; try done.
  intros d. apply read_zero_filled; [done|].
  apply Forall_replicate. done.
Qed.

(** X5 (CircularBuffer.read after writeBlock on a new buffer): an offset that
    reaches back before the first written sample, and stays within the
    capacity, reads 0: the history before the start is silence. *)
Theorem history_before_start_is_silence (n : Z) (xs : list F) (j : nat) :
  (n <= 2 ^ 30)%Z -> (length xs <= j)%nat ->
  (Z.of_nat j < size (create (F:=F) n))%Z ->
  read (writeBlock (create n) xs) (Z.of_nat j) = of_Z 0.
Proof.
  intros Hn Hj Hsz.
  rewrite read_writeBlock_old; [|by apply wf_create|done|done].
  apply read_zero_filled; [by apply wf_create|].
  apply Forall_replicate. done.
Qed.
End RingFacts.

Lemma read_offset_wraps_witness :
  CircularBuffer.read (CircularBuffer.writeBlock (CircularBuffer.create 4)
                         [1; 2; 3]%R) (1 + (-3) * 4)
  = 2%R.
Proof.
  destruct (read_offset_wraps
              (CircularBuffer.writeBlock (CircularBuffer.create (F:=R) 4) [1; 2; 3]%R)
              1 (-3)) as (_ & _ & H & _).
  - apply wf_writeBlock, wf_create. lia.
  - vm_compute. discriminate.
  - vm_compute. discriminate.
  - cbn [CircularBuffer.size CircularBuffer.writeBlock] in H.
    etransitivity; [exact H|]. reflexivity.
Defined.

Lemma available_counts_writes_witness :
  CircularBuffer.available
    (CircularBuffer.writeBlock (CircularBuffer.create 4) [1; 2; 3; 4; 5]%R)
  = 1%Z.
Proof.
  destruct (available_counts_writes (CircularBuffer.create (F:=R) 4)
              [1; 2; 3; 4; 5]%R) as [H _].
  - apply wf_create. lia.
  - etransitivity; [exact H|]. reflexivity.
Defined.

Lemma clear_empties_witness :
  CircularBuffer.read
    (CircularBuffer.clear
       (CircularBuffer.writeBlock (CircularBuffer.create 4) [1; 2; 3]%R)) 1
  = 0%R.
Proof.
  destruct (clear_empties
              (CircularBuffer.writeBlock (CircularBuffer.create (F:=R) 4)
                 [1; 2; 3]%R)) as (_ & _ & _ & H).
  - apply wf_writeBlock, wf_create. lia.
  - exact (H 1%Z).
Defined.

Lemma history_before_start_is_silence_witness :
  CircularBuffer.read
    (CircularBuffer.writeBlock (CircularBuffer.create 4) [1]%R) 2 = 0%R.
Proof.
  change 2%Z with (Z.of_nat 2). change 0%R with (of_Z (F:=R) 0).
  apply (history_before_start_is_silence (F:=R) 4 [1%R] 2).
  - lia.
  - simpl. lia.
  - vm_compute. reflexivity.
Defined.

(** ** The adaptive filter: shape, indices and reference history *)
Section NlmsShape.
Context {F : Type} {N : Number F}.
Import NLMS.

(** X6 (NLMSProcessor.process): the output has one sample per reference
    sample, whatever the length of the microphone block; a processor in
    shape stays in shape, and its write index advances by the block length
    modulo the filter length. *)
Theorem process_keeps_shape c (s : t F) (ref mic : list F) (a : bool) :
  wf c s ->
  let res := process c s ref mic a in
  length (snd res) = length ref
  /\ wf c (fst res)
  /\ writeIndex (fst res)
     = ((writeIndex s + Z.of_nat (length ref)) mod filterLength c)%Z.
Proof.
  intros Hs res. subst res. rewrite process_run.
  rewrite length_run, length_samples_of.
  split; [done|]. split; [by apply wf_run|].
  by rewrite run_writeIndex, length_samples_of.
Qed.

(** X7 (NLMSProcessor.process, delay line): after a block, the delay line
    holds the reference samples of the block newest first: at the next
    sample, tap [i + 1] of the filter reads the reference sample [i]
    positions before the end of the block (as stored in the Float32Array),
    for every such sample that still fits the filter length. *)
Theorem delay_line_holds_block c (s : t F) (ref mic : list F) (a : bool)
    (r' : F) (i : nat) (x : F) :
  wf c s -> (Z.of_nat i + 1 < filterLength c)%Z ->
  rev ref !! i = Some x ->
  let s' := fst (process c s ref mic a) in
  refVector c (store s' r') !! 0%nat = Some (fround r')
  /\ refVector c (store s' r') !! S i = Some (fround x).
Proof.
  intros Hs Hi Hx s'. subst s'. rewrite process_run. split.
  - apply refVector_head. by apply wf_run.
  - apply run_history; [done|done|]. by rewrite fst_samples_of.
Qed.
End NlmsShape.

Lemma process_keeps_shape_witness :
  length (snd (NLMS.process two_tap_config two_tap_state [5; 6; 7]%R [7]%R false))
  = 3%nat.
Proof.
  assert (NLMS.wf two_tap_config two_tap_state) as Hwf.
  { unfold NLMS.wf. simpl. lia. }
  destruct (process_keeps_shape two_tap_config two_tap_state
              [5; 6; 7]%R [7]%R false Hwf) as [H _].
  exact H.
Defined.

Lemma delay_line_holds_block_witness :
  NLMS.refVector two_tap_config
    (NLMS.store (fst (NLMS.process two_tap_config two_tap_state
                        [5; 6]%R [7; 8]%R true)) 9%R) !! 1%nat
  = Some 6%R.
Proof.
  assert (NLMS.wf two_tap_config two_tap_state) as Hwf.
  { unfold NLMS.wf. simpl. lia. }
  destruct (delay_line_holds_block two_tap_config two_tap_state
              [5; 6]%R [7; 8]%R true 9%R 0 6%R Hwf) as [_ H].
  - simpl. lia.
  - reflexivity.
  - exact H.
Defined.

(** ** The adaptive filter on binary64: NaN never leaves *)
Section NanFilter.
Open Scope float_scope.
Import NLMS.

Lemma add_nan_l (x : float) : nan + x = nan.
Proof. apply Prim2SF_inj. rewrite add_spec. reflexivity. Qed.

Lemma add_nan_r (x : float) : x + nan = nan.
Proof.
  apply Prim2SF_inj. rewrite add_spec.
  change (Prim2SF nan) with S754_nan. by destruct (Prim2SF x).
Qed.

Lemma mul_nan_l (x : float) : nan * x = nan.
Proof. apply Prim2SF_inj. rewrite mul_spec. reflexivity. Qed.

Lemma mul_nan_r (x : float) : x * nan = nan.
Proof.
  apply Prim2SF_inj. rewrite mul_spec.
  change (Prim2SF nan) with S754_nan. by destruct (Prim2SF x).
Qed.

Lemma sub_nan_r (x : float) : x - nan = nan.
Proof.
  apply Prim2SF_inj. rewrite sub_spec.
  change (Prim2SF nan) with S754_nan. by destruct (Prim2SF x).
Qed.

Lemma run_inv (P : t float -> Prop) c a (s : t float) l :
  P s -> (forall s r m, P s -> P (fst (process_step c a s r m))) ->
  P (fst (run c a s l)).
Proof.
  intros Hs Hstep. revert s Hs. induction l as [|rm l IH]; intros s Hs; [done|].
  rewrite run_cons_fst. by apply IH, Hstep.
Qed.

Lemma fold_acc_nan (l : list (float * float)) :
  fold_left (fun acc wx => (acc + fst wx * snd wx)%num) l nan = nan.
Proof.
  induction l as [|wx l IH]; [done|]. cbn [fold_left].
  cbn [add mul IEEE.number]. by rewrite add_nan_l.
Qed.

Lemma fold_elem_nan (l : list (float * float)) (i : nat) x acc :
  l !! i = Some (nan, x) ->
  fold_left (fun acc wx => (acc + fst wx * snd wx)%num) l acc = nan.
Proof.
  revert i acc. induction l as [|wx l IH]; intros [|i] acc Hi; try done.
  - simpl in Hi. injection Hi as ->. cbn [fold_left fst snd].
    cbn [add mul IEEE.number]. rewrite mul_nan_l, add_nan_r.
    apply fold_acc_nan.
  - cbn [fold_left]. by apply (IH i).
Qed.

(** One sample through a filter one of whose weights is NaN. *)
Lemma process_step_nan_weight c a (s : t float) r m (i : nat) :
  Z.of_nat (length (weights s)) = filterLength c ->
  weights s !! i = Some nan ->
  let res := process_step c a s r m in
  snd res = nan
  /\ Z.of_nat (length (weights (fst res))) = filterLength c
  /\ weights (fst res) !! i = Some nan.
Proof.
  intros Hlen Hw res. subst res.
  assert (i < length (weights s))%nat as Hi by (by eapply lookup_lt_Some).
  assert (exists x, refVector c (store s r) !! i = Some x) as [x Hx].
  { apply lookup_lt_is_Some_2. rewrite length_refVector. lia. }
  assert (calculateFilterOutput c (store s r) = nan) as Hout.
  { rewrite calculateFilterOutput_zip by done.
    apply (fold_elem_nan _ i x). rewrite lookup_zip_with.
    change (weights (store s r)) with (weights s). by rewrite Hw, Hx. }
  rewrite process_step_store. cbv zeta. rewrite Hout.
  cbn [sub IEEE.number]. rewrite sub_nan_r. cbn [fst snd weights].
  split; [done|]. destruct a; [|done].
  pose proof (updateWeights_zip c (store s r) nan Hlen) as Hup.
  cbv zeta in Hup. destruct Hup as (Hws & _). rewrite Hws. split.
  - rewrite length_zip_with, length_refVector.
    change (weights (store s r)) with (weights s). lia.
  - rewrite lookup_zip_with.
    change (weights (store s r)) with (weights s). rewrite Hw, Hx.
    cbn [mbind option_bind add mul fround IEEE.number].
    by rewrite mul_nan_r, add_nan_l.
Qed.

Lemma run_nan_weight c a (s : t float) l (i : nat) :
  Z.of_nat (length (weights s)) = filterLength c ->
  weights s !! i = Some nan ->
  snd (run c a s l) = replicate (length l) nan
  /\ weights (fst (run c a s l)) !! i = Some nan.
Proof.
  revert s. induction l as [|rm l IH]; intros s Hlen Hw; [done|].
  rewrite run_cons.
  destruct (process_step_nan_weight c a s (fst rm) (snd rm) i Hlen Hw)
    as (He & Hlen' & Hw').
  destruct (process_step c a s (fst rm) (snd rm)) as [s1 e].
  cbn [fst snd] in *. subst e.
  destruct (IH s1 Hlen' Hw') as (Hes & Hws).
  destruct (run c a s1 l) as [s2 es]. cbn [fst snd] in *.
  split; [|done]. rewrite Hes. done.
Qed.

(** X8 (NLMSProcessor.process on binary64): a NaN weight is permanent.
    Once any weight of the filter is NaN, every output sample of every
    later block is NaN, with adaptation on or off, and that weight is
    still NaN after the block: the filter does not recover by itself. *)
Theorem nan_weight_is_permanent c (s : t float) (ref mic : list float)
    (a : bool) (i : nat) :
  Z.of_nat (length (weights s)) = filterLength c ->
  weights s !! i = Some nan ->
  let res := process c s ref mic a in
  snd res = replicate (length ref) nan
  /\ Z.of_nat (length (weights (fst res))) = filterLength c
  /\ weights (fst res) !! i = Some nan.
Proof.
  intros Hlen Hw res. subst res. rewrite process_run.
  destruct (run_nan_weight c a s (samples_of ref mic) i Hlen Hw) as (Hes & Hws).
  rewrite length_samples_of in Hes. repeat split; try done.
  apply (run_inv (fun s => Z.of_nat (length (weights s)) = filterLength c));
    [done|].
  intros s0 r m Hs0. rewrite process_step_store. cbv zeta. cbn [fst weights].
  destruct a; [|done].
  pose proof (updateWeights_zip c (store s0 r)
                (m - calculateFilterOutput c (store s0 r))%num Hs0) as Hup.
  cbv zeta in Hup. destruct Hup as (-> & _).
  rewrite length_zip_with, length_refVector.
  change (weights (store s0 r)) with (weights s0). lia.
Qed.

Lemma adapt_keeps_all_nan c (s : t float) r m :
  Z.of_nat (length (weights s)) = filterLength c ->
  Forall (fun x : float => x = nan) (weights s) ->
  Z.of_nat (length (weights (fst (process_step c true s r m)))) = filterLength c
  /\ Forall (fun x : float => x = nan) (weights (fst (process_step c true s r m))).
Proof.
  intros Hlen Hall. rewrite process_step_store. cbv zeta. cbn [fst weights].
  pose proof (updateWeights_zip c (store s r)
                (m - calculateFilterOutput c (store s r))%num Hlen) as Hup.
  cbv zeta in Hup. destruct Hup as (-> & _). split.
  - rewrite length_zip_with, length_refVector.
    change (weights (store s r)) with (weights s). lia.
  - apply Forall_lookup. intros k y Hy. rewrite lookup_zip_with in Hy.
    change (weights (store s r)) with (weights s) in Hy.
    destruct (weights s !! k) as [w|] eqn:Hw; [|done].
    destruct (refVector c (store s r) !! k) as [x|]; [|done].
    simpl in Hy. injection Hy as <-.
    rewrite Forall_lookup in Hall.
    rewrite (Hall _ _ Hw). by rewrite mul_nan_r, add_nan_l.
Qed.

Lemma adapt_on_nan_sample c (s : t float) r :
  Z.of_nat (length (weights s)) = filterLength c ->
  Z.of_nat (length (weights (fst (process_step c true s r nan)))) = filterLength c
  /\ Forall (fun x : float => x = nan) (weights (fst (process_step c true s r nan))).
Proof.
  intros Hlen. rewrite process_step_store. cbv zeta. cbn [fst weights].
  cbn [sub IEEE.number]. rewrite sub_nan_l.
  pose proof (updateWeights_zip c (store s r) nan Hlen) as Hup.
  cbv zeta in Hup. destruct Hup as (-> & _). split.
  - rewrite length_zip_with, length_refVector.
    change (weights (store s r)) with (weights s). lia.
  - apply Forall_lookup. intros k y Hy. rewrite lookup_zip_with in Hy.
    destruct (weights (store s r) !! k) as [w|]; [|done].
    destruct (refVector c (store s r) !! k) as [x|]; [|done].
    simpl in Hy. injection Hy as <-.
    by rewrite mul_nan_r, mul_nan_l, add_nan_r.
Qed.

(** X9 (NLMSProcessor.process on binary64, adapting): one NaN microphone
    sample in a block that is processed with adaptation enabled leaves
    every weight of the filter NaN at the end of the block. *)
Theorem nan_sample_poisons_weights c (s : t float) (ref mic : list float)
    (j : nat) :
  Z.of_nat (length (weights s)) = filterLength c ->
  (j < length ref)%nat -> mic !! j = Some nan ->
  weights (fst (process c s ref mic true))
  = replicate (Z.to_nat (filterLength c)) nan.
Proof.
  intros Hlen Hj Hnan. rewrite process_run.
  assert (samples_of ref mic !! j = Some (ta_get ref (Z.of_nat j), nan)) as Hs.
  { rewrite samples_of_lookup by done. by rewrite (ta_get_nat mic), Hnan. }
  rewrite <- (take_drop_middle _ _ _ Hs).
  set (l1 := take j (samples_of ref mic)).
  set (l2 := drop (S j) (samples_of ref mic)).
  change (l1 ++ (ta_get ref (Z.of_nat j), nan) :: l2)
    with (l1 ++ [(ta_get ref (Z.of_nat j), nan)] ++ l2).
  rewrite app_assoc.
  assert (forall l (s0 : t float),
            Z.of_nat (length (weights s0)) = filterLength c ->
            Forall (fun x : float => x = nan) (weights s0) ->
            Z.of_nat (length (weights (fst (run c true s0 l)))) = filterLength c
            /\ Forall (fun x : float => x = nan) (weights (fst (run c true s0 l)))) as Hkeep.
  { intros l s0 H1 H2.
    apply (run_inv (fun s => Z.of_nat (length (weights s)) = filterLength c
                             /\ Forall (fun x : float => x = nan) (weights s))); [done|].
    intros s1 r m [H3 H4]. by apply adapt_keeps_all_nan. }
  assert (fst (run c true s ((l1 ++ [(ta_get ref (Z.of_nat j), nan)]) ++ l2))
          = fst (run c true
                   (fst (run c true s (l1 ++ [(ta_get ref (Z.of_nat j), nan)])))
                   l2)) as ->.
  { rewrite run_app. destruct (run c true s (l1 ++ _)) as [s1 es1].
    cbn [fst]. by destruct (run c true s1 l2). }
  rewrite run_snoc_fst. cbn [fst snd].
  assert (Z.of_nat (length (weights (fst (run c true s l1)))) = filterLength c)
    as Hlen1.
  { apply (run_inv (fun s => Z.of_nat (length (weights s)) = filterLength c));
      [done|].
    intros s0 r m Hs0. rewrite process_step_store. cbv zeta. cbn [fst weights].
    pose proof (updateWeights_zip c (store s0 r)
                  (m - calculateFilterOutput c (store s0 r))%num Hs0) as Hup.
    cbv zeta in Hup. destruct Hup as (-> & _).
    rewrite length_zip_with, length_refVector.
    change (weights (store s0 r)) with (weights s0). lia. }
  destruct (adapt_on_nan_sample c (fst (run c true s l1))
              (ta_get ref (Z.of_nat j)) Hlen1) as [H1 H2].
  destruct (Hkeep l2 _ H1 H2) as [H3 H4].
  apply list_eq. intros k.
  destruct (weights (fst (run c true _ l2)) !! k) as [w|] eqn:Hw.
  - rewrite Forall_lookup in H4.
    rewrite (H4 _ _ Hw). symmetry. apply lookup_replicate_2.
    apply lookup_lt_Some in Hw. lia.
  - symmetry. apply lookup_ge_None. rewrite length_replicate.
    apply lookup_ge_None in Hw. lia.
Qed.
End NanFilter.

Lemma nan_weight_is_permanent_witness :
  snd (NLMS.process
         {| NLMS.filterLength := 2; NLMS.stepSize := 0.5%float;
            NLMS.regularization := 0.25%float; NLMS.leakageFactor := 1%float |}
         {| NLMS.weights := [0; nan]%float; NLMS.delayLine := [0; 0]%float;
            NLMS.powerEstimate := 1%float; NLMS.writeIndex := 0 |}
         [0.5; 0.25; 0.125]%float [1; 1; 1]%float false)
  = [nan; nan; nan]%float.
Proof.
  refine (proj1 (nan_weight_is_permanent _ _ _ _ false 1 _ _));
    reflexivity.
Defined.

Lemma nan_sample_poisons_weights_witness :
  NLMS.weights
    (fst (NLMS.process
            {| NLMS.filterLength := 2; NLMS.stepSize := 0.5%float;
               NLMS.regularization := 0.25%float; NLMS.leakageFactor := 1%float |}
            {| NLMS.weights := [0; 0]%float; NLMS.delayLine := [0; 0]%float;
               NLMS.powerEstimate := 1%float; NLMS.writeIndex := 0 |}
            [0.5; 0.25; 0.125]%float [1; nan; 1]%float true))
  = [nan; nan]%float.
Proof.
  refine (nan_sample_poisons_weights _ _ _ _ 1 _ _ _).
  - reflexivity.
  - simpl. lia.
  - reflexivity.
Defined.

(** ** The adaptive filter in real arithmetic: pass-through cases *)
Section NearEnd.
Import NLMS.

Lemma leak_only_gain (k g : R) (w : list R) n :
  length w = n ->
  zip_with (fun w x => (k * w + g * x)%R) w (replicate n 0%R)
  = (fun w => (k * w)%R) <$> w.
Proof.
  revert n. induction w as [|x w IH]; intros [|n] Hn; try done.
  simpl in *. rewrite IH by lia. f_equal. lra.
Qed.

(** One microphone sample over a silent reference sample, through a
    processor whose delay line is silent. *)
Lemma process_step_quiet c a (s : t R) (m : R) :
  wf c s -> silent (delayLine s) -> (0 <= powerEstimate s)%R ->
  let s' := fst (process_step c a s 0%R m) in
  snd (process_step c a s 0%R m) = m
  /\ wf c s' /\ silent (delayLine s') /\ (0 <= powerEstimate s')%R
  /\ weights s' = (if a then (fun w => (leakageFactor c * w)%R) <$> weights s
                   else weights s).
Proof.
  intros Hwf Hs Hp s'. subst s'.
  pose proof (wf_process_step c a s 0%R m Hwf) as Hwf'.
  pose proof Hwf as (HL & Hw & Hd & Hi).
  pose proof (silent_store s Hs) as Hs1.
  assert (calculateFilterOutput c (store s 0%R) = 0%R) as Hout.
  { rewrite calculateFilterOutput_dot by done.
    rewrite refVector_silent by done. apply dot_zero. }
  revert Hwf'. rewrite process_step_store. cbv zeta. rewrite Hout. ideal.
  replace (m - 0)%R with m by lra.
  cbn [fst snd delayLine weights powerEstimate]. intros Hwf'.
  split; [done|]. split; [done|]. destruct a; [|done].
  pose proof (updateWeights_zip c (store s 0%R) m Hw) as Hup. cbv zeta in Hup.
  destruct Hup as (Hws & Hpe & Hdl & _). ideal.
  rewrite Hdl. split; [done|]. split.
  - rewrite Hpe. rewrite ta_get_silent by done.
    change (powerEstimate (store s 0%R)) with (powerEstimate s). lra.
  - rewrite Hws. rewrite refVector_silent by done.
    apply leak_only_gain. change (weights (store s 0%R)) with (weights s). lia.
Qed.

Lemma run_quiet c a (s : t R) (mic : list R) :
  wf c s -> silent (delayLine s) -> (0 <= powerEstimate s)%R ->
  let res := run c a s ((fun m => (0%R, m)) <$> mic) in
  snd res = mic
  /\ wf c (fst res) /\ silent (delayLine (fst res))
  /\ (0 <= powerEstimate (fst res))%R
  /\ weights (fst res)
     = (if a then (fun w => (leakageFactor c ^ length mic * w)%R) <$> weights s
        else weights s).
Proof.
  revert s. induction mic as [|m mic IH]; intros s Hwf Hs Hp res; subst res.
  - change (run c a s ((fun m => (0%R, m)) <$> [])) with (s, @nil R).
    cbn [fst snd]. repeat (split; [done|]). destruct a; [|done].
    rewrite <- (list_fmap_id (weights s)) at 1.
    apply list_fmap_ext. intros _ w _. simpl. lra.
  - change ((fun m => (0%R, m)) <$> m :: mic)
      with ((0%R, m) :: ((fun m => (0%R, m)) <$> mic)).
    rewrite run_cons. cbn [fst snd].
    destruct (process_step_quiet c a s m Hwf Hs Hp) as (He & Hwf' & Hs' & Hp' & Hw').
    destruct (process_step c a s 0%R m) as [s' e]. cbn [fst snd] in *. subst e.
    destruct (IH s' Hwf' Hs' Hp') as (Hout & Hwf2 & Hsil & Hp2 & Hws).
    destruct (run c a s' ((fun m => (0%R, m)) <$> mic)) as [s'' es].
    cbn [fst snd] in *. ideal. split; [by rewrite Hout|].
    repeat (split; [done|]).
    rewrite Hws, Hw'. destruct a; [|done].
    rewrite <- list_fmap_compose. apply list_fmap_ext. intros _ w _.
    simpl. lra.
Qed.

Lemma zip_zeros (mic : list R) :
  zip (replicate (length mic) 0%R) mic = (fun m => (0%R, m)) <$> mic.
Proof.
  induction mic as [|m mic IH]; [done|].
  change (zip (replicate (length (m :: mic)) 0%R) (m :: mic))
    with ((0%R, m) :: zip (replicate (length mic) 0%R) mic).
  by rewrite IH.
Qed.

(** X10 (NLMSProcessor.process, near end only): while the reference is
    silent (a silent delay line and an all-zero reference block) the
    microphone block comes out unchanged, sample for sample.  The processor
    stays in shape with a silent delay line and a non-negative power
    estimate, so the same holds for the next block; the weights are
    multiplied by leakage^n when adapting and untouched otherwise.  In real
    arithmetic, with a positive regularization, which keeps the divisor of
    the normalised step away from zero. *)
Theorem near_end_passes_through c (s : t R) (mic : list R) (a : bool) :
  wf c s -> silent (delayLine s) ->
  (0 <= powerEstimate s)%R -> (0 < regularization c)%R ->
  let res := process c s (replicate (length mic) 0%R) mic a in
  snd res = mic
  /\ wf c (fst res) /\ silent (delayLine (fst res))
  /\ (0 <= powerEstimate (fst res))%R
  /\ weights (fst res)
     = (if a then (fun w => (leakageFactor c ^ length mic * w)%R) <$> weights s
        else weights s).
Proof.
  intros Hwf Hs Hp _ res. subst res.
  rewrite process_run, samples_of_zip by (by rewrite length_replicate).
  rewrite zip_zeros. by apply run_quiet.
Qed.

Lemma dot_silent_l (w x : list R) : silent w -> dot w x = 0%R.
Proof.
  revert x. induction w as [|y w IH]; intros [|z x] Hw; try done.
  apply Forall_cons in Hw as [-> Hw].
  change (dot (0%R :: w) (z :: x)) with (0 * z + dot w x)%R.
  rewrite IH by done. lra.
Qed.

Lemma run_zero_weights c (s : t R) (l : list (R * R)) :
  Z.of_nat (length (weights s)) = filterLength c ->
  silent (weights s) ->
  snd (run c false s l) = snd <$> l
  /\ weights (fst (run c false s l)) = weights s.
Proof.
  revert s. induction l as [|rm l IH]; intros s Hw Hz; [done|].
  rewrite run_cons.
  assert (snd (process_step c false s (fst rm) (snd rm)) = snd rm) as He.
  { rewrite process_step_store. cbv zeta. cbn [snd].
    rewrite calculateFilterOutput_dot by done.
    change (weights (store s (fst rm))) with (weights s).
    rewrite dot_silent_l by done. ideal. lra. }
  destruct (process_step_frozen c s (fst rm) (snd rm)) as [Hws _].
  destruct (process_step c false s (fst rm) (snd rm)) as [s1 e].
  cbn [fst snd] in *. subst e.
  destruct (IH s1) as (Hes & Hws'); [by rewrite Hws|by rewrite Hws|].
  destruct (run c false s1 l) as [s2 es]. cbn [fst snd] in *. ideal.
  split; [by rewrite Hes|]. by rewrite Hws'.
Qed.

(** X11 (NLMSProcessor.process, adaptation disabled on an untrained
    filter): with all weights at zero and adaptation off, the microphone
    block comes out unchanged whatever the reference block holds, and the
    weights stay at zero.  In real arithmetic. *)
Theorem untrained_frozen_filter_passes_through c (s : t R) (ref mic : list R) :
  wf c s -> silent (weights s) ->
  length mic = length ref ->
  snd (process c s ref mic false) = mic
  /\ wf c (fst (process c s ref mic false))
  /\ weights (fst (process c s ref mic false)) = weights s.
Proof.
  intros Hwf Hz Hlen. split; [|split; [by apply wf_process|]].
  - rewrite process_run, samples_of_zip by done.
    destruct (run_zero_weights c s (zip ref mic)) as [Hes Hws];
      [by destruct Hwf as (_ & ? & _)|done|].
    rewrite Hes. apply snd_zip. lia.
  - apply process_frozen.
Qed.

Lemma dot_axpy (k g : R) (w x : list R) :
  length w = length x ->
  dot (zip_with (fun w xi => (k * w + g * xi)%R) w x) x
  = (k * dot w x + g * dot x x)%R.
Proof.
  revert x. induction w as [|y w IH]; intros [|z x] Hlen; try done.
  - unfold dot, Rsum. simpl. lra.
  - change (dot (zip_with (fun w xi => (k * w + g * xi)%R) (y :: w) (z :: x))
              (z :: x))
      with ((k * y + g * z) * z
            + dot (zip_with (fun w xi => (k * w + g * xi)%R) w x) x)%R.
    change (dot (y :: w) (z :: x)) with (y * z + dot w x)%R.
    change (dot (z :: x) (z :: x)) with (z * z + dot x x)%R.
    rewrite IH by (simpl in Hlen; lia). lra.
Qed.

(** X12 (NLMSProcessor.updateWeights, a posteriori estimate): after an
    adapting step, the updated weights applied to the same reference vector
    x give leakage * (w . x) + mu' * e * (x . x), where e is the emitted
    error and mu' the normalised step of that sample; with a leakage of 1
    the error that is left on that vector is (1 - mu' * (x . x)) * e.  In
    real arithmetic, for a step whose divisor is not zero. *)
Theorem a_posteriori_estimate (c : Config R) (s : t R) (r m : R) :
  wf c s ->
  let x := refVector c (store s r) in
  let p' := (95 / 100 * powerEstimate s + 5 / 100 * r * r)%R in
  (p' * IZR (filterLength c) + regularization c <> 0)%R ->
  let mu' := (stepSize c / (p' * IZR (filterLength c) + regularization c))%R in
  let e := snd (process_step c true s r m) in
  let w' := weights (fst (process_step c true s r m)) in
  e = (m - dot (weights s) x)%R
  /\ dot w' x = (leakageFactor c * dot (weights s) x + mu' * e * dot x x)%R
  /\ (leakageFactor c = 1%R -> (m - dot w' x = (1 - mu' * dot x x) * e)%R).
Proof.
  intros Hwf x p' _ mu' e w'.
  pose proof Hwf as (HL & Hw & Hd & Hi).
  assert (ta_get (delayLine (store s r)) (writeIndex (store s r)) = r) as Hcur.
  { unfold store. cbn [delayLine writeIndex]. rewrite ta_get_set_eq by lia. done. }
  assert (e = (m - dot (weights s) x)%R) as He.
  { subst e. rewrite process_step_store. cbv zeta. cbn [snd].
    by rewrite calculateFilterOutput_dot. }
  assert (w' = zip_with (fun w xi => (leakageFactor c * w + mu' * e * xi)%R)
                 (weights s) x) as Hw'.
  { subst w' e. rewrite process_step_store. cbv zeta. cbn [fst snd weights].
    pose proof (updateWeights_zip c (store s r)
                  (m - calculateFilterOutput c (store s r))%num Hw) as Hup.
    cbv zeta in Hup. rewrite Hcur in Hup. destruct Hup as (Hws & _).
    exact Hws. }
  assert (dot w' x
          = (leakageFactor c * dot (weights s) x + mu' * e * dot x x)%R) as Hd'.
  { rewrite Hw'. apply dot_axpy. subst x. rewrite length_refVector. lia. }
  split; [exact He|]. split; [exact Hd'|].
  intros Hleak. rewrite Hd', Hleak.
  replace (dot (weights s) x) with (m - e)%R by lra. ring.
Qed.
End NearEnd.

Lemma near_end_passes_through_witness :
  snd (NLMS.process two_tap_config (System.nlmsProcessor two_tap_silent_system)
         (replicate 2 0%R) [7; 8]%R true)
  = [7; 8]%R.
Proof.
  destruct (near_end_passes_through two_tap_config
              (System.nlmsProcessor two_tap_silent_system) [7; 8]%R true)
    as [H _].
  - unfold NLMS.wf. simpl. lia.
  - repeat constructor.
  - simpl. lra.
  - simpl. lra.
  - exact H.
Defined.

Lemma untrained_frozen_filter_passes_through_witness :
  snd (NLMS.process two_tap_config
         {| NLMS.weights := [0; 0]%R; NLMS.delayLine := [3; 4]%R;
            NLMS.powerEstimate := 1%R; NLMS.writeIndex := 1 |}
         [5; 6]%R [7; 8]%R false)
  = [7; 8]%R.
Proof.
  destruct (untrained_frozen_filter_passes_through two_tap_config
              {| NLMS.weights := [0; 0]%R; NLMS.delayLine := [3; 4]%R;
                 NLMS.powerEstimate := 1%R; NLMS.writeIndex := 1 |}
              [5; 6]%R [7; 8]%R) as [H _].
  - unfold NLMS.wf. simpl. lia.
  - repeat constructor.
  - reflexivity.
  - exact H.
Defined.

(** [two_tap_state] on reference 5 and microphone 7: the divisor is
    2.2 * 2 + 0.000001. *)
Lemma a_posteriori_estimate_witness :
  snd (NLMS.process_step two_tap_config true two_tap_state 5%R 7%R)
  = (7 - dot (NLMS.weights two_tap_state)
             (NLMS.refVector two_tap_config (NLMS.store two_tap_state 5%R)))%R.
Proof.
  destruct (a_posteriori_estimate two_tap_config two_tap_state 5%R 7%R)
    as [H _].
  - unfold NLMS.wf. simpl. lia.
  - simpl. lra.
  - exact H.
Defined.

(** ** The double-talk detector: what each state does to adaptation *)
Section DetectorControl.
Context {F : Type} {N : Number F}.
Import DTD.

Lemma updateCorrelationBuffers_powers c (d : t F) near far :
  nearEndPower (updateCorrelationBuffers c d near far) = nearEndPower d
  /\ farEndPower (updateCorrelationBuffers c d near far) = farEndPower d
  /\ crossPower (updateCorrelationBuffers c d near far) = crossPower d.
Proof.
  unfold updateCorrelationBuffers.
  apply (fold_left_inv
           (fun d' : t F => nearEndPower d' = nearEndPower d
                            /\ farEndPower d' = farEndPower d
                            /\ crossPower d' = crossPower d)); [done|].
  intros d' i H. exact H.
Qed.

Lemma updateState_powers c (d : t F) b :
  nearEndPower (updateState c d b) = nearEndPower d
  /\ farEndPower (updateState c d b) = farEndPower d
  /\ crossPower (updateState c d b) = crossPower d.
Proof.
  unfold updateState.
  destruct (state d); repeat (match goal with
                              | |- context [if ?x then _ else _] => destruct x
                              end); done.
Qed.

Lemma process_stages c (d : t F) near far :
  process c d near far
  = let d2 := updateCorrelationBuffers c (updatePowerEstimates d near far)
                near far in
    let d3 := updateState c d2 (detectDoubleTalk c d2) in
    (d3, match state d3 with DOUBLE_TALK | HOLD => false | _ => true end).
Proof. reflexivity. Qed.

Lemma stages_state c (d : t F) near far :
  state (updateCorrelationBuffers c (updatePowerEstimates d near far) near far)
  = state d
  /\ hangoverCounter
       (updateCorrelationBuffers c (updatePowerEstimates d near far) near far)
     = hangoverCounter d.
Proof.
  destruct (updateCorrelationBuffers_state c (updatePowerEstimates d near far)
              near far) as [-> ->].
  apply updatePowerEstimates_state.
Qed.

(** X13 (DoubleTalkDetector.process in DOUBLE_TALK): a detector that is in
    DOUBLE_TALK never enables adaptation for the next block, whatever the
    signals: it either stays in DOUBLE_TALK or moves to HOLD with the
    counter reloaded to the hangover time. *)
Theorem double_talk_blocks_adaptation c (d : t F) (near far : list F) :
  state d = DOUBLE_TALK ->
  let res := process c d near far in
  snd res = false
  /\ (state (fst res) = DOUBLE_TALK
      \/ (state (fst res) = HOLD
          /\ hangoverCounter (fst res) = hangoverTime c)).
Proof.
  intros Hst res. subst res. rewrite process_stages. cbv zeta.
  destruct (stages_state c d near far) as [Hs Hh].
  set (d2 := updateCorrelationBuffers c _ near far) in *. clearbody d2.
  unfold updateState. rewrite Hs, Hst.
  destruct (detectDoubleTalk c d2); cbn [negb fst snd state set_state];
    rewrite ?Hs, ?Hst; auto.
Qed.

(** X14 (DoubleTalkDetector.process in HOLD): each call, whatever the block
    length and the signals, lowers the hangover counter by exactly one.
    Adaptation is enabled for the block exactly when the lowered counter is
    at most zero; the detector then leaves HOLD for SINGLE_TALK or IDLE
    even if the block was detected as double talk.  Otherwise it stays in
    HOLD or returns to DOUBLE_TALK. *)
Theorem hold_counts_calls c (d : t F) (near far : list F) :
  state d = HOLD ->
  let h := (hangoverCounter d - of_Z 1)%num in
  let res := process c d near far in
  hangoverCounter (fst res) = h
  /\ snd res = (h <=? of_Z 0)%num
  /\ ((h <=? of_Z 0)%num = true ->
      state (fst res) = SINGLE_TALK \/ state (fst res) = IDLE)
  /\ ((h <=? of_Z 0)%num = false ->
      state (fst res) = HOLD \/ state (fst res) = DOUBLE_TALK).
Proof.
  intros Hst h res. subst res h. rewrite process_stages. cbv zeta.
  destruct (stages_state c d near far) as [Hs Hh].
  set (d2 := updateCorrelationBuffers c _ near far) in *. clearbody d2.
  unfold updateState. rewrite Hs, Hst, Hh.
  destruct (hangoverCounter d - of_Z 1 <=? of_Z 0)%num.
  - destruct (ltb _ (farEndPower d2)); cbn [fst snd state hangoverCounter set_state];
      repeat split; auto; done.
  - destruct (detectDoubleTalk c d2);
      cbn [fst snd state hangoverCounter set_state]; repeat split; auto; done.
Qed.
End DetectorControl.

Lemma double_talk_blocks_adaptation_witness :
  snd (DTD.process DTD.defaultConfig after_double_talk far_block far_block)
  = false.
Proof.
  refine (proj1 (double_talk_blocks_adaptation DTD.defaultConfig
                   after_double_talk far_block far_block _)).
  vm_compute. reflexivity.
Defined.

Lemma hold_counts_calls_witness :
  DTD.hangoverCounter
    (fst (DTD.process DTD.defaultConfig
            (DTD.set_state (DTD.create DTD.defaultConfig) DTD.HOLD 2%float)
            far_block far_block))
  = (2 - 1)%float.
Proof.
  refine (proj1 (hold_counts_calls DTD.defaultConfig
                   (DTD.set_state (DTD.create DTD.defaultConfig) DTD.HOLD 2%float)
                   far_block far_block _)).
  reflexivity.
Defined.

(** ** The detector on a silent far end, in real arithmetic *)
Section DetectorIdle.
Import DTD.

Lemma far_sum_silent (near far : list R) (n : nat) :
  silent far ->
  snd (fst (fold_left
              (fun '(np, fp, cp) i =>
                 (np + ta_get near i * ta_get near i,
                  fp + ta_get far i * ta_get far i,
                  cp + ta_get near i * ta_get far i)%num)
              (seqZ 0 (Z.of_nat n)) (of_Z 0, of_Z 0, of_Z 0)))
  = 0%R.
Proof.
  intros Hf.
  set (P := fun (_ : nat) (acc : R * R * R) => snd (fst acc) = 0%R).
  apply (for_loop_ind P); subst P; simpl; [done|].
  intros k [[np fp] cp] _ Hfp. simpl in *. subst fp.
  rewrite ta_get_silent by done. lra.
Qed.

Lemma farEndPower_silent (d : t R) (near far : list R) :
  silent far ->
  farEndPower (updatePowerEstimates d near far)
  = (95 / 100 * farEndPower d)%R.
Proof.
  intros Hf. unfold updatePowerEstimates.
  pose proof (far_sum_silent near far (length near) Hf) as Hsum.
  destruct (fold_left _ _ _) as [[np fp] cp]. simpl in Hsum. subst fp.
  cbn [farEndPower]. ideal. unfold Rdiv. lra.
Qed.

(** A detector in IDLE whose updated far-end power estimate is at most
    1e-6 is left alone by [updateState]. *)
Lemma process_idle_low_far c (d : t R) (near far : list R) :
  state d = IDLE ->
  (farEndPower (updatePowerEstimates d near far) <= 1 / 1000000)%R ->
  snd (process c d near far) = true
  /\ state (fst (process c d near far)) = IDLE
  /\ farEndPower (fst (process c d near far))
     = farEndPower (updatePowerEstimates d near far).
Proof.
  intros Hst Hp. rewrite process_stages. cbv zeta.
  destruct (stages_state c d near far) as [Hs Hh].
  destruct (updateCorrelationBuffers_powers c (updatePowerEstimates d near far)
              near far) as (_ & Hfp & _).
  set (d2 := updateCorrelationBuffers c _ near far) in *. clearbody d2.
  unfold updateState. rewrite Hs, Hst. ideal.
  assert (Ideal.Rltb (1 / 1000000) (farEndPower d2) = false) as ->.
  { apply Rltb_false. by rewrite Hfp. }
  cbn [fst snd]. by rewrite Hs, Hst, Hfp.
Qed.

(** X15 (DoubleTalkDetector.process, idle on a silent far end): a detector
    in IDLE whose far-end power estimate is between 0 and 1e-6, as after
    construction, stays in IDLE on a block whose far end is all zeros, for
    any microphone block of the same non-zero length; it enables
    adaptation, and the estimate stays in that range (it shrinks to 0.95 of
    its value), so this holds block after block.  In real arithmetic. *)
Theorem idle_on_silent_far_end c (d : t R) (near : list R) :
  state d = IDLE ->
  (0 <= farEndPower d <= 1 / 1000000)%R ->
  near <> [] ->
  let res := process c d near (replicate (length near) 0%R) in
  snd res = true
  /\ state (fst res) = IDLE
  /\ farEndPower (fst res) = (95 / 100 * farEndPower d)%R
  /\ (0 <= farEndPower (fst res) <= 1 / 1000000)%R.
Proof.
  intros Hst Hp _ res. subst res.
  set (far := replicate (length near) 0%R).
  assert (silent far) as Hf by (by apply Forall_replicate).
  pose proof (farEndPower_silent d near far Hf) as Hfar.
  destruct (process_idle_low_far c d near far Hst) as (Ha & Hs & Hfp).
  { rewrite Hfar. lra. }
  rewrite Ha, Hs, Hfp, Hfar. repeat split; lra.
Qed.
End DetectorIdle.

Lemma idle_on_silent_far_end_witness :
  DTD.state
    (fst (DTD.process DTD.defaultConfig (DTD.create DTD.defaultConfig)
            [7; 8]%R (replicate 2 0%R)))
  = DTD.IDLE.
Proof.
  destruct (idle_on_silent_far_end DTD.defaultConfig
              (DTD.create DTD.defaultConfig) [7; 8]%R) as (_ & H & _).
  - reflexivity.
  - simpl. lra.
  - discriminate.
  - exact H.
Defined.

(** ** The detector on binary64: a NaN far-end power estimate *)
Section DetectorNan.
Open Scope float_scope.
Import DTD.

Lemma div_nan_l (x : float) : nan / x = nan.
Proof. apply Prim2SF_inj. rewrite div_spec. reflexivity. Qed.

Lemma ltb_nan_r (x : float) : PrimFloat.ltb x nan = false.
Proof.
  rewrite ltb_spec. change (Prim2SF nan) with S754_nan.
  unfold SFltb, SFcompare. by destruct (Prim2SF x).
Qed.

Lemma far_sum_nan (near far : list float) (i : nat) :
  (i < length near)%nat -> far !! i = Some nan ->
  snd (fst (fold_left
              (fun '(np, fp, cp) j =>
                 (np + ta_get near j * ta_get near j,
                  fp + ta_get far j * ta_get far j,
                  cp + ta_get near j * ta_get far j)%num)
              (seqZ 0 (Z.of_nat (length near))) (of_Z 0, of_Z 0, of_Z 0)))
  = nan.
Proof.
  intros Hi Hnan.
  set (P := fun (k : nat) (acc : float * float * float) =>
              (i < k)%nat -> snd (fst acc) = nan).
  assert (P (length near) (fold_left
              (fun '(np, fp, cp) j =>
                 (np + ta_get near j * ta_get near j,
                  fp + ta_get far j * ta_get far j,
                  cp + ta_get near j * ta_get far j)%num)
              (seqZ 0 (Z.of_nat (length near))) (of_Z 0, of_Z 0, of_Z 0))) as HP.
  { apply (for_loop_ind P); subst P; cbv beta; [lia|].
    intros k [[np fp] cp] _ IH Hk. cbn [fst snd] in *.
    cbn [add mul IEEE.number].
    destruct (decide (i < k)%nat) as [Hlt|Hge].
    - rewrite (IH Hlt). apply add_nan_l.
    - assert (k = i) as -> by lia.
      rewrite (ta_get_nat far), Hnan. cbn [default].
      by rewrite mul_nan_l, add_nan_r. }
  by apply HP.
Qed.

(** X16 (DoubleTalkDetector.process on binary64): a NaN far-end power
    estimate is permanent.  If the estimate is NaN, or the far-end block
    holds a NaN at an index the loop visits, the estimate is NaN after the
    call; and a detector in IDLE with such an estimate stays in IDLE and
    keeps adaptation enabled, whatever the signals. *)
Theorem nan_far_power_is_permanent c (d : t float) (near far : list float) :
  (farEndPower d = nan
   \/ exists i, (i < length near)%nat /\ far !! i = Some nan) ->
  let res := process c d near far in
  farEndPower (fst res) = nan
  /\ (state d = IDLE -> state (fst res) = IDLE /\ snd res = true).
Proof.
  intros Hnan res. subst res. rewrite process_stages. cbv zeta.
  assert (farEndPower (updatePowerEstimates d near far) = nan) as Hfp1.
  { unfold updatePowerEstimates.
    destruct Hnan as [Hd | (i & Hi & Hfar)].
    - destruct (fold_left _ _ _) as [[np fp] cp]. cbn [farEndPower].
      rewrite Hd. cbn [add mul IEEE.number]. by rewrite mul_nan_r, add_nan_l.
    - pose proof (far_sum_nan near far i Hi Hfar) as Hsum.
      destruct (fold_left _ _ _) as [[np fp] cp]. cbn [fst snd] in Hsum.
      subst fp. cbn [farEndPower]. cbn [add mul div IEEE.number].
      by rewrite div_nan_l, mul_nan_r, add_nan_r. }
  destruct (stages_state c d near far) as [Hs Hh].
  destruct (updateCorrelationBuffers_powers c (updatePowerEstimates d near far)
              near far) as (_ & Hfp & _).
  rewrite Hfp1 in Hfp.
  set (d2 := updateCorrelationBuffers c _ near far) in *. clearbody d2.
  cbn [fst snd].
  destruct (updateState_powers c d2 (detectDoubleTalk c d2)) as (_ & -> & _).
  split; [done|]. intros Hst. unfold updateState. rewrite Hs, Hst, Hfp.
  cbn [ltb IEEE.number]. rewrite ltb_nan_r. by rewrite Hs, Hst.
Qed.
End DetectorNan.

Lemma nan_far_power_is_permanent_witness :
  DTD.farEndPower
    (fst (DTD.process DTD.defaultConfig (DTD.create DTD.defaultConfig)
            [0.5; 0.5]%float [0.5; nan]%float))
  = nan.
Proof.
  refine (proj1 (nan_far_power_is_permanent DTD.defaultConfig
                   (DTD.create DTD.defaultConfig)
                   [0.5; 0.5]%float [0.5; nan]%float _)).
  right. exists 1%nat. split; [simpl; lia | reflexivity].
Defined.

(** ** The whole system while only the near end speaks *)
Section SystemNearEnd.

(** The two stages of a block, detector then filter, on a system that has
    heard no far end yet and gets an all-zero system-audio block. *)
Lemma near_end_stages (c : System.Config R) (s : System.t R) (mic : list R) :
  near_end_ready c s -> mic <> [] ->
  let zeros := replicate (length mic) 0%R in
  let detected :=
    DTD.process (System.doubleTalkConfig c) (System.doubleTalkDetector s)
      mic zeros in
  let filtered :=
    NLMS.process (System.nlmsConfig c) (System.nlmsProcessor s) zeros mic true in
  snd detected = true
  /\ snd filtered = mic
  /\ NLMS.weights (fst filtered)
     = (fun w => (NLMS.leakageFactor (System.nlmsConfig c) ^ length mic * w)%R)
         <$> NLMS.weights (System.nlmsProcessor s)
  /\ near_end_ready c
       {| System.nlmsProcessor := fst filtered;
          System.doubleTalkDetector := fst detected |}.
Proof.
  intros (Hwf & Hsil & Hp & Hst & Hfp) Hne zeros detected filtered.
  subst detected filtered zeros.
  assert (silent (replicate (length mic) 0%R)) as Hf
    by (by apply Forall_replicate).
  pose proof (farEndPower_silent (System.doubleTalkDetector s) mic _ Hf) as Hfar.
  destruct (process_idle_low_far (System.doubleTalkConfig c)
              (System.doubleTalkDetector s) mic
              (replicate (length mic) 0%R) Hst) as (Ha & Hst' & Hfp').
  { rewrite Hfar. lra. }
  rewrite process_run, samples_of_zip by (by rewrite length_replicate).
  rewrite zip_zeros.
  destruct (run_quiet (System.nlmsConfig c) true (System.nlmsProcessor s) mic
              Hwf Hsil Hp) as (Hout & Hwf' & Hsil' & Hp' & Hws).
  repeat (split; [done|]). unfold near_end_ready.
  cbn [System.nlmsProcessor System.doubleTalkDetector].
  repeat (split; [done|]). rewrite Hfp', Hfar. lra.
Qed.

(** X17 (EchoCancellationSystem.processBlock, near end only): a system whose
    detector is in IDLE with a far-end power estimate within [0, 1e-6] and
    whose filter has a silent delay line, as after construction, returns
    the microphone block unchanged when the system-audio block is all
    zeros.  The detector stays in IDLE, adaptation runs and only leaks the
    weights (each is multiplied by leakage^n, so zero weights stay zero),
    and all these conditions hold again afterwards, so near-end speech
    passes through block after block.  In real arithmetic, for non-empty
    blocks and a positive regularization. *)
Theorem system_passes_near_end (c : System.Config R) (s : System.t R)
    (mic : list R) :
  near_end_ready c s ->
  (0 < NLMS.regularization (System.nlmsConfig c))%R ->
  mic <> [] ->
  let res := System.processBlock c s mic (replicate (length mic) 0%R) in
  snd res = mic
  /\ NLMS.weights (System.nlmsProcessor (fst res))
     = (fun w => (NLMS.leakageFactor (System.nlmsConfig c) ^ length mic * w)%R)
         <$> NLMS.weights (System.nlmsProcessor s)
  /\ near_end_ready c (fst res).
Proof.
  intros Hready _ Hne res. subst res.
  destruct (near_end_stages c s mic Hready Hne) as (Ha & Hout & Hws & Hready').
  unfold System.processBlock.
  destruct (DTD.process _ _ mic _) as [d' a]. cbn [fst snd] in *. subst a.
  destruct (NLMS.process _ _ _ mic true) as [n' out]. cbn [fst snd] in *.
  done.
Qed.
End SystemNearEnd.

(** A fresh two-tap system on a two-sample microphone block. *)
Lemma system_passes_near_end_witness :
  snd (System.processBlock two_tap_system_config
         (System.create two_tap_system_config) [7; 8]%R (replicate 2 0%R))
  = [7; 8]%R.
Proof.
  destruct (system_passes_near_end two_tap_system_config
              (System.create two_tap_system_config) [7; 8]%R) as [H _].
  - unfold near_end_ready. split; [unfold NLMS.wf; simpl; lia|].
    split; [repeat constructor|]. simpl. repeat split; try lra. 
  - simpl. lra.
  - discriminate.
  - exact H.
Defined.

(** ** The worklet's sample loop: post-processing *)
Section WorkletSample.
Import Worklet.

Lemma limiter_fires (x : R) :
  (95 / 100 < Rabs x)%R ->
  (Rabs (Ideal.Rsign x * (95 / 100)) <= Rabs x)%R.
Proof.
  intros Hl. unfold Ideal.Rsign.
  destruct (Ideal.Rltb 0 x) eqn:H1.
  - rewrite Rmult_1_l, Rabs_pos_eq; lra.
  - destruct (Ideal.Rltb x 0) eqn:H2.
    + replace (-1 * (95 / 100))%R with (- (95 / 100))%R by lra.
      rewrite Rabs_Ropp, Rabs_pos_eq; lra.
    + apply Rltb_false in H1, H2. assert (x = 0%R) as -> by lra.
      rewrite Rabs_R0 in Hl. lra.
Qed.

(** An error signal between the noise floor and the limit passes both
    stages untouched. *)
Lemma postProcess_in_range (errorSignal systemPower : R) :
  (1 / 1000 <= Rabs errorSignal <= 95 / 100)%R ->
  postProcess errorSignal systemPower = errorSignal.
Proof.
  intros [Hlo Hhi]. unfold postProcess. ideal.
  assert (Ideal.Rltb (Rabs errorSignal) (1 / 1000) = false) as ->
    by (by apply Rltb_false).
  cbn [andb].
  assert (Ideal.Rltb (95 / 100) (Rabs errorSignal) = false) as ->
    by (by apply Rltb_false).
  done.
Qed.

(** X18 (EchoCancellationProcessor.processSample, step 7): the noise gate
    and the soft limiter never amplify: the returned magnitude is at most
    that of the error signal.  An error signal between 0.001 and 0.95 in
    magnitude is returned unchanged; a quieter one is returned unchanged
    when the system sample's power is at most 1e-6 and scaled by 0.1
    otherwise.  In real arithmetic. *)
Theorem post_processing_never_amplifies (errorSignal systemPower : R) :
  (Rabs (postProcess errorSignal systemPower) <= Rabs errorSignal)%R
  /\ ((1 / 1000 <= Rabs errorSignal <= 95 / 100)%R ->
      postProcess errorSignal systemPower = errorSignal)
  /\ ((Rabs errorSignal < 1 / 1000)%R ->
      postProcess errorSignal systemPower
      = if Ideal.Rltb (1 / 1000000) systemPower
        then (errorSignal * (1 / 10))%R else errorSignal).
Proof.
  unfold postProcess. ideal.
  destruct (Ideal.Rltb (Rabs errorSignal) (1 / 1000)) eqn:Hq;
    [apply Rltb_true in Hq | apply Rltb_false in Hq];
    destruct (Ideal.Rltb (1 / 1000000) systemPower) eqn:Hp;
    cbn [andb].
  - assert (Rabs (errorSignal * (1 / 10)) = (Rabs errorSignal * (1 / 10))%R) as Ha.
    { rewrite Rabs_mult. f_equal. apply Rabs_pos_eq. lra. }
    assert (Ideal.Rltb (95 / 100) (Rabs (errorSignal * (1 / 10))) = false) as ->.
    { apply Rltb_false. rewrite Ha. lra. }
    split; [|split; [intros [? ?]|intros ?]].
    + rewrite Ha. pose proof (Rabs_pos errorSignal). lra.
    + lra.
    + done.
  - assert (Ideal.Rltb (95 / 100) (Rabs errorSignal) = false) as ->
      by (apply Rltb_false; lra).
    split; [|split; [intros [? ?]|intros ?]]; [lra | done | done].
  - destruct (Ideal.Rltb (95 / 100) (Rabs errorSignal)) eqn:Hl;
      [apply Rltb_true in Hl | apply Rltb_false in Hl];
      (split; [|split; [intros [? ?]|intros ?]]);
      first [by apply limiter_fires | done | lra].
  - destruct (Ideal.Rltb (95 / 100) (Rabs errorSignal)) eqn:Hl;
      [apply Rltb_true in Hl | apply Rltb_false in Hl];
      (split; [|split; [intros [? ?]|intros ?]]);
      first [by apply limiter_fires | done | lra].
Qed.

(** X19 (EchoCancellationProcessor.processSample with an untrained
    filter): while every coefficient of the adaptive filter is zero, the
    estimated echo is zero, so the returned sample is the post-processed
    microphone sample; a microphone sample between 0.001 and 0.95 in
    magnitude is returned unchanged, whatever the system audio.  In real
    arithmetic, for a processor whose arrays have the constructor's
    shape. *)
Theorem untrained_worklet_passes_microphone (s : t R) (micSample systemSample : R) :
  Z.of_nat (length (adaptiveFilter s)) = filterLength s ->
  (filterLength s <= Z.of_nat (length (systemAudioBuffer s)))%Z ->
  (0 <= bufferIndex s < Z.of_nat (length (systemAudioBuffer s)))%Z ->
  silent (adaptiveFilter s) ->
  snd (processSample s micSample systemSample)
  = postProcess micSample (systemSample * systemSample)%R
  /\ ((1 / 1000 <= Rabs micSample <= 95 / 100)%R ->
      snd (processSample s micSample systemSample) = micSample).
Proof.
  intros _ _ _ Hz.
  assert (estimatedEcho s (referenceVector s) = 0%R) as He.
  { unfold estimatedEcho.
    apply (fold_left_inv (fun e : R => e = 0%R)); [done|].
    intros e i ->. ideal. rewrite ta_get_silent by done. lra. }
  assert (snd (processSample s micSample systemSample)
          = postProcess micSample (systemSample * systemSample)%R) as Hout.
  { unfold processSample. cbv zeta. cbn [snd]. rewrite He. ideal.
    by replace (micSample - 0)%R with micSample by lra. }
  split; [exact Hout|]. intros Hm. rewrite Hout.
  by apply postProcess_in_range.
Qed.
End WorkletSample.

Lemma untrained_worklet_passes_microphone_witness :
  snd (Worklet.processSample Worklet.create (1 / 2)%R (1 / 4)%R) = (1 / 2)%R.
Proof.
  destruct (untrained_worklet_passes_microphone Worklet.create
              (1 / 2)%R (1 / 4)%R) as [_ H].
  - reflexivity.
  - vm_compute. discriminate.
  - vm_compute. split; [discriminate | reflexivity].
  - apply Forall_replicate. reflexivity.
  - apply H. rewrite Rabs_pos_eq; lra.
Defined.

(** ** The real-time processor's block *)
Section PipelineShape.
Context {F : Type} {N : Number F} {T : Truncate F}.

Lemma length_pipeline_readBlock (b : CircularBuffer.t F) out d :
  length (Pipeline.readBlock b out d) = length out.
Proof.
  unfold Pipeline.readBlock. apply fold_left_inv; [done|].
  intros a i Ha. by rewrite length_ta_set.
Qed.

Lemma length_applyResidualSuppression (signal reference : list F) :
  length (RealTimeProcessor.applyResidualSuppression signal reference)
  = length signal.
Proof.
  unfold RealTimeProcessor.applyResidualSuppression. cbv zeta.
  apply fold_left_inv.
  - rewrite length_ta_new. lia.
  - intros a i Ha. by rewrite length_ta_set.
Qed.

(** X20 (RealTimeProcessor.processBlock, lengths and buffers): both
    returned blocks have the length of the system-audio block, whatever
    the length of the microphone block; the two input buffers keep their
    shape and capacity and the output buffer is never written. *)
Theorem pipeline_block_shape (c : Pipeline.Config F) (s : Pipeline.t F)
    (micBlock sysBlock : list F) :
  let res := Pipeline.processBlock c s micBlock sysBlock in
  length (fst (snd res)) = length sysBlock
  /\ length (snd (snd res)) = length sysBlock
  /\ Pipeline.outputBuffer (fst res) = Pipeline.outputBuffer s
  /\ Pipeline.micBuffer (fst res)
     = CircularBuffer.writeBlock (Pipeline.micBuffer s) micBlock
  /\ (CircularBuffer.wf (Pipeline.micBuffer s) ->
      CircularBuffer.wf (Pipeline.micBuffer (fst res))
      /\ CircularBuffer.size (Pipeline.micBuffer (fst res))
         = CircularBuffer.size (Pipeline.micBuffer s))
  /\ (CircularBuffer.wf (Pipeline.sysBuffer s) ->
      CircularBuffer.wf (Pipeline.sysBuffer (fst res))
      /\ CircularBuffer.size (Pipeline.sysBuffer (fst res))
         = CircularBuffer.size (Pipeline.sysBuffer s)).
Proof.
  cbv zeta. unfold Pipeline.processBlock. cbv zeta.
  set (alignedMic := Pipeline.readBlock _ (ta_new (Z.of_nat (length micBlock))) _).
  set (alignedSys := Pipeline.readBlock _ (ta_new (Z.of_nat (length sysBlock))) _).
  assert (length alignedSys = length sysBlock) as Hsys.
  { subst alignedSys. rewrite length_pipeline_readBlock, length_ta_new. lia. }
  destruct (DTD.process _ _ alignedMic alignedSys) as [d' a].
  pose proof (length_run (Pipeline.nlmsConfig c) a (Pipeline.nlmsProcessor s)
                (samples_of alignedSys alignedMic)) as Hlen.
  rewrite <- process_run, length_samples_of in Hlen.
  destruct (NLMS.process _ _ alignedSys alignedMic a) as [n' cleanMic].
  cbn [fst snd Pipeline.outputBuffer Pipeline.micBuffer Pipeline.sysBuffer] in *.
  rewrite length_applyResidualSuppression, Hlen.
  repeat (split; [done|]). split; intros Hwf.
  - split; [by apply wf_writeBlock|].
    by destruct (writeBlock_fields (Pipeline.micBuffer s) micBlock Hwf)
      as (_ & _ & -> & _).
  - split; [by apply wf_writeBlock|].
    by destruct (writeBlock_fields (Pipeline.sysBuffer s) sysBlock Hwf)
      as (_ & _ & -> & _).
Qed.
End PipelineShape.

(** ** The real-time processor's block in real arithmetic *)
Section PipelineIdeal.

Lemma Int_part_IZR (z : Z) : Int_part (IZR z) = z.
Proof. symmetry. apply Int_part_spec. lra. Qed.

Lemma Rtruncate_IZR (z : Z) : Rtruncate (IZR z) = z.
Proof.
  unfold Rtruncate. destruct (Ideal.Rltb (IZR z) 0).
  - rewrite <- opp_IZR, Int_part_IZR. lia.
  - apply Int_part_IZR.
Qed.

Lemma pipeline_read_integer (b : CircularBuffer.t R) (d : Z) :
  Pipeline.read b (IZR d) = CircularBuffer.read b d.
Proof.
  unfold Pipeline.read, CircularBuffer.read. cbv zeta. ideal.
  unfold truncate, truncate_real.
  by rewrite <- minus_IZR, Rtruncate_IZR.
Qed.

Lemma pipeline_readBlock_integer (b : CircularBuffer.t R) out (d : Z) :
  Pipeline.readBlock b out (IZR d) = CircularBuffer.readBlock b out d.
Proof.
  rewrite readBlock_reads. unfold Pipeline.readBlock.
  rewrite (fill_loop (fun i => Pipeline.read b (IZR d + of_Z i)%num) out).
  apply list_fmap_ext. intros _ i _. ideal.
  by rewrite <- plus_IZR, pipeline_read_integer.
Qed.

(** The newest block of a buffer, read back at delay 0. *)
Lemma readBlock_newest (b : CircularBuffer.t R) (xs : list R) :
  CircularBuffer.wf b -> (Z.of_nat (length xs) <= CircularBuffer.size b)%Z ->
  CircularBuffer.readBlock (CircularBuffer.writeBlock b xs)
    (ta_new (Z.of_nat (length xs))) 0
  = rev xs.
Proof.
  intros Hb Hlen. rewrite readBlock_reads, length_ta_new, Nat2Z.id.
  apply list_eq. intros j. rewrite list_lookup_fmap.
  destruct (decide (j < length xs)%nat) as [Hj|Hj].
  - rewrite lookup_seqZ_lt by lia. cbn [fmap option_fmap option_map].
    destruct (lookup_lt_is_Some_2 (rev xs) j) as [x Hx];
      [rewrite length_rev; lia|].
    rewrite Hx. f_equal. rewrite Z.add_0_l, Z.add_0_l.
    rewrite (read_writeBlock b xs j x Hb); [done|lia|done].
  - rewrite lookup_seqZ_ge by lia.
    rewrite (proj2 (lookup_ge_None (rev xs) j)); [done|].
    rewrite length_rev. lia.
Qed.

(** X21 (RealTimeProcessor.processBlock, alignment): the microphone block
    reaches the detector and the filter in reverse time order.  The block
    read back at delay 0 is the block just written with its newest sample
    first, so the detector and the filter run on the reversed microphone
    block, and, when the delay estimate rounds to 0, on the reversed
    system-audio block, which is also what is returned as the clean system
    audio.  In real arithmetic, for blocks that fit the buffers. *)
Theorem pipeline_reverses_blocks (c : Pipeline.Config R) (s : Pipeline.t R)
    (micBlock sysBlock : list R) :
  CircularBuffer.wf (Pipeline.micBuffer s) ->
  (Z.of_nat (length micBlock) <= CircularBuffer.size (Pipeline.micBuffer s))%Z ->
  let delay :=
    snd (RealTimeProcessor.estimateDelay (Pipeline.estimatedDelay s)
           micBlock sysBlock) in
  let alignedSys :=
    Pipeline.readBlock (CircularBuffer.writeBlock (Pipeline.sysBuffer s) sysBlock)
      (ta_new (Z.of_nat (length sysBlock))) delay in
  let detected :=
    DTD.process (Pipeline.doubleTalkConfig c) (Pipeline.doubleTalkDetector s)
      (rev micBlock) alignedSys in
  let filtered :=
    NLMS.process (Pipeline.nlmsConfig c) (Pipeline.nlmsProcessor s)
      alignedSys (rev micBlock) (snd detected) in
  let res := Pipeline.processBlock c s micBlock sysBlock in
  snd res
  = (RealTimeProcessor.applyResidualSuppression (snd filtered) alignedSys,
     alignedSys)
  /\ Pipeline.doubleTalkDetector (fst res) = fst detected
  /\ Pipeline.nlmsProcessor (fst res) = fst filtered
  /\ (delay = 0%R -> CircularBuffer.wf (Pipeline.sysBuffer s) ->
      (Z.of_nat (length sysBlock) <= CircularBuffer.size (Pipeline.sysBuffer s))%Z ->
      alignedSys = rev sysBlock).
Proof.
  intros Hwf Hlen delay alignedSys detected filtered res.
  subst res filtered detected. unfold Pipeline.processBlock. cbv zeta.
  fold delay. fold alignedSys.
  change (of_Z (F:=R) 0) with (IZR 0).
  rewrite pipeline_readBlock_integer, readBlock_newest by done.
  destruct (DTD.process _ _ (rev micBlock) alignedSys) as [d' a].
  cbn [fst snd].
  destruct (NLMS.process _ _ alignedSys (rev micBlock) a) as [n' cleanMic].
  cbn [fst snd Pipeline.doubleTalkDetector Pipeline.nlmsProcessor].
  repeat (split; [done|]). intros Hd Hwfs Hlens.
  subst alignedSys. rewrite Hd.
  by rewrite pipeline_readBlock_integer, readBlock_newest.
Qed.

Lemma Int_part_tenths (a : Z) : Int_part (IZR a / 10) = (a / 10)%Z.
Proof.
  symmetry. apply Int_part_spec.
  pose proof (Z.div_mod a 10 ltac:(lia)) as Hdm.
  pose proof (Z.mod_pos_bound a 10 ltac:(lia)) as [Hr0 Hr1].
  assert (IZR a = (10 * IZR (a / 10) + IZR (a mod 10))%R) as Ha.
  { rewrite Hdm at 1. by rewrite plus_IZR, mult_IZR. }
  apply IZR_le in Hr0. assert (a mod 10 <= 9)%Z as Hr9 by lia.
  apply IZR_le in Hr9. lra.
Qed.

(** X22 (RealTimeProcessor.processBlock, delay estimate): because
    [processBlock] stores the rounded return value of [estimateDelay] back
    into the field, the stored estimate is always an integer, and one block
    moves it from z to z + floor((k - z + 5) / 10), where k is the best lag
    of the block.  It therefore does not move at all while the best lag is
    within -5 .. +4 of it: from the initial 0, blocks whose best lag is at
    most 4 leave the estimate at 0.  In real arithmetic. *)
Theorem pipeline_delay_deadband (c : Pipeline.Config R) (s : Pipeline.t R)
    (micBlock sysBlock : list R) (z : Z) :
  Pipeline.estimatedDelay s = IZR z ->
  let k := RealTimeProcessor.bestDelay micBlock sysBlock in
  let s' := fst (Pipeline.processBlock c s micBlock sysBlock) in
  Pipeline.estimatedDelay s' = IZR (z + (k - z + 5) / 10)
  /\ ((-5 <= k - z <= 4)%Z -> Pipeline.estimatedDelay s' = IZR z).
Proof.
  intros Hz k s'.
  assert (Pipeline.estimatedDelay s' = IZR (z + (k - z + 5) / 10)) as Heq.
  { subst s'. unfold Pipeline.processBlock. cbv zeta.
    destruct (DTD.process _ _ _ _) as [d' a].
    destruct (NLMS.process _ _ _ _ a) as [n' cleanMic].
    cbn [fst Pipeline.estimatedDelay].
    unfold RealTimeProcessor.estimateDelay. cbv zeta. cbn [snd]. fold k.
    rewrite Hz. ideal. unfold Ideal.Rround. f_equal.
    replace (IZR z * (1 - 1 / 10) + IZR k * (1 / 10) + / 2)%R
      with (IZR (10 * z + (k - z + 5)) / 10)%R.
    - rewrite Int_part_tenths.
      rewrite (Z.mul_comm 10 z), Z.div_add_l by lia. done.
    - rewrite plus_IZR, mult_IZR, plus_IZR, minus_IZR. lra. }
  split; [exact Heq|]. intros Hk. rewrite Heq. f_equal.
  assert ((k - z + 5) / 10 = 0)%Z as -> by (apply Z.div_small; lia). lia.
Qed.
End PipelineIdeal.

(** The fresh two-tap processor on a block of two samples. *)
Lemma pipeline_reverses_blocks_witness :
  Pipeline.nlmsProcessor
    (fst (Pipeline.processBlock two_tap_pipeline_config two_tap_pipeline
            [1; 2]%R [3; 4]%R))
  = fst (NLMS.process two_tap_config (Pipeline.nlmsProcessor two_tap_pipeline)
           (Pipeline.readBlock
              (CircularBuffer.writeBlock (Pipeline.sysBuffer two_tap_pipeline)
                 [3; 4]%R)
              (ta_new 2)
              (snd (RealTimeProcessor.estimateDelay
                      (Pipeline.estimatedDelay two_tap_pipeline)
                      [1; 2]%R [3; 4]%R)))
           (rev [1; 2]%R)
           (snd (DTD.process DTD.defaultConfig
                   (Pipeline.doubleTalkDetector two_tap_pipeline)
                   (rev [1; 2]%R)
                   (Pipeline.readBlock
                      (CircularBuffer.writeBlock
                         (Pipeline.sysBuffer two_tap_pipeline) [3; 4]%R)
                      (ta_new 2)
                      (snd (RealTimeProcessor.estimateDelay
                              (Pipeline.estimatedDelay two_tap_pipeline)
                              [1; 2]%R [3; 4]%R)))))).
Proof.
  assert (CircularBuffer.wf (Pipeline.micBuffer two_tap_pipeline)) as Hwf.
  { apply wf_create. simpl. lia. }
  assert (Z.of_nat (length [1; 2]%R)
          <= CircularBuffer.size (Pipeline.micBuffer two_tap_pipeline))%Z as Hlen.
  { vm_compute. discriminate. }
  exact (proj1 (proj2 (proj2 (pipeline_reverses_blocks two_tap_pipeline_config
                                two_tap_pipeline [1; 2]%R [3; 4]%R Hwf Hlen)))).
Defined.

Lemma pipeline_delay_deadband_witness :
  Pipeline.estimatedDelay
    (fst (Pipeline.processBlock two_tap_pipeline_config two_tap_pipeline
            [1; 2]%R [3; 4]%R))
  = IZR (0 + (RealTimeProcessor.bestDelay [1; 2]%R [3; 4]%R - 0 + 5) / 10).
Proof.
  refine (proj1 (pipeline_delay_deadband two_tap_pipeline_config
                   two_tap_pipeline [1; 2]%R [3; 4]%R 0 _)).
  reflexivity.
Defined.

(** ** The worklet's block callback *)
Section WorkletBlock.
Import Processor.

Lemma processSample_limited (w : Worklet.t R) (m r : R) :
  (Rabs (snd (Worklet.processSample w m r)) <= 95 / 100)%R.
Proof. unfold Worklet.processSample. cbn [snd]. apply postProcess_limited_ideal. Qed.

Lemma length_adapt (w : Worklet.t R) v e :
  length (Worklet.adapt w v e) = length (Worklet.adaptiveFilter w).
Proof.
  unfold Worklet.adapt. cbv zeta. apply fold_left_inv; [done|].
  intros a i Ha. by rewrite !length_ta_set.
Qed.

(** What one sample leaves in place. *)
Lemma processSample_fields (w : Worklet.t R) (m r : R) :
  let w' := fst (Worklet.processSample w m r) in
  Worklet.systemAudioBuffer w' = Worklet.systemAudioBuffer w
  /\ Worklet.bufferIndex w' = Worklet.bufferIndex w
  /\ Worklet.filterLength w' = Worklet.filterLength w
  /\ length (Worklet.adaptiveFilter w') = length (Worklet.adaptiveFilter w)
  /\ Worklet.regularization w' = Worklet.regularization w
  /\ length (Worklet.micPowerHistory w') = length (Worklet.micPowerHistory w)
  /\ length (Worklet.echoPowerHistory w') = length (Worklet.echoPowerHistory w)
  /\ Worklet.powerIndex w'
     = Z.rem (Worklet.powerIndex w + 1)
             (Z.of_nat (length (Worklet.micPowerHistory w))).
Proof.
  unfold Worklet.processSample. cbv zeta.
  cbn [fst Worklet.systemAudioBuffer Worklet.bufferIndex Worklet.filterLength
       Worklet.adaptiveFilter Worklet.regularization Worklet.micPowerHistory
       Worklet.echoPowerHistory Worklet.powerIndex].
  rewrite !length_ta_set. repeat split.
  destruct (_ && _)%bool; [apply length_adapt|done].
Qed.

(** One sample of the block loop keeps the processor's shape. *)
Lemma process_sample_ready (mic sys : list R) (s : t R) (o : list R) (i : Z) :
  processor_ready s -> processor_ready (fst (process_sample mic sys (s, o) i)).
Proof.
  intros [(Hf & Hfl & Hbi & Hh & Hpi & Hreg) Hmb]. unfold process_sample.
  match goal with
  | |- context [Worklet.processSample ?w ?m ?r] =>
      pose proof (processSample_fields w m r) as Hfields;
      destruct (Worklet.processSample w m r) as [w' clean]
  end.
  cbv zeta in Hfields.
  cbn [fst Worklet.systemAudioBuffer Worklet.bufferIndex Worklet.filterLength
       Worklet.adaptiveFilter Worklet.regularization Worklet.micPowerHistory
       Worklet.echoPowerHistory Worklet.powerIndex] in Hfields.
  destruct Hfields as (Hb' & Hi' & Hl' & Ha' & Hr' & Hm' & He' & Hp').
  unfold processor_ready, worklet_ready.
  cbn [fst core microphoneBuffer Worklet.systemAudioBuffer Worklet.bufferIndex
       Worklet.filterLength Worklet.adaptiveFilter Worklet.regularization
       Worklet.micPowerHistory Worklet.echoPowerHistory Worklet.powerIndex].
  rewrite Hb', Hi', Hl', Ha', Hr', Hm', He', Hp', !length_ta_set, Hmb.
  pose proof (Z.rem_bound_pos (Worklet.bufferIndex (core s) + 1)
                (Z.of_nat (length (Worklet.systemAudioBuffer (core s))))
                ltac:(lia) ltac:(lia)).
  pose proof (Z.rem_bound_pos (Worklet.powerIndex (core s) + 1)
                (Z.of_nat (length (Worklet.micPowerHistory (core s))))
                ltac:(lia) ltac:(lia)).
  repeat split; try done; lia.
Qed.

(** X23 (EchoCancellationProcessor.process, while processing): for a
    processor whose arrays have the constructor's shape and whose
    regularization is positive, with a stereo input whose two channels have
    one length and an output channel, the call succeeds, keeps the length
    of the output channel and the processing switch, adds the length of the
    microphone channel to the sample counter, and leaves the processor in
    shape; every output sample it writes is at most 0.95 in magnitude, and
    output samples beyond the microphone channel's length are left as they
    were.  In real arithmetic; the hypotheses keep every array read in
    range and every divisor away from zero. *)
Theorem worklet_block_limited (s : t R) (microphoneInput systemAudioInput : list R)
    (others : list (list R)) (output : list R) :
  isProcessing s = true ->
  processor_ready s ->
  length systemAudioInput = length microphoneInput ->
  exists s' output',
    process s (Some (microphoneInput :: systemAudioInput :: others)) (Some output)
    = Some (s', Some output')
    /\ length output' = length output
    /\ isProcessing s' = true
    /\ processedSamples s'
       = (processedSamples s + Z.of_nat (length microphoneInput))%Z
    /\ processor_ready s'
    /\ (forall (i : nat) x, (i < length microphoneInput)%nat ->
          output' !! i = Some x -> (Rabs x <= 95 / 100)%R)
    /\ (forall i : nat, (length microphoneInput <= i)%nat ->
          output' !! i = output !! i).
Proof.
  intros Hp Hready _. unfold process. rewrite Hp. cbn [negb]. cbv zeta.
  set (P := fun (k : nat) (acc : t R * list R) =>
              isProcessing (fst acc) = true
              /\ processedSamples (fst acc) = processedSamples s
              /\ processor_ready (fst acc)
              /\ length (snd acc) = length output
              /\ (forall (i : nat) x, (i < k)%nat ->
                    snd acc !! i = Some x -> (Rabs x <= 95 / 100)%R)
              /\ (forall i : nat, (k <= i)%nat -> snd acc !! i = output !! i)).
  assert (P (length microphoneInput)
            (fold_left (process_sample microphoneInput systemAudioInput)
               (seqZ 0 (Z.of_nat (length microphoneInput))) (s, output))) as HP.
  { apply (for_loop_ind P); subst P; cbv beta.
    - cbn [fst snd]. repeat (split; [done|]). split; [|done].
      intros i x Hi. lia.
    - intros k [s0 o] Hk (H1 & H2 & Hr & H3 & H4 & H5). cbn [fst snd] in *.
      split; [|split; [|split]].
      3:{ by apply process_sample_ready. }
      all: unfold process_sample;
        match goal with
        | |- context [Worklet.processSample ?w ?m ?r] =>
            pose proof (processSample_limited w m r) as Hlim;
            destruct (Worklet.processSample w m r) as [w' clean]
        end;
        cbn [fst snd isProcessing processedSamples] in *; try done.
      rewrite ta_set_nat. ideal. repeat split.
      + by rewrite length_insert.
      + intros i x Hi Hx. destruct (decide (i = k)) as [->|Hne].
        * destruct (decide (k < length o)%nat) as [Hko|Hko].
          -- rewrite list_lookup_insert_eq in Hx by lia. by injection Hx as <-.
          -- apply lookup_lt_Some in Hx. rewrite length_insert in Hx. lia.
        * rewrite list_lookup_insert_ne in Hx by done. apply (H4 i); [lia|done].
      + intros i Hi. rewrite list_lookup_insert_ne by lia. apply H5. lia. }
  subst P. cbv beta in HP.
  destruct (fold_left _ _ _) as [s' o']. cbn [fst snd] in HP.
  destruct HP as (H1 & H2 & Hr & H3 & H4 & H5).
  eexists _, o'. split; [reflexivity|].
  cbn [isProcessing processedSamples]. rewrite H2.
  repeat (split; [done|]). done.
Qed.
End WorkletBlock.

Lemma worklet_block_limited_witness :
  exists s' output',
    Processor.process (Processor.handleMessage Processor.create Processor.Start)
      (Some [[2; 3]%R; [0; 0]%R]) (Some [0; 0; 0]%R)
    = Some (s', Some output')
    /\ length output' = 3%nat.
Proof.
  destruct (worklet_block_limited
              (Processor.handleMessage Processor.create Processor.Start)
              [2; 3]%R [0; 0]%R [] [0; 0; 0]%R) as (s' & o' & H1 & H2 & _).
  - reflexivity.
  - split; [|reflexivity].
    split; [reflexivity|]. split; [vm_compute; discriminate|].
    split; [vm_compute; split; [discriminate|reflexivity]|].
    split; [reflexivity|].
    split; [vm_compute; split; [discriminate|reflexivity]|].
    simpl. lra.
  - reflexivity.
  - exists s', o'. split; [exact H1 | exact H2].
Defined.

(** ** The player's offline run *)
Section OfflineShape.
Context {F : Type} {N : Number F}.
Import AudioPlayer.

Lemma length_set_at (target source : list F) offset :
  length (set_at target source offset) = length target.
Proof.
  unfold set_at. apply fold_left_inv; [done|].
  intros a i Ha. by rewrite length_ta_set.
Qed.

(** [set] at the end of a prefix, for a source that fits what follows. *)
Lemma set_at_app (pre rest src : list F) :
  (length src <= length rest)%nat ->
  set_at (pre ++ rest) src (Z.of_nat (length pre))
  = pre ++ (fround <$> src) ++ drop (length src) rest.
Proof.
  intros Hlen. unfold set_at.
  set (P := fun (k : nat) (t : list F) =>
              t = pre ++ (fround <$> take k src) ++ drop k rest).
  assert (P (length src)
            (fold_left (fun t i => ta_set t (Z.of_nat (length pre) + i) (ta_get src i))
               (seqZ 0 (Z.of_nat (length src))) (pre ++ rest))) as HP.
  { apply (for_loop_ind P); subst P; cbv beta.
    - by rewrite take_0, drop_0.
    - intros k t Hk ->.
      destruct (lookup_lt_is_Some_2 src k Hk) as [x Hx].
      destruct (lookup_lt_is_Some_2 rest k ltac:(lia)) as [r Hr].
      rewrite <- Nat2Z.inj_add, ta_set_nat, ta_get_nat, Hx. cbn [default].
      rewrite insert_app_r_alt by lia.
      rewrite insert_app_r_alt
        by (rewrite length_fmap, length_take; lia).
      rewrite length_fmap, length_take.
      replace (length pre + k - length pre - k `min` length src)%nat
        with 0%nat by lia.
      rewrite (drop_S rest r k Hr). cbn [insert list_insert].
      rewrite (take_S_r src k x Hx), fmap_app.
      cbn [fmap list_fmap]. by rewrite <- !app_assoc. }
  subst P. cbv beta in HP. rewrite HP. by rewrite firstn_all.
Qed.

(** X24 (AudioPlayer.processRecordedAudio, length): the processed signal
    has exactly the length of the recorded microphone signal, whatever the
    length of the recorded system audio. *)
Theorem recorded_audio_keeps_length (mixed_signal clean_system : list F) :
  length (processRecordedAudio mixed_signal clean_system)
  = length mixed_signal.
Proof.
  unfold processRecordedAudio. cbv zeta.
  apply (fold_left_inv
           (fun acc : System.t F * list F =>
              length (snd acc) = length mixed_signal)).
  - cbn [snd]. rewrite length_ta_new. lia.
  - intros [e pa] i Hpa. cbn [snd] in Hpa. unfold process_block.
    destruct (System.processBlock _ _ _ _) as [e' pb]. cbn [snd].
    by rewrite length_set_at.
Qed.
End OfflineShape.

Section OfflineNearEnd.
Import AudioPlayer.

Lemma silent_replicate (l : list R) : silent l -> l = replicate (length l) 0%R.
Proof.
  induction l as [|x l IH]; intros Hl; [done|].
  apply Forall_cons in Hl as [-> Hl]. simpl. by rewrite <- IH.
Qed.

Lemma padded_block (block : list R) :
  (length block <= 128)%nat ->
  set_at (ta_new 128) block 0 = block ++ replicate (128 - length block) 0%R.
Proof.
  intros Hlen.
  pose proof (set_at_app (F:=R) [] (ta_new 128) block) as H.
  cbn [app length] in H. change (Z.of_nat 0) with 0%Z in H.
  rewrite H by (rewrite length_ta_new; lia).
  rewrite list_fmap_id. unfold ta_new. rewrite drop_replicate.
  change (Z.to_nat 128) with 128%nat. done.
Qed.

Lemma near_end_ready_create :
  near_end_ready System.defaultConfig (System.create System.defaultConfig).
Proof.
  unfold near_end_ready. split.
  - apply wf_initializeFilter. simpl. lia.
  - split; [apply Forall_replicate; reflexivity|].
    simpl. repeat split; try lra.
Qed.

(** One block of the offline run over a silent system recording. *)
Lemma process_block_near_end (mixed clean : list R) (e : System.t R) (k : nat) :
  silent clean -> near_end_ready System.defaultConfig e ->
  (128 * k < length mixed)%nat ->
  let res :=
    process_block mixed clean
      (e, take (128 * k) mixed ++ replicate (length mixed - 128 * k) 0%R)
      (Z.of_nat k) in
  near_end_ready System.defaultConfig (fst res)
  /\ snd res
     = take (128 * S k) mixed ++ replicate (length mixed - 128 * S k) 0%R.
Proof.
  intros Hsil Hready Hk res. subst res. unfold process_block. cbv zeta.
  set (c := (128 `min` (length mixed - 128 * k))%nat).
  assert (Z.min (Z.of_nat k * 128 + 128) (Z.of_nat (length mixed))
          - Z.of_nat k * 128 = Z.of_nat c)%Z as Hcur by lia.
  rewrite Hcur.
  assert (slice mixed (Z.of_nat k * 128)
            (Z.min (Z.of_nat k * 128 + 128) (Z.of_nat (length mixed)))
          = take c (drop (128 * k) mixed)) as ->.
  { unfold slice. rewrite Hcur, Nat2Z.id. do 2 f_equal. lia. }
  assert (slice clean (Z.of_nat k * 128)
            (Z.min (Z.of_nat k * 128 + 128) (Z.of_nat (length mixed)))
          = take c (drop (128 * k) clean)) as ->.
  { unfold slice. rewrite Hcur, Nat2Z.id. do 2 f_equal. lia. }
  set (block := take c (drop (128 * k) mixed)).
  assert (length block = c) as Hblock.
  { subst block. rewrite length_take, length_drop. lia. }
  set (quiet := take c (drop (128 * k) clean)).
  assert (silent quiet) as Hquiet.
  { subst quiet. apply Forall_take, Forall_drop, Hsil. }
  assert (length quiet <= 128)%nat as Hq128.
  { subst quiet. rewrite length_take. lia. }
  rewrite (padded_block block) by lia.
  rewrite (padded_block quiet) by done.
  assert (quiet ++ replicate (128 - length quiet) 0%R
          = replicate (length (block ++ replicate (128 - length block) 0%R)) 0%R)
    as ->.
  { rewrite (silent_replicate quiet Hquiet) at 1.
    rewrite <- replicate_add. f_equal.
    rewrite length_app, length_replicate. lia. }
  destruct (near_end_stages System.defaultConfig e
              (block ++ replicate (128 - length block) 0%R) Hready)
    as (Ha & Hout & _ & Hready').
  { intros Hnil. apply (f_equal length) in Hnil.
    rewrite length_app, length_replicate in Hnil. simpl in Hnil. lia. }
  unfold System.processBlock.
  destruct (DTD.process _ _ _ _) as [d' a]. cbn [fst snd] in *. subst a.
  destruct (NLMS.process _ _ _ _ true) as [n' pb]. cbn [fst snd] in *.
  split; [done|]. subst pb.
  assert (slice (block ++ replicate (128 - length block) 0%R) 0 (Z.of_nat c)
          = block) as ->.
  { unfold slice. rewrite Z.sub_0_r, Nat2Z.id. change (Z.to_nat 0) with 0%nat.
    rewrite drop_0. by apply take_app_length'. }
  assert (Z.of_nat k * 128 = Z.of_nat (length (take (128 * k) mixed)))%Z as ->.
  { rewrite length_take. lia. }
  rewrite set_at_app by (rewrite length_replicate; lia).
  rewrite list_fmap_id, drop_replicate, Hblock. subst block.
  rewrite app_assoc, take_take_drop.
  destruct (decide (128 <= length mixed - 128 * k)%nat) as [Hfull|Hlast].
  - f_equal; [f_equal; lia | f_equal; lia].
  - rewrite (take_ge mixed (128 * k + c)) by lia.
    rewrite (take_ge mixed (128 * S k)) by lia.
    f_equal. f_equal. lia.
Qed.

(** X25 (AudioPlayer.processRecordedAudio over a silent system recording):
    when the recorded system audio is all zeros, of any length, the
    processed signal is the recorded microphone signal, sample for sample:
    the block loop, its zero padding of the last block and the echo
    canceller built with the default configuration leave near-end speech
    untouched.  In real arithmetic. *)
Theorem recorded_near_end_is_unchanged (mixed_signal clean_system : list R) :
  silent clean_system ->
  processRecordedAudio mixed_signal clean_system = mixed_signal.
Proof.
  intros Hsil. unfold processRecordedAudio. cbv zeta.
  set (len := length mixed_signal).
  set (nb := Z.to_nat ((Z.of_nat len + 128 - 1) / 128)).
  assert ((Z.of_nat len + 128 - 1) / 128 = Z.of_nat nb)%Z as ->.
  { subst nb. rewrite Z2Nat.id; [done|]. apply Z.div_pos; lia. }
  pose proof (Z.mul_div_le (Z.of_nat len + 128 - 1) 128 ltac:(lia)) as Hle.
  pose proof (Z.mul_succ_div_gt (Z.of_nat len + 128 - 1) 128 ltac:(lia)) as Hgt.
  assert ((Z.of_nat len + 128 - 1) / 128 = Z.of_nat nb)%Z as Hnb.
  { subst nb. rewrite Z2Nat.id; [done|]. apply Z.div_pos; lia. }
  rewrite Hnb in Hle, Hgt.
  set (P := fun (k : nat) (acc : System.t R * list R) =>
              near_end_ready System.defaultConfig (fst acc)
              /\ snd acc
                 = take (128 * k) mixed_signal
                   ++ replicate (len - 128 * k) 0%R).
  assert (P nb (fold_left (process_block mixed_signal clean_system)
                  (seqZ 0 (Z.of_nat nb))
                  (System.create System.defaultConfig, ta_new (Z.of_nat len))))
    as HP.
  { apply (for_loop_ind P); subst P; cbv beta.
    - cbn [fst snd]. split; [apply near_end_ready_create|].
      rewrite Nat.mul_0_r, take_0, Nat.sub_0_r. unfold ta_new.
      by rewrite Nat2Z.id.
    - intros k [e pa] Hk [Hready Hpa]. cbn [fst snd] in *. subst pa.
      apply process_block_near_end; [done|done|]. subst len. lia. }
  subst P. cbv beta in HP. destruct HP as [_ ->].
  rewrite take_ge by (subst len; lia).
  replace (len - 128 * nb)%nat with 0%nat by lia.
  apply app_nil_r.
Qed.
End OfflineNearEnd.

Lemma recorded_near_end_is_unchanged_witness :
  AudioPlayer.processRecordedAudio [7; 8; 9]%R [0; 0]%R = [7; 8; 9]%R.
Proof.
  apply (recorded_near_end_is_unchanged [7; 8; 9]%R [0; 0]%R).
  repeat constructor.
Defined.

(** ** Blocks of unequal length on binary64 *)
Section ShortMicrophone.
Open Scope float_scope.

(** X26 (EchoCancellationSystem.processBlock, microphone block shorter than
    the system-audio block, on binary64): the output has the length of the
    system-audio block, and every output sample at an index the microphone
    block does not have is NaN, since the missing sample is read as
    [undefined]. *)
Theorem short_microphone_gives_nan (c : System.Config float) (s : System.t float)
    (mic sys : list float) (i : nat) :
  (i < length sys)%nat -> (length mic <= i)%nat ->
  length (snd (System.processBlock c s mic sys)) = length sys
  /\ snd (System.processBlock c s mic sys) !! i = Some nan.
Proof.
  intros Hi Hmic. unfold System.processBlock.
  destruct (DTD.process _ _ mic sys) as [d' a].
  pose proof (process_run (System.nlmsConfig c) (System.nlmsProcessor s)
                sys mic a) as Hrun.
  destruct (NLMS.process _ _ sys mic a) as [n' out]. cbn [snd].
  assert (out = snd (run (System.nlmsConfig c) a (System.nlmsProcessor s)
                       (samples_of sys mic))) as -> by (by rewrite <- Hrun).
  split; [by rewrite length_run, length_samples_of|].
  destruct (run_output_at (System.nlmsConfig c) a (System.nlmsProcessor s)
              (samples_of sys mic) i (ta_get sys (Z.of_nat i)) nan) as [y Hy].
  { rewrite samples_of_lookup by done. rewrite (ta_get_nat mic).
    by rewrite (proj2 (lookup_ge_None mic i)) by lia. }
  rewrite Hy. cbn [sub fround IEEE.number]. by rewrite sub_nan_l.
Qed.
End ShortMicrophone.

Lemma short_microphone_gives_nan_witness :
  snd (System.processBlock System.defaultConfig
         (System.create System.defaultConfig) [0.5]%float [0.5; 0.25]%float)
    !! 1%nat = Some nan.
Proof.
  refine (proj2 (short_microphone_gives_nan System.defaultConfig
                   (System.create System.defaultConfig)
                   [0.5]%float [0.5; 0.25]%float 1 _ _)).
  - simpl. lia.
  - simpl. lia.
Defined.
